(** * simplemma: lemmatization by table lookup, and language detection

    A shallow embedding of [simplemma/simplemma.py] and
    [simplemma/langdetect.py], with the properties of the resolution
    pipeline, of the edit distance and of the language detector.

    Conventions of the embedding.
    - A Python [str] is a [string], one character of the model for one
      character of Python. The [str] methods that consult the Unicode
      database ([lower], [capitalize], [isupper], [isnumeric], [strip])
      and the character class of the tokenising regular expression are
      parameters, gathered in the class [Py.Unicode]; every theorem
      holds for every instance. The closed examples are written in
      ASCII and run on the instance of that range.
    - A Python [int] is a [Z]; [len] returns a [Z].
    - A [dict] from word forms to lemmata is a [gmap string string]; a
      [dict] whose insertion order is observable ([myresults] of the
      detector, the [Counter] of [prepare_text]) is an association list.
    - A call that may raise returns a [res]: [Ok v] or [Raise e].
    - The quotient of two [int]s by [/] is an exact rational ([Q]).
    - [functools.lru_cache] only memoises; the cache of [lemmatize] is
      cleared whenever the loaded tables change, so the decorated
      functions are embedded without it. *)

From Stdlib Require Import ZArith QArith Ascii String List Lia.
From stdpp Require Import base decidable option list gmap strings sets sorting.
From Equations Require Import Equations.

Local Open Scope Z_scope.

(** ** Exceptions and results *)

Inductive exn : Type :=
  | TypeError
  | ValueError
  | IndexError
  | ZeroDivisionError
  | UnboundLocalError.

Global Instance exn_eq_dec : EqDecision exn.
Proof. solve_decision. Defined.

Inductive res (A : Type) : Type :=
  | Ok (a : A)
  | Raise (e : exn).
Arguments Ok {A} a.
Arguments Raise {A} e.

Global Instance res_ret : MRet res := fun A a => Ok a.
Global Instance res_bind : MBind res := fun A B f m =>
  match m with
  | Ok a => f a
  | Raise e => Raise e
  end.

(** ** Python strings *)

Module Py.

Definition chars (s : string) : list ascii := list_ascii_of_string s.
Definition str (l : list ascii) : string := string_of_list_ascii l.

(** [len(s)] *)
Definition len (s : string) : Z := Z.of_nat (String.length s).

(** What the code asks of the Unicode database, through the [str]
    methods and the character classes of [re]: these are not part of
    the sources, and the development is parametric in them.
    - [lower s] is [s.lower()] and [capitalize s] is [s.capitalize()];
      both are functions of the whole string, and neither keeps the
      length in general.
    - [isupper_char c] is [c.isupper()] for the one-character string
      [c].
    - [isnumeric_char c] tells whether [c] is a numeric character, as
      [str.isnumeric] tests it.
    - [re_letter c] tells whether [c] matches the class [[^\W\d_]] of
      [SPLIT_INPUT].
    - [isspace_char c] tells whether [str.strip()] removes [c].
    The laws are those that the proofs use: the case mappings send the
    empty string to itself and no other string to it, and the tab is a
    whitespace character. *)
Class Unicode : Type := {
  lower : string → string;
  capitalize : string → string;
  isupper_char : ascii → bool;
  isnumeric_char : ascii → bool;
  re_letter : ascii → bool;
  isspace_char : ascii → bool;
  lower_empty : lower EmptyString = EmptyString;
  lower_nonempty : ∀ s, s ≠ EmptyString → lower s ≠ EmptyString;
  capitalize_nonempty : ∀ s, s ≠ EmptyString → capitalize s ≠ EmptyString;
  isspace_tab : isspace_char "009" = true
}.

(** [s.isnumeric()]: at least one character and only numeric ones *)
Fixpoint all_numeric {U : Unicode} (s : string) : bool :=
  match s with
  | EmptyString => true
  | String c s' => isnumeric_char c && all_numeric s'
  end.
Definition isnumeric {U : Unicode} (s : string) : bool :=
  match s with
  | EmptyString => false
  | _ => all_numeric s
  end.

(** [s[0]] *)
Definition first (s : string) : res ascii :=
  match s with
  | EmptyString => Raise IndexError
  | String c _ => Ok c
  end.

(** Truth value of a string: the empty string is false. *)
Definition truthy (s : string) : bool :=
  match s with
  | EmptyString => false
  | _ => true
  end.

(** [s[start:]] for any integer [start] *)
Definition slice_from (s : string) (start : Z) : string :=
  let n := len s in
  let a := if start <? 0 then Z.max (n + start) 0 else Z.min start n in
  str (drop (Z.to_nat a) (chars s)).

(** [s[:stop]] for any integer [stop] *)
Definition slice_to (s : string) (stop : Z) : string :=
  let n := len s in
  let b := if stop <? 0 then Z.max (n + stop) 0 else Z.min stop n in
  str (take (Z.to_nat b) (chars s)).

(** [range(start, stop)] *)
Definition range (start stop : Z) : list Z :=
  (fun i => start + Z.of_nat i) <$> seq 0 (Z.to_nat (stop - start)).

(** [range(start, stop, -1)] *)
Definition range_down (start stop : Z) : list Z :=
  (fun i => start - Z.of_nat i) <$> seq 0 (Z.to_nat (start - stop)).

(** [''.join(parts)] *)
Definition join (parts : list string) : string :=
  foldr String.append EmptyString parts.

(** [l[j]] for [0 <= j] *)
Definition getitem {A} (l : list A) (j : nat) : res A :=
  match l !! j with
  | Some x => Ok x
  | None => Raise IndexError
  end.

(** [l[j] = v] for [0 <= j] *)
Definition setitem {A} (l : list A) (j : nat) (v : A) : res (list A) :=
  if decide (j < length l)%nat then Ok (<[j:=v]> l) else Raise IndexError.

(** [l[-1]] *)
Definition getlast {A} (l : list A) : res A :=
  match last l with
  | Some x => Ok x
  | None => Raise IndexError
  end.

(** [a / b] on integers *)
Definition truediv (a b : Z) : res Q :=
  if b =? 0 then Raise ZeroDivisionError
  else Ok (inject_Z a / inject_Z b)%Q.

(** [x > y] on quotients *)
Definition Qgtb (x y : Q) : bool := negb (Qle_bool x y).

End Py.

(** ** The edit distance of [simplemma.py] *)

(** The three-way comparison of lines 177-187:
    [a1, a2, a3 = r2[j], r1[j], r1[j+1]]. *)
Definition min3_step (a1 a2 a3 : Z) : Z :=
  if a1 >? a2 then
    if a2 >? a3 then 1 + a3 else 1 + a2
  else
    if a1 >? a3 then 1 + a3 else 1 + a1.

(** The inner loop [for c2 in str2], with its counter [j] and the row
    [r2] it fills. *)
Fixpoint lev_inner (c1 : ascii) (str2 : list ascii)
    (r1 r2 : list Z) (j : nat) : res (list Z) :=
  match str2 with
  | [] => Ok r2
  | c2 :: rest =>
      r2' ← (if decide (c1 = c2) then
               v ← Py.getitem r1 j; Py.setitem r2 (j + 1) v
             else
               a1 ← Py.getitem r2 j;
               a2 ← Py.getitem r1 j;
               a3 ← Py.getitem r1 (j + 1);
               Py.setitem r2 (j + 1) (min3_step a1 a2 a3));
      lev_inner c1 rest r1 r2' (j + 1)
  end.

(** The outer loop [for c1 in str1], with its counter [i]; the two rows
    are exchanged at the end of each round. The result is the final
    [r1]. *)
Fixpoint lev_outer (str1 str2 : list ascii)
    (r1 r2 : list Z) (i : Z) : res (list Z) :=
  match str1 with
  | [] => Ok r1
  | c1 :: rest =>
      r2a ← Py.setitem r2 0 (i + 1);
      r2b ← lev_inner c1 str2 r1 r2a 0;
      lev_outer rest str2 r2b r1 (i + 1)
  end.

Definition _levenshtein_dist (str1 str2 : string) : res Z :=
  if decide (str1 = str2) then Ok 0
  else
    let '(str1, str2) :=
      if Py.len str1 >? Py.len str2 then (str2, str1) else (str1, str2) in
    let r1 := Py.range 0 (Py.len str2 + 1) in
    let r2 := replicate (length r1) 0 in
    r ← lev_outer (Py.chars str1) (Py.chars str2) r1 r2 0;
    Py.getlast r.

(** ** Constants of [simplemma.py] *)

Definition LANGLIST : list string :=
  ["bg"; "ca"; "cs"; "cy"; "da"; "de"; "el"; "en"; "es"; "et"; "fa"; "fi";
   "fr"; "ga"; "gd"; "gl"; "gv"; "hu"; "hy"; "id"; "it"; "ka"; "la"; "lb";
   "lt"; "lv"; "mk"; "nb"; "nl"; "pl"; "pt"; "ro"; "ru"; "sk"; "sl"; "sv";
   "tr"; "uk"].

Definition AFFIXLEN : Z := 2.
Definition LONGAFFIXLEN : Z := 5.
Definition MINCOMPLEN : Z := 4.

Definition BETTER_LOWER : gset string :=
  list_to_set ["bg"; "es"; "hy"; "lt"; "lv"; "pt"; "sk"].
Definition LONGER_AFFIXES : gset string :=
  list_to_set ["et"; "fi"; "hu"; "hy"; "lt"; "ru"].
Definition HYPHENS : gset string := list_to_set ["-"; "_"].

(** [class LangDict]: the table of one language and its code. *)
Record LangDict : Type := mkLangDict {
  code : string;
  dict : gmap string string
}.

(** A value passed where the code tests its type with [isinstance]. *)
Inductive pyval : Type :=
  | PStr (s : string)
  | PTuple (l : list string)
  | PNone.

(** ** Single-step lookup *)

Definition _simple_search {U : Py.Unicode}
    (token : string) (datadict : gmap string string)
    (initial : bool) : res (option string) :=
  let token := if initial then Py.lower token else token in
  match datadict !! token with
  | Some candidate => Ok (Some candidate)
  | None =>
      c0 ← Py.first token;
      if Py.isupper_char c0 then Ok (datadict !! Py.lower token)
      else Ok (datadict !! Py.capitalize token)
  end.

(** ** Following chains of entries *)

(** The [while] loop of [_greedy_search], on its variables [candidate]
    and [i]; every round strictly shortens [candidate]. *)
Equations? greedy_loop (datadict : gmap string string) (steps distance : Z)
    (candidate : string) (i : Z) : res (string * Z)
    by wf (String.length candidate) lt :=
  greedy_loop datadict steps distance candidate i
    with datadict !! candidate => {
    | None := Ok (candidate, i);
    | Some next with decide (Py.len next < Py.len candidate) => {
       | right _ := Ok (candidate, i);
       | left Hlt :=
           d ← _levenshtein_dist next candidate;
           if d <=? distance then
             if i + 1 >=? steps then Ok (next, i + 1)
             else greedy_loop datadict steps distance next (i + 1)
           else Ok (candidate, i) } }.
Proof. unfold Py.len in Hlt. lia. Qed.

Definition _greedy_search (candidate : string) (datadict : gmap string string)
    (steps distance : Z) : res string :=
  '(candidate, _) ← greedy_loop datadict steps distance candidate 0;
  Ok candidate.

(** ** Decomposition *)

(** One round of the loop of [_decompose] on [(candidate, plan_b)]; the
    boolean tells whether the round ends in [break]. *)
Definition decompose_body {U : Py.Unicode}
    (token : string) (datadict : gmap string string)
    (affixlen count : Z) (st : option string * option string)
    : res ((option string * option string) * bool) :=
  let '(candidate, plan_b) := st in
  let part1 := Py.slice_to token (- count) in
  let part2 := Py.slice_from token (- count) in
  lempart1 ← _simple_search part1 datadict false;
  match lempart1 with
  | None => Ok ((candidate, plan_b), false)
  | Some lempart1 =>
      if count <=? affixlen then Ok ((Some lempart1, plan_b), true)
      else
        c0 ← Py.first token;
        let part2 := if Py.isupper_char c0 then Py.capitalize part2 else part2 in
        lempart2 ← _simple_search part2 datadict false;
        match lempart2 with
        | None => Ok ((candidate, plan_b), false)
        | Some lempart2 =>
            l0 ← Py.first lempart2;
            let substitute :=
              if Py.isupper_char l0 then Py.lower part2
              else Py.capitalize part2 in
            newcandidate ← _greedy_search substitute datadict 1 5;
            let candidate :=
              if Py.truthy newcandidate && (Py.len newcandidate <? Py.len part2)
              then Some (part1 +:+ Py.lower newcandidate)
              else candidate in
            match candidate with
            | Some _ => Ok ((candidate, plan_b), true)
            | None =>
                newcandidate ← _simple_search part2 datadict false;
                match newcandidate with
                | Some nc =>
                    if Py.truthy nc && (Py.len nc <=? Py.len part2) then
                      Ok ((Some (part1 +:+ Py.lower nc), plan_b), true)
                    else if Py.len lempart2 <? Py.len part2 + affixlen then
                      Ok ((None, Some (part1 +:+ Py.lower lempart2)), true)
                    else Ok ((None, plan_b), true)
                | None =>
                    if Py.len lempart2 <? Py.len part2 + affixlen then
                      Ok ((None, Some (part1 +:+ Py.lower lempart2)), true)
                    else Ok ((None, plan_b), true)
                end
            end
        end
  end.

Fixpoint decompose_loop {U : Py.Unicode}
    (token : string) (datadict : gmap string string)
    (affixlen : Z) (counts : list Z) (st : option string * option string)
    : res (option string * option string) :=
  match counts with
  | [] => Ok st
  | count :: rest =>
      '(st', stop) ← decompose_body token datadict affixlen count st;
      if stop : bool then Ok st'
      else decompose_loop token datadict affixlen rest st'
  end.

Definition _decompose {U : Py.Unicode}
    (token : string) (datadict : gmap string string)
    (affixlen : Z) : res (option string * option string) :=
  decompose_loop token datadict affixlen
    (Py.range 1 (Py.len token - MINCOMPLEN + 1)) (None, None).

(** The loop of [_affix_search]; its state is [None] as long as
    [candidate] and [plan_b] are unbound. *)
Fixpoint affix_loop {U : Py.Unicode}
    (wordform : string) (datadict : gmap string string)
    (lengths : list Z) (st : option (option string * option string))
    : res (option (option string * option string)) :=
  match lengths with
  | [] => Ok st
  | length :: rest =>
      '(candidate, plan_b) ← _decompose wordform datadict length;
      match candidate with
      | Some _ => Ok (Some (candidate, plan_b))
      | None => affix_loop wordform datadict rest (Some (candidate, plan_b))
      end
  end.

Definition _affix_search {U : Py.Unicode}
    (wordform : string) (datadict : gmap string string)
    (maxlen : Z) : res (option string) :=
  st ← affix_loop wordform datadict (Py.range_down maxlen 1) None;
  match st with
  | None => Raise UnboundLocalError
  | Some (None, Some plan_b) => Ok (Some plan_b)
  | Some (candidate, _) => Ok candidate
  end.

(** ** Hyphenated tokens *)

Definition is_hyphen (c : ascii) : bool :=
  bool_decide (c = "-"%char) || bool_decide (c = "_"%char).

(** [HYPHEN_REGEX.split(token)]: the segments between the separators,
    and the separators themselves (the pattern has a capturing group). *)
Fixpoint hyphen_split (s : string) : list string :=
  match s with
  | EmptyString => [EmptyString]
  | String c rest =>
      if is_hyphen c then EmptyString :: String c EmptyString :: hyphen_split rest
      else
        match hyphen_split rest with
        | w :: ws => String c w :: ws
        | [] => [String c EmptyString]
        end
  end.

(** [c in token] for a one-character string [c] *)
Definition contains (c : ascii) (token : string) : bool :=
  bool_decide (c ∈ Py.chars token).

Definition _dehyphen {U : Py.Unicode}
    (token : string) (datadict : gmap string string)
    (greedy : bool) : res (option string) :=
  if negb (contains "-" token) && negb (contains "_" token) then Ok None
  else
    let splitted := hyphen_split token in
    nonempty_last ←
      (if 1 <? Z.of_nat (length splitted) then
         lastseg ← Py.getlast splitted; Ok (0 <? Py.len lastseg)
       else Ok false);
    if nonempty_last : bool then
      let subcandidate :=
        Py.join (Py.lower <$> filter (fun t => t ∉ HYPHENS) splitted) in
      c0 ← Py.first token;
      let subcandidate :=
        if Py.isupper_char c0 then Py.capitalize subcandidate
        else subcandidate in
      match datadict !! subcandidate with
      | Some lemma => Ok (Some lemma)
      | None =>
          lastseg ← Py.getlast splitted;
          subcandidate ← _simple_search lastseg datadict false;
          subcandidate ←
            match subcandidate with
            | None =>
                if greedy then
                  lastseg ← Py.getlast splitted;
                  _affix_search lastseg datadict AFFIXLEN
                else Ok None
            | Some _ => Ok subcandidate
            end;
          match subcandidate with
          | Some sub =>
              splitted ← Py.setitem splitted (length splitted - 1) sub;
              Ok (Some (Py.join splitted))
          | None => Ok None
          end
      end
    else Ok None.

(** ** Suffix scan *)

(** The loop of [_suffix_search] on [(lastpart, lastcount)]; [lastpart]
    is [None] as long as it is unbound. *)
Fixpoint suffix_loop {U : Py.Unicode}
    (token : string) (datadict : gmap string string)
    (counts : list Z) (st : option string * Z) : res (option string * Z) :=
  match counts with
  | [] => Ok st
  | count :: rest =>
      let suffix := Py.slice_from token (- count) in
      part ← _simple_search (Py.capitalize suffix) datadict false;
      let st' :=
        match part with
        | Some p => if Py.len p <=? Py.len suffix then (Some p, count) else st
        | None => st
        end in
      suffix_loop token datadict rest st'
  end.

Definition _suffix_search {U : Py.Unicode}
    (token : string) (datadict : gmap string string)
    : res (option string) :=
  '(lastpart, lastcount) ←
    suffix_loop token datadict
      (Py.range MINCOMPLEN (Py.len token - MINCOMPLEN + 1)) (None, 0);
  if lastcount >? 0 then
    match lastpart with
    | Some lastpart =>
        Ok (Some (Py.slice_to token (- lastcount) +:+ Py.lower lastpart))
    | None => Raise UnboundLocalError
    end
  else Ok None.

(** ** The resolver and the public [lemmatize] *)

Section Simplemma.
Context {U : Py.Unicode}.

(** [apply_rules] of [rules.py], the rule-based fallback: a pure
    function of the token and of the language code. The module is not
    part of the sources at hand; every result below holds for any such
    function. *)
Variable apply_rules : string → string → option string.

(** [_load_pickle]: the table stored on disk for a language code. *)
Variable _load_pickle : string → gmap string string.

Definition _return_lemma (token : string) (datadict : gmap string string)
    (greedy : bool) (lang : string) (initial : bool) : res (option string) :=
  if Py.isnumeric token then Ok (Some token)
  else
    candidate ← _simple_search token datadict initial;
    let candidate :=
      match candidate with
      | None => apply_rules token lang
      | Some _ => candidate
      end in
    candidate ←
      match candidate with
      | None => _dehyphen token datadict greedy
      | Some c =>
          newcandidate ← _dehyphen c datadict greedy;
          match newcandidate with
          | Some _ => Ok newcandidate
          | None => Ok candidate
          end
      end;
    if (Py.len token <=? 8) || negb greedy then Ok candidate
    else
      match candidate with
      | None =>
          let maxlen :=
            if bool_decide (lang ∈ LONGER_AFFIXES) then LONGAFFIXLEN
            else AFFIXLEN in
          candidate ← _affix_search token datadict maxlen;
          match candidate with
          | None => _suffix_search token datadict
          | Some _ => Ok candidate
          end
      | Some c =>
          candidate ← _greedy_search c datadict 1 5;
          Ok (Some candidate)
      end.

Definition _load_data (langs : list string) : list LangDict :=
  flat_map
    (fun lang =>
       if bool_decide (lang ∈ LANGLIST) then [mkLangDict lang (_load_pickle lang)]
       else [])
    langs.

(** [_update_lang_data], on the global [LANG_DATA]: returns the tuple of
    codes and the new value of the global. *)
Definition _update_lang_data (LANG_DATA : list LangDict) (lang : pyval)
    : res (list string * list LangDict) :=
  match lang with
  | PNone => Raise TypeError
  | PStr _ | PTuple _ =>
      let lang := match lang with PStr s => [s] | PTuple l => l | PNone => [] end in
      if match LANG_DATA with [] => true | _ => false end
         || negb (bool_decide (code <$> LANG_DATA = lang))
      then Ok (lang, _load_data lang)
      else Ok (lang, LANG_DATA)
  end.

(** The loop of [lemmatize] over the loaded tables: the first
    candidate that is not [None], or [None] after the last table. *)
Fixpoint lemmatize_loop (token : string) (langdata : list LangDict)
    (greedy initial : bool) : res (option string) :=
  match langdata with
  | [] => Ok None
  | l :: rest =>
      candidate ← _return_lemma token (dict l) greedy (code l) initial;
      match candidate with
      | Some _ => Ok candidate
      | None => lemmatize_loop token rest greedy initial
      end
  end.

(** [lemmatize], with the global [LANG_DATA] passed in and out. The
    defaults of the source are [lang=None], [greedy=False],
    [silent=True], [initial=False]. *)
Definition lemmatize (LANG_DATA : list LangDict) (token lang : pyval)
    (greedy silent initial : bool) : res string * list LangDict :=
  match token with
  | PStr token =>
      match _update_lang_data LANG_DATA lang with
      | Raise e => (Raise e, LANG_DATA)
      | Ok (lang, LANG_DATA) =>
          (candidate ← lemmatize_loop token LANG_DATA greedy initial;
           match candidate with
           | Some candidate => Ok candidate
           | None =>
               if negb silent then Raise ValueError
               else
                 lang0 ← Py.getitem lang 0;
                 if bool_decide (lang0 ∈ BETTER_LOWER) then Ok (Py.lower token)
                 else Ok token
           end,
           LANG_DATA)
      end
  | _ => (Raise TypeError, LANG_DATA)
  end.

(** ** [langdetect.py] *)

(** [sorted(l, key=..., reverse=True)]: descending and stable. *)
Fixpoint insert_desc {A} (gt : A → A → bool) (x : A) (l : list A) : list A :=
  match l with
  | [] => [x]
  | y :: l' => if gt y x then y :: insert_desc gt x l' else x :: y :: l'
  end.

Definition sorted_reverse {A} (gt : A → A → bool) (l : list A) : list A :=
  foldr (insert_desc gt) [] l.

(** The maximal runs of characters of [text] that satisfy [p]. *)
Fixpoint runs (p : ascii → bool) (text : list ascii) (cur : list ascii)
    : list string :=
  match text with
  | [] => [Py.str (reverse cur)]
  | c :: rest =>
      if p c then runs p rest (c :: cur)
      else Py.str (reverse cur) :: runs p rest []
  end.

(** [SPLIT_INPUT.finditer(text)] for [SPLIT_INPUT = [^\W\d_]{3,}]: the
    maximal runs of three characters or more of the class of the
    pattern ([Py.re_letter]), in order. *)
Definition SPLIT_INPUT_finditer (text : string) : list string :=
  filter (fun w => (3 ≤ String.length w)%nat)
         (runs Py.re_letter (Py.chars text) []).

(** [counter[w] += 1], keeping the order of first insertion. *)
Fixpoint counter_add (w : string) (counter : list (string * Z))
    : list (string * Z) :=
  match counter with
  | [] => [(w, 1)]
  | (k, n) :: rest =>
      if decide (k = w) then (k, n + 1) :: rest
      else (k, n) :: counter_add w rest
  end.

Definition Counter (words : list string) : list (string * Z) :=
  foldl (fun counter w => counter_add w counter) [] words.

Definition most_common (n : nat) (counter : list (string * Z))
    : list (string * Z) :=
  take n (sorted_reverse (fun x y => snd x >? snd y) counter).

Definition prepare_text (text : string) : list string :=
  fst <$> most_common 1000 (Counter (SPLIT_INPUT_finditer text)).

(** The inner loop of [in_target_language] over the languages. *)
Fixpoint in_target_langs (token : string)
    (langdata : list (string * gmap string string)) (in_target : Z) : res Z :=
  match langdata with
  | [] => Ok in_target
  | language :: rest =>
      candidate ← _return_lemma token (snd language) true (fst language) false;
      in_target_langs token rest
        (match candidate with Some _ => in_target + 1 | None => in_target end)
  end.

Fixpoint in_target_tokens (tokens : list string)
    (langdata : list (string * gmap string string)) (total in_target : Z)
    : res (Z * Z) :=
  match tokens with
  | [] => Ok (total, in_target)
  | token :: rest =>
      in_target ← in_target_langs token langdata in_target;
      in_target_tokens rest langdata (total + 1) in_target
  end.

Definition in_target_language (text : string)
    (langdata : list (string * gmap string string)) : res Q :=
  '(total, in_target) ← in_target_tokens (prepare_text text) langdata 0 0;
  Py.truediv in_target total.

(** [myresults[k] = v]: a new key is appended, a known key keeps its
    position. *)
Fixpoint dict_set (k : string) (v : Q) (d : list (string * Q))
    : list (string * Q) :=
  match d with
  | [] => [(k, v)]
  | (k', v') :: rest =>
      if decide (k' = k) then (k', v) :: rest else (k', v') :: dict_set k v rest
  end.

(** The loop over the tokens for one language: the list [in_target]. *)
Fixpoint detect_tokens (tokens : list string) (langcode : string)
    (langdict : gmap string string) (extensive : bool)
    (in_target : list string) : res (list string) :=
  match tokens with
  | [] => Ok in_target
  | token :: rest =>
      result ← (if negb extensive then _simple_search token langdict false
                else _return_lemma token langdict true langcode false);
      detect_tokens rest langcode langdict extensive
        (match result with
         | Some _ => in_target ++ [token]
         | None => in_target
         end)
  end.

(** The loop over the languages, on [myresults] and [found]. *)
Fixpoint detect_langs (tokens : list string)
    (langdata : list (string * gmap string string)) (extensive : bool)
    (myresults : list (string * Q)) (found : gset string)
    : res (list (string * Q) * gset string) :=
  match langdata with
  | [] => Ok (myresults, found)
  | (langcode, langdict) :: rest =>
      in_target ← detect_tokens tokens langcode langdict extensive [];
      let found := found ∪ list_to_set in_target in
      score ← Py.truediv (Z.of_nat (length in_target)) (Z.of_nat (length tokens));
      detect_langs tokens rest extensive (dict_set langcode score myresults) found
  end.

(** Lines 45-60 of [lang_detector]: the ranking of one pass. *)
Definition detect_pass (text : string)
    (langdata : list (string * gmap string string)) (extensive : bool)
    : res (list (string * Q)) :=
  let tokens := prepare_text text in
  '(myresults, found) ← detect_langs tokens langdata extensive [] ∅;
  unk ← Py.truediv (Z.of_nat (length tokens) - Z.of_nat (size found))
                     (Z.of_nat (length tokens));
  let myresults := dict_set "unk" unk myresults in
  Ok (sorted_reverse (fun x y => Py.Qgtb (snd x) (snd y)) myresults).

(** [lang_detector]: a fast pass that ends in a tie between its two
    best entries is followed by one extensive pass. *)
Equations lang_detector (text : string)
    (langdata : list (string * gmap string string)) (extensive : bool)
    : res (list (string * Q))
    by wf (if extensive then 0 else 1)%nat lt :=
  lang_detector text langdata extensive
    with detect_pass text langdata extensive => {
    | Raise e := Raise e;
    | Ok results with bool_dec extensive false => {
        | right _ := Ok results;
        | left Hfast :=
            r0 ← Py.getitem results 0;
            r1 ← Py.getitem results 1;
            if Qeq_bool (snd r0) (snd r1)
            then lang_detector text langdata true
            else Ok results } }.

End Simplemma.

(** ** The other public functions of [simplemma.py] *)

Definition PUNCTUATION : gset string :=
  list_to_set ["."; "?"; "!"; "…"; "¿"; "¡"].

Section PublicApi.
Context {U : Py.Unicode}.

Variable apply_rules : string → string → option string.
Variable _load_pickle : string → gmap string string.

(** [simple_tokenizer(text, iterate=True)] of [tokenizer.py], which is
    not part of the sources at hand: the matched tokens ([match[0]]), in
    order. *)
Variable simple_tokenizer : string → list string.

(** The loop of [is_known] over the loaded tables. *)
Fixpoint is_known_loop (token : string) (langdata : list LangDict) : res bool :=
  match langdata with
  | [] => Ok false
  | language :: rest =>
      candidate ← _simple_search token (dict language) false;
      match candidate with
      | Some _ => Ok true
      | None => is_known_loop token rest
      end
  end.

(** [is_known], with the global [LANG_DATA] passed in and out. *)
Definition is_known (LANG_DATA : list LangDict) (token lang : pyval)
    : res bool * list LangDict :=
  match token with
  | PStr token =>
      match _update_lang_data _load_pickle LANG_DATA lang with
      | Raise e => (Raise e, LANG_DATA)
      | Ok (_, LANG_DATA) => (is_known_loop token LANG_DATA, LANG_DATA)
      end
  | _ => (Raise TypeError, LANG_DATA)
  end.

(** The loop of [text_lemmatizer] on [last] and [lemmata]. *)
Fixpoint text_lemmatizer_loop (LANG_DATA : list LangDict)
    (matches : list string) (lang : pyval) (greedy silent : bool)
    (last : string) (lemmata : list string)
    : res (list string) * list LangDict :=
  match matches with
  | [] => (Ok lemmata, LANG_DATA)
  | token :: rest =>
      match lemmatize apply_rules _load_pickle LANG_DATA (PStr token) lang
              greedy silent (bool_decide (last ∈ PUNCTUATION)) with
      | (Raise e, LANG_DATA) => (Raise e, LANG_DATA)
      | (Ok lemma, LANG_DATA) =>
          text_lemmatizer_loop LANG_DATA rest lang greedy silent token
            (lemmata ++ [lemma])
      end
  end.

Definition text_lemmatizer (LANG_DATA : list LangDict) (text : string)
    (lang : pyval) (greedy silent : bool) : res (list string) * list LangDict :=
  text_lemmatizer_loop LANG_DATA (simple_tokenizer text) lang greedy silent
    "." [].

(** The generator [lemma_iterator], consumed to its end: the values it
    yields, the exception that ends it if there is one, and the final
    [LANG_DATA]. *)
Fixpoint lemma_iterator_loop (LANG_DATA : list LangDict)
    (matches : list string) (lang : pyval) (greedy silent : bool)
    (last : string) : (list string * option exn) * list LangDict :=
  match matches with
  | [] => (([], None), LANG_DATA)
  | token :: rest =>
      let initial := bool_decide (last ∈ PUNCTUATION) in
      let last := token in
      match lemmatize apply_rules _load_pickle LANG_DATA (PStr token) lang
              greedy silent initial with
      | (Raise e, LANG_DATA) => (([], Some e), LANG_DATA)
      | (Ok lemma, LANG_DATA) =>
          let '((yielded, e), LANG_DATA) :=
            lemma_iterator_loop LANG_DATA rest lang greedy silent last in
          ((lemma :: yielded, e), LANG_DATA)
      end
  end.

Definition lemma_iterator (LANG_DATA : list LangDict) (text : string)
    (lang : pyval) (greedy silent : bool)
    : (list string * option exn) * list LangDict :=
  lemma_iterator_loop LANG_DATA (simple_tokenizer text) lang greedy silent ".".

End PublicApi.

(** ** Reading a word list: [_read_dict] *)

Definition SAFE_LIMIT : gset string :=
  list_to_set ["cs"; "da"; "el"; "en"; "es"; "fi"; "fr"; "ga"; "hu"; "it";
               "pl"; "pt"; "ru"; "sk"; "tr"].
Definition BUFFER_HACK : gset string :=
  list_to_set ["bg"; "es"; "et"; "fi"; "fr"; "it"; "lt"; "pl"; "sk"].

Module PyStr.

(** The leading whitespace is removed. *)
Fixpoint lstrip {U : Py.Unicode} (l : list ascii) : list ascii :=
  match l with
  | [] => []
  | c :: rest => if Py.isspace_char c then lstrip rest else l
  end.

(** [s.strip()] *)
Definition strip {U : Py.Unicode} (s : string) : string :=
  Py.str (reverse (lstrip (reverse (lstrip (Py.chars s))))).

(** [s.split(sep)] for a one-character separator *)
Definition split (sep : ascii) (s : string) : list string :=
  runs (fun c => negb (bool_decide (c = sep))) (Py.chars s) [].

(** [s.startswith(c)] for a one-character prefix *)
Definition startswith (c : ascii) (s : string) : bool :=
  match s with
  | EmptyString => false
  | String c' _ => bool_decide (c' = c)
  end.

End PyStr.

Definition is_blank (c : ascii) : bool := bool_decide (c = " "%char).

(** A run of characters other than the space, one space, and a
    character other than the space, at the head of [l]; [seen] tells
    that the run has begun. *)
Fixpoint word_space_word (l : list ascii) (seen : bool) : bool :=
  match l with
  | [] => false
  | c :: rest =>
      if is_blank c then
        seen && match rest with
                | d :: _ => negb (is_blank d)
                | [] => false
                end
      else word_space_word rest true
  end.

(** [[^ ]+ [^ ]+ [^ ]+] matches somewhere in [l]. *)
Fixpoint three_words (l : list ascii) : bool :=
  match l with
  | [] => false
  | a :: rest =>
      (negb (is_blank a)
       && match rest with
          | b :: rest' => is_blank b && word_space_word rest' false
          | [] => false
          end)
      || three_words rest
  end.

(** [re.search(r'[+_]|[^ ]+ [^ ]+ [^ ]+', line)] finds a match. *)
Definition noise_search (line : string) : bool :=
  contains "+" line || contains "_" line || three_words (Py.chars line).

(** The [else] branch of lines 100-107, on [mydict], [myadditions] and
    [i]. *)
Definition read_dict_insert (langcode : string) (c0 c1 : string)
    (st : gmap string string * list string * Z)
    : gmap string string * list string * Z :=
  let '(mydict, myadditions, i) := st in
  let mydict := <[c1 := c0]> mydict in
  if bool_decide (langcode ∈ BUFFER_HACK) then
    (mydict, myadditions ++ [c0], i + 1)
  else
    match mydict !! c0 with
    | None => (<[c0 := c0]> mydict, myadditions, i + 1)
    | Some _ => (mydict, myadditions, i + 1)
    end.

(** One round of the loop over the lines of the file. The calls of
    [LOGGER] leave the state as it is. *)
Definition read_dict_line {U : Py.Unicode}
    (langcode : string) (leftlimit : Z) (line : string)
    (st : gmap string string * list string * Z)
    : res (gmap string string * list string * Z) :=
  let '(mydict, myadditions, i) := st in
  match PyStr.split "009" (PyStr.strip line) with
  | [c0; c1] =>
      if (Py.len c0 <? leftlimit) || PyStr.startswith "-" line
         || noise_search line || contains ":" c1
      then Ok st
      else
        match mydict !! c1 with
        | Some old =>
            if negb (bool_decide (old = c0)) then
              dist1 ← _levenshtein_dist c1 old;
              dist2 ← _levenshtein_dist c1 c0;
              if (dist1 =? 0) || (dist2 <? dist1)
              then Ok (<[c1 := c0]> mydict, myadditions, i)
              else Ok st
            else Ok (read_dict_insert langcode c0 c1 st)
        | None => Ok (read_dict_insert langcode c0 c1 st)
        end
  | _ => Ok st
  end.

Fixpoint read_dict_lines {U : Py.Unicode} (langcode : string) (leftlimit : Z)
    (lines : list string) (st : gmap string string * list string * Z)
    : res (gmap string string * list string * Z) :=
  match lines with
  | [] => Ok st
  | line :: rest =>
      st ← read_dict_line langcode leftlimit line st;
      read_dict_lines langcode leftlimit rest st
  end.

(** The order of [sorted] on the items of a dictionary: by key, then by
    value. *)
Definition item_le (x y : string * string) : Prop :=
  if decide (fst x = fst y) then String.le (snd x) (snd y)
  else String.le (fst x) (fst y).

Global Instance item_le_dec : RelDecision item_le.
Proof. intros x y. unfold item_le. case_decide; apply _. Defined.

(** [_read_dict], on the lines of the file at [filepath]. The items of
    the dictionary it returns are listed in their order. *)
Definition _read_dict {U : Py.Unicode} (lines : list string) (langcode : string)
    : res (list (string * string)) :=
  let leftlimit := if bool_decide (langcode ∈ SAFE_LIMIT) then 1 else 2 in
  '(mydict, myadditions, i) ←
     read_dict_lines langcode leftlimit lines (∅, [], 0);
  let mydict := foldl (fun m word => <[word := word]> m) mydict myadditions in
  Ok (merge_sort item_le (map_to_list mydict)).

(** * The notions used in the statements *)

(** ** The Levenshtein distance, as a reference *)

Section EditDistance.
Context {A : Type} `{EqDecision A}.

(** One operation at unit cost: insert, delete or substitute one
    character. *)
Inductive edit1 : list A → list A → Prop :=
  | edit1_insert pre c post : edit1 (pre ++ post) (pre ++ c :: post)
  | edit1_delete pre c post : edit1 (pre ++ c :: post) (pre ++ post)
  | edit1_subst pre c c' post : edit1 (pre ++ c :: post) (pre ++ c' :: post).

(** [edits n s t]: [s] is transformed into [t] by [n] operations. *)
Inductive edits : nat → list A → list A → Prop :=
  | edits_nil s : edits 0 s s
  | edits_step n s t u : edit1 s t → edits n t u → edits (S n) s u.

(** [is_edit_distance d s t]: [d] is the least number of operations
    that transform [s] into [t]. *)
Definition is_edit_distance (d : nat) (s t : list A) : Prop :=
  edits d s t ∧ ∀ n, edits n s t → (d ≤ n)%nat.

Definition subst_cost (a b : A) : nat := if decide (a = b) then 0%nat else 1%nat.

Definition min3 (x y z : nat) : nat := Nat.min (Nat.min x y) z.

(** The textbook recursion. *)
Fixpoint lev (s t : list A) {struct s} : nat :=
  match s with
  | [] => length t
  | a :: s' =>
      (fix lev_row (t : list A) : nat :=
         match t with
         | [] => length s
         | b :: t' =>
             min3 (1 + lev s' t) (1 + lev_row t') (subst_cost a b + lev s' t')
         end) t
  end.

End EditDistance.

(** [row p s2]: the distances from the prefix [p] of the first string to
    every prefix of the second string. *)
Definition row (p s2 : list ascii) : list Z :=
  (fun j => Z.of_nat (lev p (take j s2))) <$> seq 0 (S (length s2)).

(** The guard of the loop: [next] is the entry of [c], strictly shorter
    than [c] and within [distance] of it. *)
Definition hop (datadict : gmap string string) (distance : Z)
    (c next : string) : Prop :=
  datadict !! c = Some next ∧ Py.len next < Py.len c ∧
  ∃ d, _levenshtein_dist next c = Ok d ∧ d ≤ distance.

(** [chain n c r]: [n] accepted hops lead from [c] to [r]. *)
Inductive chain (datadict : gmap string string) (distance : Z)
    : nat → string → string → Prop :=
  | chain_0 c : chain datadict distance 0 c c
  | chain_S n c next r :
      hop datadict distance c next →
      chain datadict distance n next r →
      chain datadict distance (S n) c r.

(** [raises_only E r]: if [r] is an exception, it is one of [E]. *)
Definition raises_only {A} (E : exn → Prop) (r : res A) : Prop :=
  ∀ e, r = Raise e → E e.

(** The exceptions of the lookup pipeline: an index out of range, or a
    local variable read before it is bound. *)
Definition lookup_exn (e : exn) : Prop := e = IndexError ∨ e = UnboundLocalError.

(** [returns r]: the call does not raise. *)
Definition returns {A} (r : res A) : Prop := ∃ a, r = Ok a.

(** The invariant of a table: no lemma is the empty string. *)
Definition nonempty_values (d : gmap string string) : Prop :=
  ∀ k v, d !! k = Some v → v ≠ EmptyString.

(** [has_run3 p l]: three consecutive characters of [l] satisfy [p]. *)
Definition has_run3 (p : ascii → bool) (l : list ascii) : Prop :=
  ∃ pre a b c post, l = pre ++ a :: b :: c :: post ∧ p a ∧ p b ∧ p c.

(** [has_alpha_run3 text]: [text] contains three consecutive characters
    that are alphabetic in the sense of [SPLIT_INPUT], that is, of the
    class [Py.re_letter]. *)
Definition has_alpha_run3 {U : Py.Unicode} (text : string) : Prop :=
  has_run3 Py.re_letter (Py.chars text).

(** [score_ge x y]: the score of [x] is at least the score of [y]. *)
Definition score_ge (x y : string * Q) : Prop := (snd y <= snd x)%Q.

(** The comparison that [detect_pass] sorts with. *)
Definition score_gt (x y : string * Q) : bool := Py.Qgtb (snd x) (snd y).

Section Statements.
Context {U : Py.Unicode}.
Variable apply_rules : string → string → option string.

(** No table of [langdata] yields a candidate for [token]: every call
    of [_return_lemma] returns [None]. *)
Definition no_candidate (langdata : list LangDict) (token : string)
    (greedy initial : bool) : Prop :=
  Forall
    (fun l => _return_lemma apply_rules token (dict l) greedy (code l) initial
              = Ok None)
    langdata.

(** The test of one token against one table, in either mode. *)
Definition detect_one (extensive : bool) (langcode : string)
    (langdict : gmap string string) (token : string) : res (option string) :=
  if negb extensive then _simple_search token langdict false
  else _return_lemma apply_rules token langdict true langcode false.

(** [hit]: the token is matched by the table. *)
Definition hit (extensive : bool) (langcode : string)
    (langdict : gmap string string) (token : string) : bool :=
  match detect_one extensive langcode langdict token with
  | Ok (Some _) => true
  | _ => false
  end.

(** [hit_any]: the token is matched by one configured language at least. *)
Definition hit_any (extensive : bool)
    (langdata : list (string * gmap string string)) (token : string) : bool :=
  existsb (fun language => hit extensive (fst language) (snd language) token)
          langdata.

(** The number of sampled tokens matched by one language at least. *)
Definition matched (extensive : bool)
    (langdata : list (string * gmap string string)) (tokens : list string) : nat :=
  length (filter (fun t => hit_any extensive langdata t) tokens).

(** Every table of the configuration satisfies the invariant. *)
Definition well_formed (langdata : list (string * gmap string string)) : Prop :=
  ∀ c d, (c, d) ∈ langdata → nonempty_values d.

(** What a ranking of [text] in the given mode satisfies. *)
Definition ranking_spec (extensive : bool) (text : string)
    (langdata : list (string * gmap string string))
    (results : list (string * Q)) : Prop :=
  let tokens := prepare_text text in
  (∀ c s, (c, s) ∈ results → (0 <= s <= 1)%Q) ∧
  (∀ c d, (c, d) ∈ langdata → ∃ s, (c, s) ∈ results) ∧
  (∃ unk, ("unk", unk) ∈ results ∧
          (∀ s, ("unk", s) ∈ results → s = unk) ∧
          (unk == 1 - inject_Z (Z.of_nat (matched extensive langdata tokens))
                      / inject_Z (Z.of_nat (length tokens)))%Q) ∧
  StronglySorted score_ge results.

End Statements.

(** ** Further notions *)

(** The only exception of the resolver proper. *)
Definition index_only (e : exn) : Prop := e = IndexError.

(** [LANG_DATA] holds, for each of its codes, the table stored for that
    code, and only supported codes. *)
Definition consistent (_load_pickle : string → gmap string string)
    (LANG_DATA : list LangDict) : Prop :=
  LANG_DATA = _load_data _load_pickle (code <$> LANG_DATA).

(** The spellings that [_simple_search] looks up for [token] without
    the sentence-initial flag: the token itself, then its lower-case
    form if it begins with an upper-case letter, and its capitalized
    form otherwise. *)
Definition case_variant {U : Py.Unicode} (token : string) : string :=
  match token with
  | EmptyString => EmptyString
  | String c _ =>
      if Py.isupper_char c then Py.lower token else Py.capitalize token
  end.

Definition known_in {U : Py.Unicode}
    (token : string) (d : gmap string string) : Prop :=
  is_Some (d !! token) ∨ is_Some (d !! case_variant token).

(** Each token with the sentence-initial flag that [text_lemmatizer]
    and [lemma_iterator] pass for it, [last] being the token before. *)
Fixpoint with_initial (last : string) (tokens : list string)
    : list (string * bool) :=
  match tokens with
  | [] => []
  | token :: rest =>
      (token, bool_decide (last ∈ PUNCTUATION)) :: with_initial token rest
  end.

(** [freq w words]: the number of occurrences of [w] in [words]. *)
Definition freq (w : string) (words : list string) : nat :=
  length (filter (fun x => x = w) words).

(** [occurs_in w text]: [w] is a substring of [text]. *)
Definition occurs_in (w text : string) : Prop :=
  ∃ pre post, Py.chars text = pre ++ Py.chars w ++ post.

(** A tokenizer for the closed examples: the words between blanks. *)
Definition sample_tokenizer (text : string) : list string :=
  filter (fun w => w ≠ EmptyString)
         (runs (fun c => negb (is_blank c)) (Py.chars text) []).



(** The right part of the split that [_decompose] looks up: the last
    [count] characters of [token], capitalized if [token] begins with
    an upper-case letter. *)
Definition right_part {U : Py.Unicode} (token : string) (count : Z) : string :=
  let part2 := Py.slice_from token (- count) in
  match token with
  | String c0 _ => if Py.isupper_char c0 then Py.capitalize part2 else part2
  | EmptyString => part2
  end.

(** [compound token d count r bound]: [r] is [token] without its last
    [count] characters, followed by the lower-case form of a string
    [w] of at most [bound] characters, which is a lemma of [d] or the
    right part of the split in lower case or capitalized. *)
Definition compound {U : Py.Unicode} (token : string)
    (d : gmap string string) (count : Z) (r : string) (bound : Z) : Prop :=
  ∃ w, ((∃ k, d !! k = Some w)
        ∨ w = Py.lower (right_part token count)
        ∨ w = Py.capitalize (right_part token count)) ∧
       Py.len w ≤ bound ∧
       r = Py.slice_to token (- count) +:+ Py.lower w.

(** [decomposed token d affixlen count c p]: what [_decompose] returns
    as [(c, p)] when it stops at the split that leaves [count]
    characters on the right. The length of what replaces the right
    part is bounded by the length of the right part. *)
Definition decomposed {U : Py.Unicode} (token : string)
    (d : gmap string string) (affixlen count : Z) (c p : option string)
    : Prop :=
  ∃ head,
    _simple_search (Py.slice_to token (- count)) d false = Ok (Some head) ∧
    ((count ≤ affixlen ∧ c = Some head ∧ p = None)
     ∨ (affixlen < count ∧ p = None ∧
        ∃ r, c = Some r ∧
             compound token d count r (Py.len (right_part token count)))
     ∨ (affixlen < count ∧ c = None ∧
        ∃ r, p = Some r ∧
             compound token d count r
               (Py.len (right_part token count) + affixlen - 1))
     ∨ (affixlen < count ∧ c = None ∧ p = None)).

(** [counter[k]]: the count of [k], which is 0 for a missing key. *)
Fixpoint counter_getitem (k : string) (counter : list (string * Z)) : Z :=
  match counter with
  | [] => 0
  | (k', n) :: rest => if decide (k' = k) then n else counter_getitem k rest
  end.

(** The number of pairs of a token and a configured language such that
    the extensive test of the token against the language succeeds. *)
Definition hit_count {U : Py.Unicode}
    (apply_rules : string → string → option string)
    (langdata : list (string * gmap string string)) (tokens : list string)
    : nat :=
  sum_list
    ((fun t => length (filter (fun l => hit apply_rules true (fst l) (snd l) t)
                         langdata)) <$> tokens).

(** The share of [tokens] that the table [d] of the language [c]
    matches, in the given mode. *)
Definition lang_score {U : Py.Unicode}
    (apply_rules : string → string → option string)
    (extensive : bool) (tokens : list string) (c : string)
    (d : gmap string string) : Q :=
  (inject_Z (Z.of_nat (length (filter (fun t => hit apply_rules extensive c d t)
                                 tokens)))
   / inject_Z (Z.of_nat (length tokens)))%Q.

(** Sample data for the closed examples. The examples are written in
    ASCII, and the sample instance of [Py.Unicode] is the Unicode
    database on that range: the letters are [A-Z] and [a-z], the
    numeric characters are [0-9], and the whitespace characters are
    those of codes 9 to 13 and 28 to 32. *)
Module Sample.

Definition isupper_char (c : ascii) : bool :=
  (65 <=? nat_of_ascii c)%nat && (nat_of_ascii c <=? 90)%nat.
Definition islower_char (c : ascii) : bool :=
  (97 <=? nat_of_ascii c)%nat && (nat_of_ascii c <=? 122)%nat.
Definition isdigit_char (c : ascii) : bool :=
  (48 <=? nat_of_ascii c)%nat && (nat_of_ascii c <=? 57)%nat.
Definition isalpha_char (c : ascii) : bool :=
  isupper_char c || islower_char c.
Definition isspace_char (c : ascii) : bool :=
  ((9 <=? nat_of_ascii c)%nat && (nat_of_ascii c <=? 13)%nat)
  || ((28 <=? nat_of_ascii c)%nat && (nat_of_ascii c <=? 32)%nat).

Definition lower_char (c : ascii) : ascii :=
  if isupper_char c then ascii_of_nat (nat_of_ascii c + 32) else c.
Definition upper_char (c : ascii) : ascii :=
  if islower_char c then ascii_of_nat (nat_of_ascii c - 32) else c.

Fixpoint lower (s : string) : string :=
  match s with
  | EmptyString => EmptyString
  | String c s' => String (lower_char c) (lower s')
  end.

Definition capitalize (s : string) : string :=
  match s with
  | EmptyString => EmptyString
  | String c s' => String (upper_char c) (lower s')
  end.

End Sample.

Global Instance sample_unicode : Py.Unicode.
Proof.
  refine {| Py.lower := Sample.lower;
            Py.capitalize := Sample.capitalize;
            Py.isupper_char := Sample.isupper_char;
            Py.isnumeric_char := Sample.isdigit_char;
            Py.re_letter := Sample.isalpha_char;
            Py.isspace_char := Sample.isspace_char |}.
  - reflexivity.
  - intros s Hs. destruct s; [done|discriminate].
  - intros s Hs. destruct s; [done|discriminate].
  - reflexivity.
Defined.

(** No rule applies, and the tables of English, Spanish and German
    hold a few entries. *)
Definition no_rules : string → string → option string := fun _ _ => None.

Definition sample_tables (lang : string) : gmap string string :=
  if decide (lang = "en") then
    list_to_map [("cats", "cat"); ("running", "run");
                 ("e-mails", "e-mail"); ("email", "email")]
  else if decide (lang = "es") then list_to_map [("gatos", "gato")]
  else if decide (lang = "de") then list_to_map [("Katzen", "Katze")]
  else ∅.

(** * Properties *)

(** ** Results and the edit distance *)

Lemma res_bind_ok {A B} (f : A → res B) (a : A) : (Ok a ≫= f) = f a.
Proof. reflexivity. Qed.

Lemma res_bind_ok_inv {A B} (f : A → res B) (m : res A) (b : B) :
  m ≫= f = Ok b → ∃ a, m = Ok a ∧ f a = Ok b.
Proof. destruct m as [a|e]; [eauto | discriminate]. Qed.

Example lev_kitten : _levenshtein_dist "kitten" "sitting" = Ok 3.
Proof. vm_compute. reflexivity. Qed.

(** ** The reference distance *)

Section Levenshtein.
Context {A : Type} `{EqDecision A}.
Implicit Types (s t u p q pre post : list A).

Lemma lev_nil_l t : lev [] t = length t.
Proof. reflexivity. Qed.

Lemma lev_nil_r s : lev s [] = length s.
Proof. destruct s; reflexivity. Qed.

Lemma lev_cons_cons a b s t :
  lev (a :: s) (b :: t) =
  min3 (1 + lev s (b :: t)) (1 + lev (a :: s) t) (subst_cost a b + lev s t).
Proof. reflexivity. Qed.

Lemma subst_cost_sym (a b : A) : subst_cost a b = subst_cost b a.
Proof. unfold subst_cost. repeat case_decide; congruence. Qed.

Lemma subst_cost_triangle (a b c : A) :
  (subst_cost a c ≤ subst_cost a b + subst_cost b c)%nat.
Proof. unfold subst_cost. repeat case_decide; try lia; congruence. Qed.

Lemma lev_sym s t : lev s t = lev t s.
Proof.
  revert t. induction s as [|a s IHs]; intros t.
  - by rewrite lev_nil_l, lev_nil_r.
  - induction t as [|b t IHt].
    + by rewrite lev_nil_l, lev_nil_r.
    + rewrite !lev_cons_cons, IHt, (IHs (b :: t)), (IHs t), (subst_cost_sym a b).
      unfold min3. lia.
Qed.

Lemma lev_refl s : lev s s = 0%nat.
Proof.
  induction s as [|a s IH]; [done|].
  rewrite lev_cons_cons, IH. unfold subst_cost, min3.
  rewrite decide_True by done. lia.
Qed.

Lemma lev_length_diff s t :
  (length s ≤ length t + lev s t ∧ length t ≤ length s + lev s t)%nat.
Proof.
  revert t. induction s as [|a s IHs]; intros t.
  - rewrite lev_nil_l. simpl. lia.
  - induction t as [|b t IHt].
    + rewrite lev_nil_r. simpl. lia.
    + rewrite lev_cons_cons. unfold min3.
      pose proof (IHs (b :: t)). pose proof (IHs t). cbn [length] in *. lia.
Qed.

Lemma lev_zero_eq s t : lev s t = 0%nat → s = t.
Proof.
  revert t. induction s as [|a s IHs]; intros [|b t].
  - done.
  - rewrite lev_nil_l. discriminate.
  - rewrite lev_nil_r. discriminate.
  - rewrite lev_cons_cons. unfold min3, subst_cost. intros Hz.
    case_decide as Hab; [|lia].
    subst b. f_equal. apply IHs. lia.
Qed.

Lemma lev_triangle_aux n : ∀ a b c : list A,
  (length a + length b + length c < n)%nat →
  (lev a c ≤ lev a b + lev b c)%nat.
Proof.
  induction n as [|n IH]; intros a b c Hn; [lia|].
  destruct a as [|x a'].
  { rewrite !lev_nil_l. pose proof (lev_length_diff b c). lia. }
  destruct c as [|z c'].
  { rewrite !lev_nil_r. pose proof (lev_length_diff (x :: a') b). lia. }
  destruct b as [|y b'].
  { rewrite lev_nil_l, lev_nil_r.
    assert (∀ s t : list A, (lev s t ≤ length s + length t)%nat) as Hub.
    { clear. intros s. induction s as [|a s IHs]; intros t.
      - rewrite lev_nil_l. lia.
      - destruct t as [|b t]; [rewrite lev_nil_r; lia|].
        rewrite lev_cons_cons. unfold min3.
        pose proof (IHs (b :: t)). cbn [length] in *. lia. }
    apply Hub. }
  cbn [length] in Hn.
  pose proof (IH a' (y :: b') (z :: c') ltac:(cbn [length]; lia)) as H1.
  pose proof (IH (x :: a') (y :: b') c' ltac:(cbn [length]; lia)) as H2.
  pose proof (IH (x :: a') b' (z :: c') ltac:(cbn [length]; lia)) as H3.
  pose proof (IH (x :: a') b' c' ltac:(cbn [length]; lia)) as H4.
  pose proof (IH a' b' (z :: c') ltac:(cbn [length]; lia)) as H5.
  pose proof (IH a' b' c' ltac:(cbn [length]; lia)) as H6.
  pose proof (subst_cost_triangle x y z) as H7.
  pose proof (lev_cons_cons x z a' c') as Eac.
  pose proof (lev_cons_cons x y a' b') as Eab.
  pose proof (lev_cons_cons y z b' c') as Ebc.
  unfold min3 in *. lia.
Qed.

Lemma lev_triangle (a b c : list A) : (lev a c ≤ lev a b + lev b c)%nat.
Proof. eapply lev_triangle_aux. constructor. Qed.

(** *** The recursion computes the least number of operations *)

Lemma lev_app_prefix pre s t : (lev (pre ++ s) (pre ++ t) ≤ lev s t)%nat.
Proof.
  induction pre as [|x pre IH]; [done|].
  simpl app. rewrite lev_cons_cons. unfold min3, subst_cost.
  rewrite decide_True by done. lia.
Qed.

Lemma lev_cons_le (c : A) s : (lev (c :: s) s ≤ 1)%nat.
Proof.
  destruct s as [|x s]; [done|].
  rewrite lev_cons_cons, lev_refl. unfold min3. lia.
Qed.

Lemma lev_edit1 s t : edit1 s t → (lev s t ≤ 1)%nat.
Proof.
  intros [pre c post|pre c post|pre c c' post];
    (etrans; [apply lev_app_prefix|]).
  - rewrite lev_sym. apply lev_cons_le.
  - apply lev_cons_le.
  - rewrite lev_cons_cons, lev_refl. unfold min3, subst_cost.
    case_decide; lia.
Qed.

Lemma edits_lev_le n s t : edits n s t → (lev s t ≤ n)%nat.
Proof.
  induction 1 as [s|n s t u Hst _ IH].
  - by rewrite lev_refl.
  - pose proof (lev_triangle s t u). pose proof (lev_edit1 _ _ Hst). lia.
Qed.

Lemma edit1_cons a s t : edit1 s t → edit1 (a :: s) (a :: t).
Proof.
  intros [pre c post|pre c post|pre c c' post].
  - apply (edit1_insert (a :: pre)).
  - apply (edit1_delete (a :: pre)).
  - apply (edit1_subst (a :: pre)).
Qed.

Lemma edits_cons a n s t : edits n s t → edits n (a :: s) (a :: t).
Proof.
  induction 1; econstructor; eauto using edit1_cons.
Qed.

Lemma edits_snoc n s t u : edits n s t → edit1 t u → edits (S n) s u.
Proof.
  induction 1 as [s|n s t' t Hst _ IH]; intros Htu.
  - econstructor; [done|constructor].
  - econstructor; [done|]. by apply IH.
Qed.

Lemma edits_insert_all t : edits (length t) [] t.
Proof.
  induction t as [|b t IH] using rev_ind; [constructor|].
  rewrite length_app, Nat.add_comm. simpl.
  eapply edits_snoc; [done|].
  rewrite <-(app_nil_r t) at 1. apply edit1_insert.
Qed.

Lemma edits_delete_all s : edits (length s) s [].
Proof.
  induction s as [|a s IH]; [constructor|].
  simpl. econstructor; [|done]. apply (edit1_delete []).
Qed.

Lemma lev_edits s t : edits (lev s t) s t.
Proof.
  revert t. induction s as [|a s IHs]; intros t.
  - rewrite lev_nil_l. apply edits_insert_all.
  - induction t as [|b t IHt].
    + rewrite lev_nil_r. apply edits_delete_all.
    + rewrite lev_cons_cons. unfold min3.
      destruct (Nat.min_spec (Nat.min (1 + lev s (b :: t)) (1 + lev (a :: s) t))
                  (subst_cost a b + lev s t)) as [[_ ->]|[_ ->]].
      * destruct (Nat.min_spec (1 + lev s (b :: t)) (1 + lev (a :: s) t))
          as [[_ ->]|[_ ->]].
        -- econstructor; [apply (edit1_delete [])|]. apply IHs.
        -- eapply edits_snoc; [apply IHt|]. apply (edit1_insert []).
      * unfold subst_cost. case_decide as Hab.
        -- subst b. apply edits_cons, IHs.
        -- econstructor; [apply (edit1_subst [] a b)|]. apply edits_cons, IHs.
Qed.

Lemma lev_is_edit_distance s t : is_edit_distance (lev s t) s t.
Proof. split; [apply lev_edits | intros n; apply edits_lev_le]. Qed.

Lemma is_edit_distance_unique d s t :
  is_edit_distance d s t → d = lev s t.
Proof.
  intros [Hd Hmin]. pose proof (edits_lev_le _ _ _ Hd).
  pose proof (Hmin _ (lev_edits s t)). lia.
Qed.

(** *** Reading both strings from the other end *)

Lemma edit1_reverse s t : edit1 s t → edit1 (reverse s) (reverse t).
Proof.
  assert (∀ (pre post : list A) c,
            reverse (pre ++ c :: post) = reverse post ++ c :: reverse pre) as Hr.
  { intros pre post c. by rewrite reverse_app, reverse_cons, <-(assoc_L (++)). }
  intros [pre c post|pre c post|pre c c' post]; rewrite ?Hr, ?reverse_app.
  - apply edit1_insert.
  - apply edit1_delete.
  - apply edit1_subst.
Qed.

Lemma edits_reverse n s t : edits n s t → edits n (reverse s) (reverse t).
Proof. induction 1; econstructor; eauto using edit1_reverse. Qed.

Lemma lev_reverse s t : lev (reverse s) (reverse t) = lev s t.
Proof.
  assert (∀ s t : list A, (lev (reverse s) (reverse t) ≤ lev s t)%nat) as Hle.
  { intros s' t'. apply edits_lev_le, edits_reverse, lev_edits. }
  pose proof (Hle s t). pose proof (Hle (reverse s) (reverse t)) as H2.
  rewrite !reverse_involutive in H2. lia.
Qed.

Lemma lev_cons_same a s t : lev (a :: s) (a :: t) = lev s t.
Proof.
  rewrite lev_cons_cons. unfold min3, subst_cost.
  rewrite decide_True by done.
  pose proof (lev_triangle s (a :: t) t).
  pose proof (lev_cons_le a t).
  pose proof (lev_triangle s (a :: s) t).
  pose proof (lev_cons_le a s). rewrite (lev_sym (a :: s) s) in *.
  lia.
Qed.

Lemma lev_snoc_nil_r p a : lev (p ++ [a]) [] = S (length p).
Proof. rewrite lev_nil_r, length_app. simpl. lia. Qed.

Lemma lev_snoc_same p q a : lev (p ++ [a]) (q ++ [a]) = lev p q.
Proof.
  rewrite <-lev_reverse, !reverse_snoc.
  by rewrite lev_cons_same, lev_reverse.
Qed.

Lemma lev_snoc_diff p q a b :
  a ≠ b →
  lev (p ++ [a]) (q ++ [b]) =
  S (min3 (lev (p ++ [a]) q) (lev p q) (lev p (q ++ [b]))).
Proof.
  intros Hab.
  rewrite <-(lev_reverse (p ++ [a]) (q ++ [b])), !reverse_snoc.
  rewrite lev_cons_cons, <-!reverse_snoc, !lev_reverse.
  unfold min3, subst_cost. rewrite decide_False by done. lia.
Qed.

End Levenshtein.

(** ** The two-row computation is the Levenshtein distance *)

Lemma row_length p s2 : length (row p s2) = S (length s2).
Proof. unfold row. by rewrite length_fmap, length_seq. Qed.

Lemma row_lookup p s2 k :
  (k ≤ length s2)%nat →
  row p s2 !! k = Some (Z.of_nat (lev p (take k s2))).
Proof.
  intros Hk. unfold row. rewrite list_lookup_fmap, lookup_seq_lt by lia.
  reflexivity.
Qed.

Lemma min3_step_spec (a1 a2 a3 : nat) :
  min3_step (Z.of_nat a1) (Z.of_nat a2) (Z.of_nat a3) =
  Z.of_nat (S (min3 a1 a2 a3)).
Proof.
  unfold min3_step, min3.
  repeat match goal with |- context [(?x >? ?y)] =>
    destruct (Z.gtb_spec x y) end; lia.
Qed.

Lemma getitem_lookup {A} (l : list A) j x : l !! j = Some x → Py.getitem l j = Ok x.
Proof. unfold Py.getitem. by intros ->. Qed.

Lemma setitem_lt {A} (l : list A) j v :
  (j < length l)%nat → Py.setitem l j v = Ok (<[j:=v]> l).
Proof. intros Hj. unfold Py.setitem. by rewrite decide_True. Qed.

Lemma take_snoc_lookup {A} (done todo : list A) c :
  take (length done + 1) (done ++ c :: todo) = done ++ [c].
Proof.
  rewrite (cons_middle c done todo), (assoc_L (++)).
  apply take_app_length'. rewrite length_app. simpl. lia.
Qed.

Lemma lev_inner_spec p c1 s2 : ∀ todo done r2,
  s2 = done ++ todo →
  length r2 = S (length s2) →
  (∀ k, (k ≤ length done)%nat →
        r2 !! k = Some (Z.of_nat (lev (p ++ [c1]) (take k s2)))) →
  lev_inner c1 todo (row p s2) r2 (length done) = Ok (row (p ++ [c1]) s2).
Proof.
  induction todo as [|c2 rest IH]; intros done r2 Hs2 Hlen Hinv.
  - simpl. f_equal. rewrite app_nil_r in Hs2. subst done.
    apply (list_eq_same_length _ _ (S (length s2))); [by rewrite row_length|done|].
    intros k x y Hk Hx Hy.
    rewrite Hinv in Hx by lia. rewrite row_lookup in Hy by lia. congruence.
  - assert (length s2 = length done + S (length rest))%nat as Hn.
    { subst s2. rewrite length_app. simpl. lia. }
    assert (take (length done) s2 = done) as Htk.
    { subst s2. apply take_app_length. }
    assert (take (length done + 1) s2 = done ++ [c2]) as Htk1.
    { subst s2. apply take_snoc_lookup. }
    pose proof (row_lookup p s2 (length done) ltac:(lia)) as Hr1j.
    pose proof (row_lookup p s2 (length done + 1) ltac:(lia)) as Hr1j1.
    pose proof (Hinv (length done) ltac:(lia)) as Hr2j.
    rewrite Htk in Hr1j, Hr2j. rewrite Htk1 in Hr1j1.
    cbn [lev_inner].
    assert (∃ v, (if decide (c1 = c2)
                  then v ← Py.getitem (row p s2) (length done);
                       Py.setitem r2 (length done + 1) v
                  else a1 ← Py.getitem r2 (length done);
                       a2 ← Py.getitem (row p s2) (length done);
                       a3 ← Py.getitem (row p s2) (length done + 1);
                       Py.setitem r2 (length done + 1) (min3_step a1 a2 a3))
                 = Ok (<[(length done + 1)%nat := v]> r2) ∧
                v = Z.of_nat (lev (p ++ [c1]) (done ++ [c2]))) as (v & -> & Hv).
    { case_decide as Hc.
      - subst c2. rewrite (getitem_lookup _ _ _ Hr1j), res_bind_ok.
        rewrite setitem_lt by lia. eexists; split; [done|].
        by rewrite lev_snoc_same.
      - rewrite (getitem_lookup _ _ _ Hr2j), res_bind_ok.
        rewrite (getitem_lookup _ _ _ Hr1j), res_bind_ok.
        rewrite (getitem_lookup _ _ _ Hr1j1), res_bind_ok.
        rewrite setitem_lt by lia. eexists; split; [done|].
        by rewrite min3_step_spec, lev_snoc_diff. }
    rewrite res_bind_ok.
    replace (length done + 1)%nat with (length (done ++ [c2]))
      by (rewrite length_app; simpl; lia).
    apply IH.
    + by rewrite <-(assoc_L (++)).
    + by rewrite length_insert.
    + intros k Hk. rewrite length_app in Hk. simpl in Hk.
      destruct (decide (k = length (done ++ [c2]))) as [->|Hne].
      * rewrite list_lookup_insert_eq by (rewrite length_app; simpl; lia).
        rewrite Hv. do 3 f_equal.
        rewrite length_app. simpl. by rewrite Htk1.
      * rewrite list_lookup_insert_ne by done.
        apply Hinv. rewrite length_app in Hne. simpl in Hne. lia.
Qed.

Lemma lev_outer_spec s2 : ∀ str1 p r2,
  length r2 = S (length s2) →
  lev_outer str1 s2 (row p s2) r2 (Z.of_nat (length p)) =
  Ok (row (p ++ str1) s2).
Proof.
  induction str1 as [|c1 rest IH]; intros p r2 Hlen.
  - by rewrite app_nil_r.
  - cbn [lev_outer]. rewrite setitem_lt, res_bind_ok by lia.
    rewrite (lev_inner_spec p c1 s2 s2 [] _ eq_refl).
    + rewrite res_bind_ok.
      replace (Z.of_nat (length p) + 1) with (Z.of_nat (length (p ++ [c1])))
        by (rewrite length_app; simpl; lia).
      rewrite IH by apply row_length.
      by rewrite <-(assoc_L (++)).
    + by rewrite length_insert.
    + intros k Hk. simpl in Hk. assert (k = 0)%nat as -> by lia.
      rewrite list_lookup_insert_eq by lia.
      rewrite take_0, lev_snoc_nil_r. f_equal. lia.
Qed.

Lemma range_row s2 :
  Py.range 0 (Z.of_nat (length s2) + 1) = row [] s2.
Proof.
  unfold Py.range, row.
  replace (Z.to_nat (Z.of_nat (length s2) + 1 - 0)) with (S (length s2)) by lia.
  apply list_eq. intros k. rewrite !list_lookup_fmap.
  destruct (decide (k < S (length s2))%nat) as [Hk|Hk].
  - rewrite lookup_seq_lt by done. simpl.
    rewrite length_take. f_equal. lia.
  - by rewrite lookup_seq_ge by lia.
Qed.

Lemma len_chars s : Py.len s = Z.of_nat (length (Py.chars s)).
Proof.
  unfold Py.len, Py.chars. f_equal.
  induction s as [|c s IH]; simpl; [done|by rewrite IH].
Qed.

Lemma getlast_row p s2 : Py.getlast (row p s2) = Ok (Z.of_nat (lev p s2)).
Proof.
  unfold Py.getlast. rewrite last_lookup, row_length. simpl.
  rewrite row_lookup by lia. by rewrite take_ge by lia.
Qed.

(** The code returns, and returns the reference distance. *)
Lemma _levenshtein_dist_lev str1 str2 :
  _levenshtein_dist str1 str2 =
  Ok (Z.of_nat (lev (Py.chars str1) (Py.chars str2))).
Proof.
  unfold _levenshtein_dist. case_decide as Heq.
  { subst. by rewrite lev_refl. }
  assert (∀ a b, (r ← lev_outer (Py.chars a) (Py.chars b)
                       (Py.range 0 (Py.len b + 1))
                       (replicate (length (Py.range 0 (Py.len b + 1))) 0) 0;
                  Py.getlast r) = Ok (Z.of_nat (lev (Py.chars a) (Py.chars b))))
    as Hrun.
  { intros a b. rewrite len_chars, range_row.
    rewrite (lev_outer_spec (Py.chars b) (Py.chars a) [] _)
      by (by rewrite length_replicate, row_length).
    rewrite res_bind_ok. simpl. apply getlast_row. }
  destruct (Py.len str1 >? Py.len str2).
  - rewrite Hrun. by rewrite lev_sym.
  - apply Hrun.
Qed.

(** ** The edit distance *)

Lemma chars_inj a b : Py.chars a = Py.chars b → a = b.
Proof.
  intros Hab. unfold Py.chars in Hab.
  rewrite <-(string_of_list_ascii_of_string a), Hab.
  apply string_of_list_ascii_of_string.
Qed.

(** C4. [_levenshtein_dist] returns a non-negative integer on every pair
    of strings; it is symmetric, it is zero exactly on equal strings, it
    satisfies the triangle inequality, and its value is the least number
    of single-character insertions, deletions and substitutions that
    turn the first string into the second. *)
Theorem levenshtein_dist_metric :
  (∀ a b, ∃ d, _levenshtein_dist a b = Ok d ∧ 0 ≤ d) ∧
  (∀ a b, _levenshtein_dist a b = _levenshtein_dist b a) ∧
  (∀ a b, _levenshtein_dist a b = Ok 0 ↔ a = b) ∧
  (∀ a b c, ∃ dab dbc dac,
      _levenshtein_dist a b = Ok dab ∧ _levenshtein_dist b c = Ok dbc ∧
      _levenshtein_dist a c = Ok dac ∧ dac ≤ dab + dbc) ∧
  (∀ a b, ∃ d : nat,
      _levenshtein_dist a b = Ok (Z.of_nat d) ∧
      is_edit_distance d (Py.chars a) (Py.chars b)).
Proof.
  split_and!.
  - intros a b. rewrite _levenshtein_dist_lev. eexists. split; [done|lia].
  - intros a b. rewrite !_levenshtein_dist_lev. f_equal. f_equal. apply lev_sym.
  - intros a b. rewrite _levenshtein_dist_lev. split.
    + intros [= Hz]. apply chars_inj, lev_zero_eq. lia.
    + intros ->. by rewrite lev_refl.
  - intros a b c. rewrite !_levenshtein_dist_lev.
    do 3 eexists. split_and!; [done..|].
    pose proof (lev_triangle (Py.chars a) (Py.chars b) (Py.chars c)). lia.
  - intros a b. rewrite _levenshtein_dist_lev. eexists. split; [done|].
    apply lev_is_edit_distance.
Qed.

(** ** Following chains *)

Lemma greedy_loop_eq datadict steps distance candidate i :
  greedy_loop datadict steps distance candidate i =
  match datadict !! candidate with
  | None => Ok (candidate, i)
  | Some next =>
      if decide (Py.len next < Py.len candidate) then
        d ← _levenshtein_dist next candidate;
        if d <=? distance then
          if i + 1 >=? steps then Ok (next, i + 1)
          else greedy_loop datadict steps distance next (i + 1)
        else Ok (candidate, i)
      else Ok (candidate, i)
  end.
Proof.
  simp greedy_loop.
  destruct (datadict !! candidate) as [next|]; simpl; [|done].
  destruct (decide (Py.len next < Py.len candidate)); simpl; done.
Qed.

Lemma chain_shorter datadict distance n c r :
  chain datadict distance n c r → n ≠ 0%nat → Py.len r < Py.len c.
Proof.
  induction 1 as [c|n c next r (_ & Hlt & _) Hch IH]; [done|].
  intros _. destruct n as [|n].
  - inversion Hch; by subst.
  - specialize (IH ltac:(done)). lia.
Qed.

Lemma greedy_loop_spec datadict steps distance (m : nat) :
  ∀ c i, (String.length c < m)%nat →
  ∃ r (n : nat),
    greedy_loop datadict steps distance c i = Ok (r, i + Z.of_nat n) ∧
    chain datadict distance n c r ∧
    Z.of_nat n ≤ Z.max (steps - i) 1 ∧
    (i + Z.of_nat n < steps → ¬ ∃ next, hop datadict distance r next).
Proof.
  induction m as [|m IH]; intros c i Hm; [lia|].
  rewrite greedy_loop_eq.
  assert (Ok (c, i) = Ok (c, i + Z.of_nat 0)) as Hi0 by (f_equal; f_equal; lia).
  destruct (datadict !! c) as [next|] eqn:Hget.
  2: { exists c, 0%nat. split_and!; [done|constructor|lia|].
       intros _ (next & Hnext & _). congruence. }
  destruct (decide (Py.len next < Py.len c)) as [Hlt|Hge].
  2: { exists c, 0%nat. split_and!; [done|constructor|lia|].
       intros _ (next' & Hnext & Hlt' & _). congruence. }
  rewrite _levenshtein_dist_lev, res_bind_ok.
  destruct (Z.leb_spec (Z.of_nat (lev (Py.chars next) (Py.chars c))) distance)
    as [Hd|Hd].
  2: { exists c, 0%nat. split_and!; [done|constructor|lia|].
       intros _ (next' & Hnext & _ & d & Hdist & Hle).
       rewrite Hget in Hnext. injection Hnext as <-.
       rewrite _levenshtein_dist_lev in Hdist. injection Hdist as <-. lia. }
  assert (hop datadict distance c next) as Hhop.
  { split_and!; [done..|]. eexists. by rewrite _levenshtein_dist_lev. }
  destruct (Z.geb_spec (i + 1) steps) as [Hstop|Hgo].
  - exists next, 1%nat. split_and!.
    + done.
    + econstructor; [done|constructor].
    + lia.
    + lia.
  - destruct (IH next (i + 1)) as (r & n & Hrun & Hch & Hn & Hmax).
    { unfold Py.len in Hlt. lia. }
    exists r, (S n). split_and!.
    + rewrite Hrun. do 2 f_equal. lia.
    + by econstructor.
    + lia.
    + intros Hlt'. apply Hmax. lia.
Qed.

Lemma _greedy_search_ok candidate datadict steps distance :
  ∃ result, _greedy_search candidate datadict steps distance = Ok result.
Proof.
  destruct (greedy_loop_spec datadict steps distance (S (String.length candidate))
              candidate 0 ltac:(lia)) as (r & n & Hrun & _).
  exists r. unfold _greedy_search. by rewrite Hrun.
Qed.

(** The claim of C3 fails for [steps = 0]: one hop is made before the
    counter is compared with [steps]. *)
Lemma greedy_search_steps_zero :
  greedy_loop {[ "ab" := "a" ]} 0 5 "ab" 0 = Ok ("a", 1) ∧
  _greedy_search "ab" {[ "ab" := "a" ]} 0 5 = Ok "a" ∧
  ¬ (1 ≤ 0).
Proof. split_and!; [by vm_compute..|lia]. Qed.

(** C3, amended. [_greedy_search] returns; it makes at most [steps] hops
    when [steps] is at least 1, and one hop at most otherwise. Every hop
    goes from the current candidate to its entry in the table, which is
    strictly shorter and within [distance] of it; so the result is the
    input when no hop is made and strictly shorter than the input
    otherwise. When fewer than [steps] hops are made, the result has no
    acceptable successor. *)
Theorem greedy_search_hops candidate datadict steps distance :
  ∃ result (hops : nat),
    greedy_loop datadict steps distance candidate 0 = Ok (result, Z.of_nat hops) ∧
    _greedy_search candidate datadict steps distance = Ok result ∧
    Z.of_nat hops ≤ Z.max steps 1 ∧
    chain datadict distance hops candidate result ∧
    (hops = 0%nat → result = candidate) ∧
    (hops ≠ 0%nat → Py.len result < Py.len candidate) ∧
    (Z.of_nat hops < steps → ¬ ∃ next, hop datadict distance result next).
Proof.
  destruct (greedy_loop_spec datadict steps distance (S (String.length candidate))
              candidate 0 ltac:(lia)) as (r & n & Hrun & Hch & Hn & Hmax).
  exists r, n. simpl in Hrun. split_and!.
  - done.
  - unfold _greedy_search. by rewrite Hrun.
  - lia.
  - done.
  - intros ->. by inversion Hch.
  - by apply (chain_shorter datadict distance).
  - intros ?. apply Hmax. lia.
Qed.


(** ** Which exceptions the resolver raises *)

Section RaisesOnly.
Context (E : exn → Prop).

Lemma ro_ok {A} (a : A) : raises_only E (Ok a).
Proof. intros e. discriminate. Qed.

Lemma ro_raise {A} e : E e → raises_only E (@Raise A e).
Proof. intros He e' [= <-]. done. Qed.

Lemma ro_bind {A B} (m : res A) (f : A → res B) :
  raises_only E m → (∀ a, raises_only E (f a)) → raises_only E (m ≫= f).
Proof.
  intros Hm Hf. destruct m as [a|e]; simpl; [apply Hf|].
  intros e' [= <-]. by apply Hm.
Qed.
End RaisesOnly.

Create HintDb raises discriminated.

Ltac raises_step :=
  first
    [ apply ro_ok
    | apply ro_raise; unfold lookup_exn; tauto
    | solve [eauto with raises]
    | apply ro_bind; [|intros ?]
    | match goal with
      | |- raises_only _ (if ?b then _ else _) => destruct b
      | |- raises_only _ (match ?x with _ => _ end) => destruct x
      | |- raises_only _ (let '(_, _) := ?x in _) => destruct x
      end ].

Ltac raises := repeat raises_step.

Lemma first_raises s : raises_only lookup_exn (Py.first s).
Proof. unfold Py.first. raises. Qed.

Lemma getitem_raises {A} (l : list A) j : raises_only lookup_exn (Py.getitem l j).
Proof. unfold Py.getitem. raises. Qed.

Lemma setitem_raises {A} (l : list A) j v : raises_only lookup_exn (Py.setitem l j v).
Proof. unfold Py.setitem. raises. Qed.

Lemma getlast_raises {A} (l : list A) : raises_only lookup_exn (Py.getlast l).
Proof. unfold Py.getlast. raises. Qed.

#[export] Hint Resolve first_raises getitem_raises setitem_raises getlast_raises : raises.

Lemma _simple_search_raises {U : Py.Unicode} token datadict initial :
  raises_only lookup_exn (_simple_search token datadict initial).
Proof. unfold _simple_search. raises. Qed.

Lemma _greedy_search_raises candidate datadict steps distance :
  raises_only lookup_exn (_greedy_search candidate datadict steps distance).
Proof.
  destruct (_greedy_search_ok candidate datadict steps distance) as [r ->].
  apply ro_ok.
Qed.

#[export] Hint Resolve _simple_search_raises _greedy_search_raises : raises.

Lemma decompose_body_raises {U : Py.Unicode} token datadict affixlen count st :
  raises_only lookup_exn (decompose_body token datadict affixlen count st).
Proof. unfold decompose_body. raises. Qed.

#[export] Hint Resolve decompose_body_raises : raises.

Lemma decompose_loop_raises {U : Py.Unicode}
    token datadict affixlen counts : ∀ st,
  raises_only lookup_exn (decompose_loop token datadict affixlen counts st).
Proof. induction counts as [|count rest IH]; intros st; simpl; raises. Qed.

Lemma _decompose_raises {U : Py.Unicode} token datadict affixlen :
  raises_only lookup_exn (_decompose token datadict affixlen).
Proof. apply decompose_loop_raises. Qed.

#[export] Hint Resolve _decompose_raises : raises.

Lemma affix_loop_raises {U : Py.Unicode} wordform datadict lengths : ∀ st,
  raises_only lookup_exn (affix_loop wordform datadict lengths st).
Proof. induction lengths as [|len rest IH]; intros st; simpl; raises. Qed.

#[export] Hint Resolve affix_loop_raises : raises.

Lemma _affix_search_raises {U : Py.Unicode} wordform datadict maxlen :
  raises_only lookup_exn (_affix_search wordform datadict maxlen).
Proof. unfold _affix_search. raises. Qed.

#[export] Hint Resolve _affix_search_raises : raises.

Lemma _dehyphen_raises {U : Py.Unicode} token datadict greedy :
  raises_only lookup_exn (_dehyphen token datadict greedy).
Proof. unfold _dehyphen. raises. Qed.

Lemma suffix_loop_raises {U : Py.Unicode} token datadict counts : ∀ st,
  raises_only lookup_exn (suffix_loop token datadict counts st).
Proof. induction counts as [|count rest IH]; intros st; simpl; raises. Qed.

#[export] Hint Resolve _dehyphen_raises suffix_loop_raises : raises.

Lemma _suffix_search_raises {U : Py.Unicode} token datadict :
  raises_only lookup_exn (_suffix_search token datadict).
Proof. unfold _suffix_search. raises. Qed.

#[export] Hint Resolve _suffix_search_raises : raises.

Lemma _return_lemma_raises {U : Py.Unicode}
    apply_rules token datadict greedy lang initial :
  raises_only lookup_exn (_return_lemma apply_rules token datadict greedy lang initial).
Proof. unfold _return_lemma. raises. Qed.

#[export] Hint Resolve _return_lemma_raises : raises.


(** ** The public [lemmatize] *)

Section Lemmatize.
Context {U : Py.Unicode}.
Variable apply_rules : string → string → option string.
Variable _load_pickle : string → gmap string string.

Lemma lemmatize_loop_none langdata token greedy initial :
  lemmatize_loop apply_rules token langdata greedy initial = Ok None ↔
  no_candidate apply_rules langdata token greedy initial.
Proof.
  unfold no_candidate. induction langdata as [|l rest IH]; simpl.
  - split; [constructor|done].
  - rewrite Forall_cons, <-IH.
    destruct (_return_lemma apply_rules token (dict l) greedy (code l) initial)
      as [[c|]|e]; simpl.
    + split; [done|]. intros [? _]. done.
    + tauto.
    + split; [done|]. intros [? _]. done.
Qed.

Lemma lemmatize_loop_skip pre post token greedy initial :
  no_candidate apply_rules pre token greedy initial →
  lemmatize_loop apply_rules token (pre ++ post) greedy initial =
  lemmatize_loop apply_rules token post greedy initial.
Proof.
  induction 1 as [|l pre Hl _ IH]; simpl; [done|]. by rewrite Hl.
Qed.

Lemma _update_lang_data_type LANG_DATA lang e :
  _update_lang_data _load_pickle LANG_DATA lang = Raise e → e = TypeError.
Proof.
  unfold _update_lang_data.
  destruct lang; [| |congruence];
    match goal with |- context [if ?b then _ else _] => destruct b end;
    discriminate.
Qed.

(** *** C1 *)

(** C1, amended. When no loaded table yields a candidate and silent
    mode is active, [lemmatize] returns the lowercased token if the
    first language of the configured sequence ([lang[0]]) belongs to
    [BETTER_LOWER], and the token unchanged otherwise. *)
Theorem lemmatize_silent_default
    LANG_DATA token lang greedy initial codes LANG_DATA' lang0 :
  _update_lang_data _load_pickle LANG_DATA lang = Ok (codes, LANG_DATA') →
  no_candidate apply_rules LANG_DATA' token greedy initial →
  codes !! 0%nat = Some lang0 →
  lemmatize apply_rules _load_pickle LANG_DATA (PStr token) lang greedy true initial
  = (Ok (if bool_decide (lang0 ∈ BETTER_LOWER) then Py.lower token else token),
     LANG_DATA').
Proof.
  intros Hupd Hnone Hlang0. unfold lemmatize. rewrite Hupd.
  apply lemmatize_loop_none in Hnone. rewrite Hnone. simpl.
  unfold Py.getitem. rewrite Hlang0. simpl. by case_bool_decide.
Qed.

(** *** C2 *)

Lemma _dehyphen_plain token datadict greedy :
  contains "-" token = false → contains "_" token = false →
  _dehyphen token datadict greedy = Ok None.
Proof. intros H1 H2. unfold _dehyphen. by rewrite H1, H2. Qed.

(** C2, amended. Let the form of the token that is looked up (the
    token, or its lower-case form when [initial] is on) be a key of a
    loaded table, with value [v], such that no earlier table yields a
    candidate, and let the token not be purely numeric. The value goes
    through [_dehyphen], which returns [None] and leaves it as it is,
    or returns what replaces it. [lemmatize] then returns the outcome
    when [greedy] is off or the token has at most 8 characters, and
    the result of [_greedy_search] on the outcome otherwise. *)
Theorem lemmatize_exact_match
    LANG_DATA token lang greedy silent initial codes pre l post v o :
  _update_lang_data _load_pickle LANG_DATA lang = Ok (codes, pre ++ l :: post) →
  no_candidate apply_rules pre token greedy initial →
  Py.isnumeric token = false →
  dict l !! (if initial then Py.lower token else token) = Some v →
  _dehyphen v (dict l) greedy = Ok o →
  fst (lemmatize apply_rules _load_pickle LANG_DATA (PStr token) lang
         greedy silent initial)
  = if (Py.len token <=? 8) || negb greedy then Ok (default v o)
    else _greedy_search (default v o) (dict l) 1 5.
Proof.
  intros Hupd Hpre Hnum Hkey Hd. unfold lemmatize. rewrite Hupd.
  simpl. rewrite (lemmatize_loop_skip _ _ _ _ _ Hpre). simpl.
  assert (_simple_search token (dict l) initial = Ok (Some v)) as Hs.
  { unfold _simple_search. by rewrite Hkey. }
  unfold _return_lemma. rewrite Hnum, Hs. simpl. rewrite Hd. simpl.
  assert (match o with Some _ => Ok o | None => Ok (Some v) end
          = (Ok (Some (default v o)) : res (option string))) as ->
    by (by destruct o).
  simpl. destruct ((Py.len token <=? 8) || negb greedy); [done|].
  by destruct (_greedy_search (default v o) (dict l) 1 5).
Qed.

(** *** C5 *)

(** C5, amended. For a purely numeric token, and a language
    configuration that loads at least one table, [lemmatize] returns
    the token unchanged, whatever [greedy], [silent] and [initial]. *)
Theorem lemmatize_numeric
    LANG_DATA token lang greedy silent initial codes l rest :
  Py.isnumeric token = true →
  _update_lang_data _load_pickle LANG_DATA lang = Ok (codes, l :: rest) →
  fst (lemmatize apply_rules _load_pickle LANG_DATA (PStr token) lang
         greedy silent initial)
  = Ok token.
Proof.
  intros Hnum Hupd. unfold lemmatize. rewrite Hupd. simpl.
  unfold _return_lemma. by rewrite Hnum.
Qed.

(** *** C6 *)


(** *** C10 *)

(** C10. For a language configuration that loads at least one table,
    the first of which has no entry for the empty string, [lemmatize]
    raises [IndexError] on the empty string, whatever the flags. *)
Theorem lemmatize_empty_token
    LANG_DATA lang greedy silent initial codes l rest :
  _update_lang_data _load_pickle LANG_DATA lang = Ok (codes, l :: rest) →
  dict l !! EmptyString = None →
  Py.isnumeric EmptyString = false ∧
  _simple_search EmptyString (dict l) initial = Raise IndexError ∧
  fst (lemmatize apply_rules _load_pickle LANG_DATA (PStr EmptyString) lang
         greedy silent initial) = Raise IndexError.
Proof.
  intros Hupd Hkey.
  assert (_simple_search EmptyString (dict l) initial = Raise IndexError) as Hs.
  { unfold _simple_search.
    destruct initial; rewrite ?Py.lower_empty, Hkey; done. }
  split_and!; [done..|].
  unfold lemmatize. rewrite Hupd. simpl.
  unfold _return_lemma. simpl. by rewrite Hs.
Qed.

End Lemmatize.

(** *** Closed instances *)

Lemma sample_load_en :
  _update_lang_data sample_tables [] (PStr "en")
  = Ok (["en"], [mkLangDict "en" (sample_tables "en")]).
Proof. reflexivity. Qed.

(** The claim of C1 fails on the sequence [("en", "es")]: its last
    language is in [BETTER_LOWER], its first is not, and the token is
    returned unchanged. *)
Lemma lemmatize_last_language_ignored :
  let out := lemmatize no_rules sample_tables [] (PStr "Xy")
               (PTuple ["en"; "es"]) false true false in
  no_candidate no_rules (snd out) "Xy" false false ∧
  last ["en"; "es"] = Some "es" ∧
  "es" ∈ BETTER_LOWER ∧
  fst out = Ok "Xy" ∧
  fst out ≠ Ok (Py.lower "Xy").
Proof.
  split_and!.
  - repeat constructor.
  - reflexivity.
  - apply (bool_decide_unpack _). by vm_compute.
  - reflexivity.
  - discriminate.
Qed.

Lemma lemmatize_silent_default_witness :
  _update_lang_data sample_tables [] (PTuple ["es"; "en"])
  = Ok (["es"; "en"], _load_data sample_tables ["es"; "en"]) ∧
  no_candidate no_rules (_load_data sample_tables ["es"; "en"]) "Xy" false false ∧
  ["es"; "en"] !! 0%nat = Some "es" ∧
  lemmatize no_rules sample_tables [] (PStr "Xy") (PTuple ["es"; "en"])
    false true false
  = (Ok (if bool_decide ("es" ∈ BETTER_LOWER) then Py.lower "Xy" else "Xy"),
     _load_data sample_tables ["es"; "en"]).
Proof.
  assert (no_candidate no_rules (_load_data sample_tables ["es"; "en"])
            "Xy" false false) as Hnone by repeat constructor.
  split_and!; [reflexivity|exact Hnone|reflexivity|].
  apply (lemmatize_silent_default no_rules sample_tables [] "Xy"
           (PTuple ["es"; "en"]) false false ["es"; "en"]
           (_load_data sample_tables ["es"; "en"]) "es");
    [reflexivity|exact Hnone|reflexivity].
Defined.

(** The claim of C2 fails on a key whose value is hyphenated: the value
    is resolved once more, without its hyphen. *)
Lemma lemmatize_exact_match_rewritten :
  let out := lemmatize no_rules sample_tables [] (PStr "e-mails") (PStr "en")
               false true false in
  snd out = [mkLangDict "en" (sample_tables "en")] ∧
  sample_tables "en" !! "e-mails" = Some "e-mail" ∧
  fst out = Ok "email".
Proof. split_and!; reflexivity. Qed.

(** Further inputs on which an exact key does not give its value: a
    numeric key, a sentence-initial token, a long token in greedy mode,
    and a key of the second table that the first table resolves in
    another case. *)
Lemma lemmatize_exact_match_others :
  fst (lemmatize no_rules (fun _ => {[ "1" := "one" ]}) [] (PStr "1") (PStr "en")
         false true false) = Ok "1" ∧
  fst (lemmatize no_rules (fun _ => list_to_map [("The", "The"); ("the", "the")])
         [] (PStr "The") (PStr "en") false true true) = Ok "the" ∧
  fst (lemmatize no_rules
         (fun _ => list_to_map [("abcdefghi", "abcd"); ("abcd", "abc")])
         [] (PStr "abcdefghi") (PStr "en") true true false) = Ok "abc" ∧
  fst (lemmatize no_rules
         (fun lang => if decide (lang = "en") then {[ "hand" := "hand" ]}
                      else {[ "Hand" := "Hand" ]})
         [] (PStr "Hand") (PTuple ["en"; "de"]) false true false) = Ok "hand".
Proof. split_and!; by vm_compute. Qed.

Lemma lemmatize_exact_match_witness :
  _update_lang_data sample_tables [] (PTuple ["es"; "en"])
  = Ok (["es"; "en"],
        [mkLangDict "es" (sample_tables "es")]
        ++ mkLangDict "en" (sample_tables "en") :: []) ∧
  no_candidate no_rules [mkLangDict "es" (sample_tables "es")] "e-mails"
    false false ∧
  Py.isnumeric "e-mails" = false ∧
  sample_tables "en" !! "e-mails" = Some "e-mail" ∧
  _dehyphen "e-mail" (sample_tables "en") false = Ok (Some "email") ∧
  fst (lemmatize no_rules sample_tables [] (PStr "e-mails")
         (PTuple ["es"; "en"]) false true false)
  = Ok "email".
Proof.
  assert (no_candidate no_rules [mkLangDict "es" (sample_tables "es")]
            "e-mails" false false) as Hnone by (repeat constructor).
  split_and!; [reflexivity|exact Hnone|reflexivity..|].
  apply (lemmatize_exact_match no_rules sample_tables [] "e-mails"
           (PTuple ["es"; "en"]) false true false ["es"; "en"]
           [mkLangDict "es" (sample_tables "es")]
           (mkLangDict "en" (sample_tables "en")) [] "e-mail" (Some "email"));
    [reflexivity|exact Hnone|reflexivity..].
Defined.

(** The claim of C5 fails when no table is loaded: an unsupported code
    with silent mode off, or the default [lang=None]. *)
Lemma lemmatize_numeric_unsupported :
  Py.isnumeric "12" = true ∧
  lemmatize no_rules sample_tables [] (PStr "12") (PStr "xx") false false false
  = (Raise ValueError, []) ∧
  lemmatize no_rules sample_tables [] (PStr "12") PNone false true false
  = (Raise TypeError, []).
Proof. split_and!; reflexivity. Qed.

Lemma lemmatize_numeric_witness :
  Py.isnumeric "12" = true ∧
  fst (lemmatize no_rules sample_tables [] (PStr "12") (PStr "en") true false true)
  = Ok "12".
Proof.
  split; [reflexivity|].
  apply (lemmatize_numeric no_rules sample_tables [] "12" (PStr "en")
           true false true ["en"] (mkLangDict "en" (sample_tables "en")) []);
    reflexivity.
Defined.



Lemma lemmatize_empty_token_witness :
  _update_lang_data sample_tables [] (PStr "en")
  = Ok (["en"], [mkLangDict "en" (sample_tables "en")]) ∧
  sample_tables "en" !! EmptyString = None ∧
  fst (lemmatize no_rules sample_tables [] (PStr EmptyString) (PStr "en") false true false)
  = Raise IndexError.
Proof.
  split_and!; [reflexivity..|].
  apply (lemmatize_empty_token no_rules sample_tables [] (PStr "en")
           false true false ["en"] (mkLangDict "en" (sample_tables "en")) []);
    reflexivity.
Defined.

(** ** The language detector *)

Lemma str_length l : String.length (Py.str l) = length l.
Proof. unfold Py.str. induction l as [|c l IH]; simpl; [done|by rewrite IH]. Qed.

Lemma has_run3_all (p : ascii → bool) l :
  Forall (fun c => p c) l → (3 ≤ length l)%nat → has_run3 p l.
Proof.
  destruct l as [|a [|b [|c post]]]; simpl; try lia.
  intros Hall _. exists [], a, b, c, post.
  inversion Hall as [|? ? Ha Hall1]; subst.
  inversion Hall1 as [|? ? Hb Hall2]; subst.
  inversion Hall2 as [|? ? Hc Hall3]; subst. done.
Qed.

Lemma has_run3_app_l (p : ascii → bool) l1 l2 : has_run3 p l1 → has_run3 p (l1 ++ l2).
Proof.
  intros (pre & a & b & c & post & -> & H). exists pre, a, b, c, (post ++ l2).
  by rewrite <-(assoc_L (++)).
Qed.

Lemma has_run3_app_r (p : ascii → bool) l1 l2 : has_run3 p l2 → has_run3 p (l1 ++ l2).
Proof.
  intros (pre & a & b & c & post & -> & H). exists (l1 ++ pre), a, b, c, post.
  by rewrite <-(assoc_L (++)).
Qed.

Lemma runs_short (p : ascii → bool) : ∀ text cur,
  Forall (fun c => p c) cur →
  ¬ has_run3 p (reverse cur ++ text) →
  Forall (fun w => (String.length w < 3)%nat) (runs p text cur).
Proof.
  induction text as [|c rest IH]; intros cur Hcur Hno; simpl.
  - constructor; [|constructor]. rewrite str_length.
    destruct (decide (length (reverse cur) < 3)%nat); [done|].
    exfalso. apply Hno. apply has_run3_app_l, has_run3_all; [|lia].
    by apply Forall_reverse.
  - destruct (p c) eqn:Hc.
    + apply IH; [constructor; [by rewrite Hc|done]|].
      by rewrite reverse_cons, <-(assoc_L (++)).
    + constructor.
      * rewrite str_length.
        destruct (decide (length (reverse cur) < 3)%nat); [done|].
        exfalso. apply Hno. apply has_run3_app_l, has_run3_all; [|lia].
        by apply Forall_reverse.
      * apply IH; [constructor|]. intros Hrun. apply Hno.
        apply has_run3_app_r. apply (has_run3_app_r _ [c]). by simpl in Hrun.
Qed.

(** *** Sorting *)

Lemma insert_desc_perm {A} (gt : A → A → bool) (x : A) l :
  insert_desc gt x l ≡ₚ x :: l.
Proof.
  induction l as [|y l IH]; simpl; [done|].
  destruct (gt y x); [|done]. rewrite IH. apply Permutation_swap.
Qed.

Lemma sorted_reverse_perm {A} (gt : A → A → bool) (l : list A) :
  sorted_reverse gt l ≡ₚ l.
Proof.
  unfold sorted_reverse. induction l as [|x l IH]; simpl; [done|].
  by rewrite insert_desc_perm, IH.
Qed.

Lemma score_gt_true x y : score_gt x y = true → score_ge x y.
Proof.
  unfold score_gt, score_ge, Py.Qgtb. intros Hgt.
  apply negb_true_iff in Hgt. apply Qlt_le_weak, Qnot_le_lt.
  intros Hle. apply Qle_bool_iff in Hle. congruence.
Qed.

Lemma score_gt_false x y : score_gt x y = false → score_ge y x.
Proof.
  unfold score_gt, score_ge, Py.Qgtb. intros Hgt.
  apply negb_false_iff in Hgt. by apply Qle_bool_iff.
Qed.

Lemma score_ge_trans x y z : score_ge x y → score_ge y z → score_ge x z.
Proof. unfold score_ge. intros Hxy Hyz. by eapply Qle_trans. Qed.

Lemma insert_desc_sorted x l :
  StronglySorted score_ge l → StronglySorted score_ge (insert_desc score_gt x l).
Proof.
  induction 1 as [|y l Hl IH Hy]; simpl.
  - repeat constructor.
  - destruct (score_gt y x) eqn:Hgt.
    + constructor; [done|]. rewrite insert_desc_perm.
      constructor; [by apply score_gt_true|done].
    + apply score_gt_false in Hgt. constructor.
      * by constructor.
      * constructor; [done|].
        eapply Forall_impl; [exact Hy|]. intros z Hz. by eapply score_ge_trans.
Qed.

Lemma sorted_reverse_sorted l :
  StronglySorted score_ge (sorted_reverse score_gt l).
Proof.
  unfold sorted_reverse. induction l as [|x l IH]; simpl; [constructor|].
  by apply insert_desc_sorted.
Qed.

Section Detector.
Context {U : Py.Unicode}.
Variable apply_rules : string → string → option string.

Lemma prepare_text_short text : ¬ has_alpha_run3 text → prepare_text text = [].
Proof.
  intros Hno. unfold prepare_text, SPLIT_INPUT_finditer.
  pose proof (runs_short Py.re_letter (Py.chars text) [] ltac:(constructor) Hno)
    as Hshort.
  assert (filter (fun w => (3 ≤ String.length w)%nat)
            (runs Py.re_letter (Py.chars text) []) = []) as ->; [|done].
  induction Hshort as [|w ws Hw _ IH]; [done|].
  rewrite filter_cons_False by lia. done.
Qed.

Lemma detect_pass_no_token text langdata extensive :
  prepare_text text = [] →
  detect_pass apply_rules text langdata extensive = Raise ZeroDivisionError.
Proof.
  intros Hempty. unfold detect_pass. rewrite Hempty.
  destruct langdata as [|[langcode langdict] rest]; reflexivity.
Qed.

(** C9. On a text without three consecutive alphabetic characters
    (characters of the class of [SPLIT_INPUT], whatever the Unicode
    database makes of it) [prepare_text] returns the empty list, and
    [lang_detector] and [in_target_language] both raise
    [ZeroDivisionError]. *)
Theorem detector_division_by_zero text langdata extensive :
  ¬ has_alpha_run3 text →
  prepare_text text = [] ∧
  lang_detector apply_rules text langdata extensive = Raise ZeroDivisionError ∧
  in_target_language apply_rules text langdata = Raise ZeroDivisionError.
Proof.
  intros Hno. pose proof (prepare_text_short text Hno) as Hempty.
  split_and!; [done| |].
  - simp lang_detector. by rewrite detect_pass_no_token.
  - unfold in_target_language. by rewrite Hempty.
Qed.

(** The body of [lang_detector], in the order of the source. *)
Lemma lang_detector_eq text langdata extensive :
  lang_detector apply_rules text langdata extensive
  = results ← detect_pass apply_rules text langdata extensive;
    if negb extensive then
      r0 ← Py.getitem results 0;
      r1 ← Py.getitem results 1;
      if Qeq_bool (snd r0) (snd r1)
      then lang_detector apply_rules text langdata true
      else Ok results
    else Ok results.
Proof.
  rewrite (lang_detector_equation_1 apply_rules text langdata extensive).
  destruct (detect_pass apply_rules text langdata extensive) as [results|e];
    simpl; [|done].
  by destruct extensive.
Qed.

Lemma detect_pass_sorted text langdata extensive results :
  detect_pass apply_rules text langdata extensive = Ok results →
  StronglySorted score_ge results.
Proof.
  unfold detect_pass.
  destruct (detect_langs apply_rules (prepare_text text) langdata extensive
              [] ∅) as [[myresults found]|]; cbn [mbind res_bind]; [|done].
  destruct (Py.truediv _ _) as [unk|]; cbn [mbind res_bind]; [|done].
  intros [= <-]. apply sorted_reverse_sorted.
Qed.

(** C8. In extensive mode [lang_detector] returns the ranking of its
    single pass. In fast mode the ranking of the pass is in descending
    order, so that its first two entries hold the two highest scores:
    no entry has a higher score than the first, and none but the first
    has a higher score than the second. When the ranking has two
    entries at least, the result is the ranking of an extensive pass if
    these two scores are equal, and the ranking of the fast pass
    otherwise. *)
Theorem lang_detector_tie text langdata :
  lang_detector apply_rules text langdata true
  = detect_pass apply_rules text langdata true ∧
  ∀ results r0 r1,
    detect_pass apply_rules text langdata false = Ok results →
    results !! 0%nat = Some r0 →
    results !! 1%nat = Some r1 →
    (∀ r, r ∈ results → score_ge r0 r) ∧
    (∀ i r, results !! i = Some r → (1 ≤ i)%nat → score_ge r1 r) ∧
    lang_detector apply_rules text langdata false
    = if Qeq_bool (snd r0) (snd r1)
      then detect_pass apply_rules text langdata true
      else Ok results.
Proof.
  assert (lang_detector apply_rules text langdata true
          = detect_pass apply_rules text langdata true) as Hext.
  { rewrite lang_detector_eq.
    by destruct (detect_pass apply_rules text langdata true). }
  split; [done|].
  intros results r0 r1 Hpass H0 H1.
  pose proof (detect_pass_sorted _ _ _ _ Hpass) as Hsorted.
  destruct results as [|x0 [|x1 rest]]; [done..|].
  injection H0 as ->. injection H1 as ->.
  apply StronglySorted_inv in Hsorted as [Hsorted Hall0].
  apply StronglySorted_inv in Hsorted as [_ Hall1].
  split_and!.
  - intros r [->|Hin]%elem_of_cons; [apply Qle_refl|].
    by apply (proj1 (Forall_forall _ _) Hall0).
  - intros i r Hi Hle. destruct i as [|[|i]]; [lia| |].
    + injection Hi as <-. apply Qle_refl.
    + apply (proj1 (Forall_forall _ _) Hall1).
      by eapply list_elem_of_lookup_2.
  - rewrite lang_detector_eq, Hpass. simpl.
    unfold Py.getitem. simpl.
    destruct (Qeq_bool (snd r0) (snd r1)); [apply Hext|done].
Qed.

End Detector.

Lemma detector_division_by_zero_witness :
  ¬ has_alpha_run3 "12 ab, c-d" ∧
  lang_detector no_rules "12 ab, c-d" [("en", sample_tables "en")] false
  = Raise ZeroDivisionError ∧
  in_target_language no_rules "12 ab, c-d" [("en", sample_tables "en")]
  = Raise ZeroDivisionError.
Proof.
  assert (¬ has_alpha_run3 "12 ab, c-d") as Hno.
  { intros (pre & a & b & c & post & Heq & Ha & Hb & Hc).
    cbv [Py.chars list_ascii_of_string] in Heq.
    repeat (destruct pre as [|? pre]; simplify_eq/=; try done). }
  split; [exact Hno|].
  apply (detector_division_by_zero no_rules "12 ab, c-d"
           [("en", sample_tables "en")] false Hno).
Defined.

Lemma lang_detector_tie_witness :
  detect_pass no_rules "cats are running emailcats"
    [("en", sample_tables "en"); ("de", sample_tables "de")] false
  = Ok [("en", 2 # 4); ("unk", 2 # 4); ("de", 0 # 4)]%Q ∧
  detect_pass no_rules "cats are running emailcats"
    [("en", sample_tables "en"); ("de", sample_tables "de")] true
  = Ok [("en", 3 # 4); ("unk", 1 # 4); ("de", 0 # 4)]%Q ∧
  lang_detector no_rules "cats are running emailcats"
    [("en", sample_tables "en"); ("de", sample_tables "de")] false
  = Ok [("en", 3 # 4); ("unk", 1 # 4); ("de", 0 # 4)]%Q.
Proof.
  assert (detect_pass no_rules "cats are running emailcats"
            [("en", sample_tables "en"); ("de", sample_tables "de")] false
          = Ok [("en", 2 # 4); ("unk", 2 # 4); ("de", 0 # 4)]%Q) as Hfast
    by (by vm_compute).
  assert (detect_pass no_rules "cats are running emailcats"
            [("en", sample_tables "en"); ("de", sample_tables "de")] true
          = Ok [("en", 3 # 4); ("unk", 1 # 4); ("de", 0 # 4)]%Q) as Hext
    by (by vm_compute).
  split; [exact Hfast|]. split; [exact Hext|].
  destruct (proj2 (lang_detector_tie no_rules "cats are running emailcats"
                     [("en", sample_tables "en"); ("de", sample_tables "de")])
              [("en", 2 # 4); ("unk", 2 # 4); ("de", 0 # 4)]%Q
              ("en", 2 # 4)%Q ("unk", 2 # 4)%Q Hfast eq_refl eq_refl)
    as (_ & _ & ->).
  exact Hext.
Defined.

(** *** The ordered dictionary of results *)

Lemma dict_set_keys k v d k' :
  k' ∈ (dict_set k v d).*1 ↔ k' = k ∨ k' ∈ d.*1.
Proof.
  induction d as [|[k0 v0] d IH]; simpl.
  - rewrite list_elem_of_singleton, elem_of_nil. tauto.
  - case_decide as Hk; simpl; rewrite !elem_of_cons.
    + subst k0. tauto.
    + rewrite IH. tauto.
Qed.

Lemma dict_set_NoDup k v d : NoDup d.*1 → NoDup (dict_set k v d).*1.
Proof.
  induction d as [|[k0 v0] d IH]; simpl; intros Hnd.
  - apply NoDup_singleton.
  - apply NoDup_cons in Hnd as [Hk0 Hnd]. case_decide as Hk; simpl.
    + by apply NoDup_cons.
    + apply NoDup_cons. split; [|by apply IH].
      rewrite dict_set_keys. intros [->|?]; done.
Qed.

Lemma dict_set_elem k v d k' v' :
  (k', v') ∈ dict_set k v d → (k' = k ∧ v' = v) ∨ (k', v') ∈ d.
Proof.
  induction d as [|[k0 v0] d IH]; simpl.
  - rewrite list_elem_of_singleton. intros [= -> ->]. by left.
  - case_decide as Hk; rewrite !elem_of_cons.
    + intros [[= -> ->]|Hin]; [by left|by right; right].
    + intros [[= -> ->]|Hin]; [by right; left|].
      destruct (IH Hin); [by left|by right; right].
Qed.

Lemma dict_set_new k v d : (k, v) ∈ dict_set k v d.
Proof.
  induction d as [|[k0 v0] d IH]; simpl.
  - by apply list_elem_of_singleton.
  - case_decide as Hk; [subst k0|]; rewrite elem_of_cons; auto.
Qed.

(** *** Quotients *)

Lemma truediv_ok a N : N ≠ 0 → Py.truediv a N = Ok (inject_Z a / inject_Z N)%Q.
Proof.
  intros HN. unfold Py.truediv. by destruct (Z.eqb_spec N 0).
Qed.

Lemma inject_Z_div a N : 0 < N → (inject_Z a / inject_Z N == a # Z.to_pos N)%Q.
Proof.
  intros HN. destruct N as [|N|N]; try lia.
  unfold Qeq, Qdiv, Qmult, Qinv, inject_Z. simpl. lia.
Qed.

Lemma score_bounds a N :
  0 ≤ a ≤ N → 0 < N → (0 <= inject_Z a / inject_Z N <= 1)%Q.
Proof.
  intros Ha HN. rewrite (inject_Z_div a N HN).
  unfold Qle. simpl. split; [lia|].
  rewrite Z2Pos.id by done. lia.
Qed.

Lemma unk_value m N :
  0 < N →
  (inject_Z (N - m) / inject_Z N == 1 - inject_Z m / inject_Z N)%Q.
Proof.
  intros HN. rewrite !inject_Z_div by done.
  unfold Qeq, Qminus, Qplus, Qopp. simpl.
  rewrite !Pos2Z.inj_mul, !Z2Pos.id by done. lia.
Qed.

(** *** The sampled tokens *)

Lemma counter_add_keys w counter k :
  k ∈ (counter_add w counter).*1 ↔ k = w ∨ k ∈ counter.*1.
Proof.
  induction counter as [|[k0 n0] counter IH]; simpl.
  - rewrite list_elem_of_singleton, elem_of_nil. tauto.
  - case_decide as Hk; simpl; rewrite !elem_of_cons.
    + subst k0. tauto.
    + rewrite IH. tauto.
Qed.

Lemma counter_add_NoDup w counter :
  NoDup counter.*1 → NoDup (counter_add w counter).*1.
Proof.
  induction counter as [|[k0 n0] counter IH]; simpl; intros Hnd.
  - apply NoDup_singleton.
  - apply NoDup_cons in Hnd as [Hk0 Hnd]. case_decide as Hk; simpl.
    + by apply NoDup_cons.
    + apply NoDup_cons. split; [|by apply IH].
      rewrite counter_add_keys. intros [->|?]; done.
Qed.

Lemma Counter_spec words :
  NoDup (Counter words).*1 ∧ ∀ k, k ∈ (Counter words).*1 ↔ k ∈ words.
Proof.
  unfold Counter.
  assert (∀ acc : list (string * Z),
            NoDup acc.*1 →
            NoDup (foldl (fun counter w => counter_add w counter) acc words).*1 ∧
            ∀ k, k ∈ (foldl (fun counter w => counter_add w counter) acc words).*1
                 ↔ k ∈ acc.*1 ∨ k ∈ words) as Hgen.
  { induction words as [|w words IH]; intros acc Hacc; simpl.
    - split; [done|]. intros k. rewrite elem_of_nil. tauto.
    - destruct (IH (counter_add w acc) (counter_add_NoDup w acc Hacc)) as [Hnd Hk].
      split; [done|]. intros k.
      rewrite Hk, counter_add_keys, elem_of_cons. tauto. }
  destruct (Hgen [] (NoDup_nil_2)) as [Hnd Hk]. split; [done|].
  intros k. rewrite Hk. simpl. rewrite elem_of_nil. tauto.
Qed.

Lemma prepare_text_NoDup {U : Py.Unicode} text : NoDup (prepare_text text).
Proof.
  unfold prepare_text, most_common. rewrite fmap_take.
  eapply sublist_NoDup; [|apply sublist_take].
  rewrite sorted_reverse_perm. apply Counter_spec.
Qed.

Lemma prepare_text_elem {U : Py.Unicode} text t :
  t ∈ prepare_text text → (3 ≤ String.length t)%nat.
Proof.
  unfold prepare_text, most_common. rewrite fmap_take.
  intros Hin. apply elem_of_take in Hin as (i & Hin & _).
  apply list_elem_of_lookup_2 in Hin.
  rewrite sorted_reverse_perm in Hin.
  apply (proj1 (proj2 (Counter_spec _) t)) in Hin.
  unfold SPLIT_INPUT_finditer in Hin.
  by apply list_elem_of_filter in Hin as [Hlen _].
Qed.

(** *** The resolver returns on well-formed tables *)

Lemma returns_ok {A} (a : A) : returns (Ok a).
Proof. by exists a. Qed.

Lemma returns_bind {A B} (m : res A) (f : A → res B) :
  returns m → (∀ a, m = Ok a → returns (f a)) → returns (m ≫= f).
Proof. intros [a ->] Hf. simpl. by apply Hf. Qed.

Lemma chars_str l : Py.chars (Py.str l) = l.
Proof. apply list_ascii_of_string_of_list_ascii. Qed.

Lemma len_str l : Py.len (Py.str l) = Z.of_nat (length l).
Proof. unfold Py.len. by rewrite str_length. Qed.

Lemma len_slice_from token count :
  0 < count ≤ Py.len token → Py.len (Py.slice_from token (- count)) = count.
Proof.
  intros Hc. unfold Py.slice_from.
  destruct (Z.ltb_spec (- count) 0); [|lia].
  rewrite len_str, length_drop. rewrite len_chars in *. lia.
Qed.

Lemma len_slice_to token count :
  0 < count ≤ Py.len token →
  Py.len (Py.slice_to token (- count)) = Py.len token - count.
Proof.
  intros Hc. unfold Py.slice_to.
  destruct (Z.ltb_spec (- count) 0); [|lia].
  rewrite len_str, length_take. rewrite len_chars in *. lia.
Qed.

Lemma len_pos_nonempty s : 0 < Py.len s → s ≠ EmptyString.
Proof. intros Hlen ->. unfold Py.len in Hlen. simpl in Hlen. lia. Qed.

Lemma capitalize_nonempty {U : Py.Unicode} s :
  s ≠ EmptyString → Py.capitalize s ≠ EmptyString.
Proof. apply Py.capitalize_nonempty. Qed.

Lemma lower_nonempty {U : Py.Unicode} s :
  s ≠ EmptyString → Py.lower s ≠ EmptyString.
Proof. apply Py.lower_nonempty. Qed.

Lemma first_returns s : s ≠ EmptyString → returns (Py.first s).
Proof. destruct s; [done|]. intros _. apply returns_ok. Qed.

Lemma getlast_returns {A} (l : list A) : l ≠ [] → returns (Py.getlast l).
Proof.
  intros Hl. unfold Py.getlast.
  destruct (last l) eqn:Hlast; [apply returns_ok|].
  by apply last_None in Hlast.
Qed.

Lemma elem_of_range c a b : c ∈ Py.range a b → a ≤ c < b.
Proof.
  unfold Py.range. intros (i & -> & Hi)%list_elem_of_fmap.
  apply elem_of_seq in Hi. lia.
Qed.

Lemma _simple_search_returns {U : Py.Unicode} token d initial :
  token ≠ EmptyString → returns (_simple_search token d initial).
Proof.
  intros Htok. unfold _simple_search.
  assert ((if initial then Py.lower token else token) ≠ EmptyString) as Htok'.
  { destruct initial; [by apply lower_nonempty|done]. }
  destruct (d !! (if initial then Py.lower token else token));
    [apply returns_ok|].
  apply returns_bind; [by apply first_returns|].
  intros c0 _. destruct (Py.isupper_char c0); apply returns_ok.
Qed.

Lemma _simple_search_value {U : Py.Unicode} token d initial v :
  _simple_search token d initial = Ok (Some v) → ∃ k, d !! k = Some v.
Proof.
  unfold _simple_search.
  destruct (d !! (if initial then Py.lower token else token)) eqn:Hget.
  - intros [= <-]. eauto.
  - destruct (Py.first (if initial then Py.lower token else token)) as [c0|];
      simpl; [|done].
    destruct (Py.isupper_char c0); intros [= Hv]; eauto.
Qed.

Lemma _greedy_search_returns candidate datadict steps distance :
  returns (_greedy_search candidate datadict steps distance).
Proof. apply _greedy_search_ok. Qed.

Lemma decompose_body_returns {U : Py.Unicode} token d affixlen count st :
  nonempty_values d →
  1 ≤ count ≤ Py.len token - MINCOMPLEN →
  returns (decompose_body token d affixlen count st).
Proof.
  intros Hd Hc. unfold MINCOMPLEN in Hc. unfold decompose_body.
  destruct st as [candidate plan_b].
  assert (token ≠ EmptyString) as Htok by (apply len_pos_nonempty; lia).
  assert (Py.slice_to token (- count) ≠ EmptyString) as Hp1.
  { apply len_pos_nonempty. rewrite len_slice_to; lia. }
  assert (Py.slice_from token (- count) ≠ EmptyString) as Hp2.
  { apply len_pos_nonempty. rewrite len_slice_from; lia. }
  apply returns_bind; [by apply _simple_search_returns|].
  intros [lempart1|] _; [|apply returns_ok].
  destruct (count <=? affixlen); [apply returns_ok|].
  apply returns_bind; [by apply first_returns|]. intros c0 _.
  assert ((if Py.isupper_char c0
           then Py.capitalize (Py.slice_from token (- count))
           else Py.slice_from token (- count)) ≠ EmptyString) as Hp2'.
  { destruct (Py.isupper_char c0); [by apply capitalize_nonempty|done]. }
  apply returns_bind; [by apply _simple_search_returns|].
  intros [lempart2|] Hl2; [|apply returns_ok].
  apply _simple_search_value in Hl2 as [k Hk]. apply Hd in Hk.
  apply returns_bind; [by apply first_returns|]. intros l0 _.
  apply returns_bind; [apply _greedy_search_returns|]. intros newcandidate _.
  destruct (if Py.truthy newcandidate && _ then _ else candidate);
    [apply returns_ok|].
  apply returns_bind; [by apply _simple_search_returns|].
  intros [nc|] _; repeat case_match; apply returns_ok.
Qed.

Lemma decompose_loop_returns {U : Py.Unicode} token d affixlen counts : ∀ st,
  nonempty_values d →
  (∀ count, count ∈ counts → 1 ≤ count ≤ Py.len token - MINCOMPLEN) →
  returns (decompose_loop token d affixlen counts st).
Proof.
  induction counts as [|count rest IH]; intros st Hd Hcounts; simpl.
  - apply returns_ok.
  - apply returns_bind.
    + apply decompose_body_returns; [done|]. apply Hcounts. by left.
    + intros [st' stop] _. destruct stop; [apply returns_ok|].
      apply IH; [done|]. intros c Hin. apply Hcounts. by right.
Qed.

Lemma _decompose_returns {U : Py.Unicode} token d affixlen :
  nonempty_values d → returns (_decompose token d affixlen).
Proof.
  intros Hd. apply decompose_loop_returns; [done|].
  intros count Hin%elem_of_range. lia.
Qed.

Lemma affix_loop_returns {U : Py.Unicode} wordform d lengths : ∀ st,
  nonempty_values d →
  ∃ r, affix_loop wordform d lengths st = Ok r ∧
       (lengths ≠ [] ∨ st ≠ None → r ≠ None).
Proof.
  induction lengths as [|len rest IH]; intros st Hd; simpl.
  - eexists. split; [done|]. intros [?|?]; done.
  - destruct (_decompose_returns wordform d len Hd) as [[candidate plan_b] ->].
    simpl. destruct candidate as [c|].
    + eexists. split; [done|]. done.
    + destruct (IH (Some (None, plan_b)) Hd) as (r & -> & Hr).
      eexists. split; [done|]. intros _. apply Hr. by right.
Qed.

Lemma _affix_search_returns {U : Py.Unicode} wordform d maxlen :
  nonempty_values d → 1 < maxlen → returns (_affix_search wordform d maxlen).
Proof.
  intros Hd Hmax. unfold _affix_search.
  destruct (affix_loop_returns wordform d (Py.range_down maxlen 1) None Hd)
    as (r & -> & Hr). simpl.
  destruct r as [[[c|] [p|]]|]; try apply returns_ok.
  exfalso. apply Hr; [|done]. left. unfold Py.range_down.
  destruct (Z.to_nat (maxlen - 1)) eqn:Hn; [lia|done].
Qed.

Lemma hyphen_split_nonempty s : hyphen_split s ≠ [].
Proof.
  destruct s as [|c rest]; simpl; [done|].
  destruct (is_hyphen c); [done|]. by destruct (hyphen_split rest).
Qed.

Lemma _dehyphen_returns {U : Py.Unicode} token d greedy :
  nonempty_values d → returns (_dehyphen token d greedy).
Proof.
  intros Hd. unfold _dehyphen.
  destruct (negb (contains "-" token) && negb (contains "_" token)) eqn:Hh;
    [apply returns_ok|].
  assert (token ≠ EmptyString) as Htok by (intros ->; by vm_compute in Hh).
  pose proof (hyphen_split_nonempty token) as Hsplit.
  destruct (getlast_returns (hyphen_split token) Hsplit) as [lastseg Hlast].
  rewrite Hlast. simpl.
  destruct (1 <? Z.of_nat (length (hyphen_split token))); simpl;
    [|apply returns_ok].
  destruct (Z.ltb_spec 0 (Py.len lastseg)) as [Hpos|]; [|apply returns_ok].
  apply returns_bind; [by apply first_returns|]. intros c0 _.
  destruct (d !! _); [apply returns_ok|].
  apply returns_bind; [apply _simple_search_returns; by apply len_pos_nonempty|].
  intros sub _. apply returns_bind.
  - destruct sub; [apply returns_ok|]. destruct greedy; [|apply returns_ok].
    by apply _affix_search_returns.
  - intros [sub'|] _; [|apply returns_ok].
    apply returns_bind; [|intros; apply returns_ok].
    unfold Py.setitem. rewrite decide_True; [apply returns_ok|].
    destruct (hyphen_split token); [done|]. simpl. lia.
Qed.

Lemma suffix_loop_returns {U : Py.Unicode} token d counts : ∀ st,
  (∀ count, count ∈ counts →
            MINCOMPLEN ≤ count ≤ Py.len token - MINCOMPLEN) →
  (snd st > 0 → fst st ≠ None) →
  ∃ r, suffix_loop token d counts st = Ok r ∧ (snd r > 0 → fst r ≠ None).
Proof.
  unfold MINCOMPLEN.
  induction counts as [|count rest IH]; intros st Hcounts Hst; simpl.
  - eauto.
  - pose proof (Hcounts count ltac:(by left)) as Hc.
    destruct (_simple_search_returns
                (Py.capitalize (Py.slice_from token (- count))) d false)
      as [part ->].
    { apply capitalize_nonempty, len_pos_nonempty.
      rewrite len_slice_from; lia. }
    simpl. apply IH.
    + intros c Hin. apply Hcounts. by right.
    + destruct part as [p|]; [|done]. case_match; [|done]. done.
Qed.

Lemma _suffix_search_returns {U : Py.Unicode}
    token d : returns (_suffix_search token d).
Proof.
  unfold _suffix_search.
  destruct (suffix_loop_returns token d
              (Py.range MINCOMPLEN (Py.len token - MINCOMPLEN + 1)) (None, 0))
    as ([lastpart lastcount] & -> & Hr).
  { intros count Hin%elem_of_range. lia. }
  { simpl. lia. }
  simpl in *. destruct (Z.gtb_spec lastcount 0) as [Hpos|]; [|apply returns_ok].
  destruct lastpart; [apply returns_ok|]. exfalso. apply Hr; [lia|done].
Qed.

Lemma _return_lemma_returns {U : Py.Unicode}
    apply_rules token d greedy lang initial :
  nonempty_values d → token ≠ EmptyString →
  returns (_return_lemma apply_rules token d greedy lang initial).
Proof.
  intros Hd Htok. unfold _return_lemma.
  destruct (Py.isnumeric token); [apply returns_ok|].
  apply returns_bind; [by apply _simple_search_returns|]. intros candidate _.
  apply returns_bind.
  - destruct (match candidate with None => _ | Some _ => _ end) as [c|].
    + apply returns_bind; [by apply _dehyphen_returns|].
      intros [nc|] _; apply returns_ok.
    + by apply _dehyphen_returns.
  - intros candidate' _.
    destruct ((Py.len token <=? 8) || negb greedy); [apply returns_ok|].
    destruct candidate' as [c|].
    + apply returns_bind; [apply _greedy_search_returns|].
      intros; apply returns_ok.
    + apply returns_bind.
      * apply _affix_search_returns; [done|].
        unfold LONGAFFIXLEN, AFFIXLEN. case_bool_decide; lia.
      * intros [c|] _; [apply returns_ok|apply _suffix_search_returns].
Qed.

(** *** The ranking *)

Lemma NoDup_fst_unique {A B} (l : list (A * B)) k v1 v2 :
  NoDup l.*1 → (k, v1) ∈ l → (k, v2) ∈ l → v1 = v2.
Proof.
  induction l as [|[k0 v0] l IH]; simpl; intros Hnd H1 H2.
  - by apply elem_of_nil in H1.
  - apply NoDup_cons in Hnd as [Hk0 Hnd].
    apply elem_of_cons in H1 as [H1|H1]; apply elem_of_cons in H2 as [H2|H2].
    + congruence.
    + injection H1 as -> ->. destruct Hk0.
      apply list_elem_of_fmap. by exists (k0, v2).
    + injection H2 as -> ->. destruct Hk0.
      apply list_elem_of_fmap. by exists (k0, v1).
    + by apply IH.
Qed.

Section Ranking.
Context {U : Py.Unicode}.
Variable apply_rules : string → string → option string.

Lemma detect_one_returns extensive c d t :
  nonempty_values d → t ≠ EmptyString → returns (detect_one apply_rules extensive c d t).
Proof.
  intros Hd Ht. unfold detect_one. destruct extensive; simpl.
  - by apply _return_lemma_returns.
  - by apply _simple_search_returns.
Qed.

Lemma detect_tokens_spec c d extensive tokens :
  nonempty_values d → (∀ t, t ∈ tokens → t ≠ EmptyString) → ∀ acc,
  detect_tokens apply_rules tokens c d extensive acc
  = Ok (acc ++ filter (fun t => hit apply_rules extensive c d t) tokens).
Proof.
  intros Hd. induction tokens as [|t tokens IH]; intros Htok acc; simpl.
  - by rewrite app_nil_r.
  - destruct (detect_one_returns extensive c d t Hd) as [o Ho].
    { apply Htok. by left. }
    pose proof Ho as Ho'. unfold detect_one in Ho'. rewrite Ho'. simpl.
    rewrite IH by (intros t' Hin; apply Htok; by right).
    assert (hit apply_rules extensive c d t
            = match o with Some _ => true | None => false end)
      as Hhit by (unfold hit; by rewrite Ho).
    f_equal. destruct o.
    + rewrite filter_cons_True by (by rewrite Hhit).
      by rewrite <-(assoc_L (++)).
    + rewrite filter_cons_False by (rewrite Hhit; simpl; tauto). done.
Qed.

Lemma detect_langs_spec tokens extensive :
  tokens ≠ [] → (∀ t, t ∈ tokens → t ≠ EmptyString) →
  ∀ langdata myresults found,
    well_formed langdata → NoDup myresults.*1 →
    ∃ myresults' found',
      detect_langs apply_rules tokens langdata extensive myresults found
      = Ok (myresults', found') ∧
      found' = found ∪ list_to_set
                 (filter (fun t => hit_any apply_rules extensive langdata t) tokens) ∧
      NoDup myresults'.*1 ∧
      (∀ k, k ∈ myresults'.*1 ↔ k ∈ myresults.*1 ∨ k ∈ langdata.*1) ∧
      (∀ k v, (k, v) ∈ myresults' → (k, v) ∈ myresults ∨ (0 <= v <= 1)%Q).
Proof.
  intros Hne Htok.
  induction langdata as [|[c d] rest IH]; intros myresults found Hwf Hnd; simpl.
  - exists myresults, found. split_and!; [done| |done| |].
    + apply set_eq. intros x.
      rewrite elem_of_union, elem_of_list_to_set, list_elem_of_filter. simpl.
      tauto.
    + intros k. rewrite elem_of_nil. tauto.
    + auto.
  - rewrite detect_tokens_spec; [|by apply (Hwf c d); left|done]. simpl.
    rewrite truediv_ok by (destruct tokens; [done|simpl; lia]). simpl.
    set (in_target := filter (fun t => hit apply_rules extensive c d t) tokens).
    destruct (IH (dict_set c
                    (inject_Z (Z.of_nat (length in_target))
                     / inject_Z (Z.of_nat (length tokens)))%Q myresults)
                 (found ∪ list_to_set in_target))
      as (myresults' & found' & -> & -> & Hnd' & Hkeys & Hvals).
    { intros c' d' Hin. apply (Hwf c' d'). by right. }
    { by apply dict_set_NoDup. }
    exists myresults'. eexists. split_and!; [done| |done| |].
    + apply set_eq. intros x. unfold in_target.
      rewrite !elem_of_union, !elem_of_list_to_set, !list_elem_of_filter.
      simpl. rewrite orb_True. tauto.
    + intros k. rewrite Hkeys, dict_set_keys, elem_of_cons. simpl. tauto.
    + intros k v Hin. destruct (Hvals k v Hin) as [Hold|?]; [|by right].
      apply dict_set_elem in Hold as [[-> ->]|?]; [right|by left].
      apply score_bounds.
      * pose proof (length_filter
                      (fun t => hit apply_rules extensive c d t) tokens).
        unfold in_target. lia.
      * destruct tokens; [done|simpl; lia].
Qed.

Lemma detect_pass_spec text langdata extensive :
  prepare_text text ≠ [] → well_formed langdata →
  ∃ results,
    detect_pass apply_rules text langdata extensive = Ok results ∧
    ranking_spec apply_rules extensive text langdata results.
Proof.
  intros Hne Hwf. unfold detect_pass.
  assert (∀ t, t ∈ prepare_text text → t ≠ EmptyString) as Htok.
  { intros t Hin%prepare_text_elem ->. simpl in Hin. lia. }
  destruct (detect_langs_spec (prepare_text text) extensive Hne Htok langdata
              [] ∅ Hwf (NoDup_nil_2))
    as (myresults & found & -> & Hfound & Hnd & Hkeys & Hvals).
  simpl.
  assert (0 < Z.of_nat (length (prepare_text text))) as HN.
  { destruct (prepare_text text); [done|simpl; lia]. }
  assert (size found
          = matched apply_rules extensive langdata (prepare_text text)) as Hsize.
  { rewrite Hfound, (left_id_L ∅ (∪)). apply size_list_to_set.
    apply NoDup_filter, prepare_text_NoDup. }
  rewrite truediv_ok by lia. simpl.
  change (fun x y : string * Q => Py.Qgtb (snd x) (snd y)) with score_gt.
  eexists. split; [done|]. unfold ranking_spec. cbv zeta.
  assert (matched apply_rules extensive langdata (prepare_text text)
          ≤ length (prepare_text text))%nat as Hm by apply length_filter.
  split_and!.
  - intros c s. rewrite sorted_reverse_perm.
    intros [[-> ->]|Hin]%dict_set_elem.
    + apply score_bounds; lia.
    + destruct (Hvals c s Hin) as [Hnil|?]; [|done]. by apply elem_of_nil in Hnil.
  - intros c d Hin.
    assert (c ∈ (dict_set "unk"
                   (inject_Z (Z.of_nat (length (prepare_text text))
                              - Z.of_nat (size found))
                    / inject_Z (Z.of_nat (length (prepare_text text))))%Q
                   myresults).*1) as Hc.
    { rewrite dict_set_keys, Hkeys. right. right.
      apply list_elem_of_fmap. by exists (c, d). }
    apply list_elem_of_fmap in Hc as ([c' s] & -> & Hc). exists s.
    by rewrite sorted_reverse_perm.
  - eexists. split_and!.
    + rewrite sorted_reverse_perm. apply dict_set_new.
    + intros s. rewrite sorted_reverse_perm. intros Hin.
      eapply NoDup_fst_unique; [|exact Hin|apply dict_set_new].
      by apply dict_set_NoDup.
    + rewrite Hsize. by apply unk_value.
  - apply sorted_reverse_sorted.
Qed.

Lemma two_keys {B} (l : list (string * B)) k1 k2 v1 v2 :
  k1 ≠ k2 → (k1, v1) ∈ l → (k2, v2) ∈ l →
  ∃ r0 r1, l !! 0%nat = Some r0 ∧ l !! 1%nat = Some r1.
Proof.
  intros Hne H1 H2. destruct l as [|r0 [|r1 l]].
  - by apply elem_of_nil in H1.
  - apply list_elem_of_singleton in H1, H2. congruence.
  - eauto.
Qed.

(** C7, amended. For a text whose sampled token set is not empty, a
    configuration with one language at least whose code is not ["unk"],
    and tables without empty lemma, [lang_detector] returns the ranking
    of a pass (the extensive one if extensive mode is on). In this
    ranking every score lies in [[0,1]], every configured language has
    an entry, there is exactly one score for ["unk"], equal to 1 minus
    the fraction of sampled tokens matched apply_rules by one configured language at
    least, and the scores are in descending order. *)
Theorem lang_detector_ranking text langdata extensive :
  prepare_text text ≠ [] →
  (∃ c d, (c, d) ∈ langdata ∧ c ≠ "unk") →
  well_formed langdata →
  ∃ results mode,
    lang_detector apply_rules text langdata extensive = Ok results ∧
    detect_pass apply_rules text langdata mode = Ok results ∧
    (extensive = true → mode = true) ∧
    ranking_spec apply_rules mode text langdata results.
Proof.
  intros Hne (c & d & Hin & Hc) Hwf.
  destruct (detect_pass_spec text langdata true Hne Hwf)
    as (rs_e & Hpass_e & Hspec_e).
  assert (lang_detector apply_rules text langdata true = Ok rs_e) as Hext.
  { by rewrite lang_detector_eq, Hpass_e. }
  destruct extensive.
  { by exists rs_e, true. }
  destruct (detect_pass_spec text langdata false Hne Hwf)
    as (rs_f & Hpass_f & Hspec_f).
  pose proof Hspec_f as (Hb & Hlangs & (unk & Hunk & Hrest) & Hsorted).
  destruct (Hlangs c d Hin) as [s Hs].
  destruct (two_keys rs_f c "unk" s unk Hc Hs Hunk) as (r0 & r1 & H0 & H1).
  rewrite lang_detector_eq, Hpass_f. simpl.
  unfold Py.getitem. rewrite H0, H1. simpl.
  destruct (Qeq_bool (snd r0) (snd r1)).
  - by exists rs_e, true.
  - by exists rs_f, false.
Qed.

End Ranking.

(** The claim of C7 fails without a configured language: the fast pass
    yields the single entry ["unk"], and the comparison of the first two
    entries raises [IndexError]. *)
Lemma lang_detector_no_language :
  prepare_text "cats" = ["cats"] ∧
  detect_pass no_rules "cats" [] false = Ok [("unk", 1 # 1)%Q] ∧
  lang_detector no_rules "cats" [] false = Raise IndexError.
Proof. split_and!; by vm_compute. Qed.

(** Two further inputs on which no ranking is returned: a single
    language whose code is ["unk"], and, in extensive mode, a table with
    an empty lemma. *)
Lemma lang_detector_degenerate :
  lang_detector no_rules "cats" [("unk", sample_tables "en")] false
  = Raise IndexError ∧
  lang_detector no_rules "abcdefghij"
    [("en", list_to_map [("abcdefg", "x"); ("hij", EmptyString)])] true
  = Raise IndexError.
Proof. split_and!; by vm_compute. Qed.

Lemma sample_well_formed :
  well_formed [("en", sample_tables "en"); ("de", sample_tables "de")].
Proof.
  intros c d Hin.
  assert (d = sample_tables "en" ∨ d = sample_tables "de") as [-> | ->].
  { apply elem_of_cons in Hin as [[= _ ->]|Hin]; [by left|].
    apply list_elem_of_singleton in Hin as [= _ ->]. by right. }
  - change (map_Forall (fun _ v => v ≠ EmptyString) (sample_tables "en")).
    apply (bool_decide_unpack _). by vm_compute.
  - change (map_Forall (fun _ v => v ≠ EmptyString) (sample_tables "de")).
    apply (bool_decide_unpack _). by vm_compute.
Qed.

Lemma lang_detector_ranking_witness :
  prepare_text "The cats are running" ≠ [] ∧
  well_formed [("en", sample_tables "en"); ("de", sample_tables "de")] ∧
  ∃ results mode,
    lang_detector no_rules "The cats are running"
      [("en", sample_tables "en"); ("de", sample_tables "de")] false
    = Ok results ∧
    detect_pass no_rules "The cats are running"
      [("en", sample_tables "en"); ("de", sample_tables "de")] mode
    = Ok results ∧
    (false = true → mode = true) ∧
    ranking_spec no_rules mode "The cats are running"
      [("en", sample_tables "en"); ("de", sample_tables "de")] results.
Proof.
  assert (prepare_text "The cats are running" ≠ []) as Hne by (by vm_compute).
  split; [exact Hne|]. split; [exact sample_well_formed|].
  apply (lang_detector_ranking no_rules "The cats are running"
           [("en", sample_tables "en"); ("de", sample_tables "de")] false Hne).
  - exists "en", (sample_tables "en"). split; [by left|discriminate].
  - exact sample_well_formed.
Defined.

(** * Further properties *)

(** ** Bounds of the edit distance *)

Lemma lev_upper {A} `{EqDecision A} (s t : list A) :
  (lev s t ≤ Nat.max (length s) (length t))%nat.
Proof.
  revert t. induction s as [|a s IHs]; intros t.
  - rewrite lev_nil_l. lia.
  - destruct t as [|b t]; [rewrite lev_nil_r; lia|].
    rewrite lev_cons_cons. pose proof (IHs t).
    unfold min3, subst_cost. cbn [length]. case_decide; lia.
Qed.

(** X1. The distance between two strings is at least the difference of
    their lengths and at most the length of the longer one. *)
Theorem levenshtein_dist_bounds a b :
  ∃ d, _levenshtein_dist a b = Ok d ∧
       Z.abs (Py.len a - Py.len b) ≤ d ≤ Z.max (Py.len a) (Py.len b).
Proof.
  rewrite _levenshtein_dist_lev, !len_chars. eexists. split; [done|].
  pose proof (lev_length_diff (Py.chars a) (Py.chars b)).
  pose proof (lev_upper (Py.chars a) (Py.chars b)). lia.
Qed.

(** ** The exceptions of the resolver, again *)

Create HintDb raises_ix discriminated.

Ltac raises_ix_step :=
  first
    [ apply ro_ok
    | apply ro_raise; reflexivity
    | solve [eauto with raises_ix]
    | apply ro_bind; [|intros ?]
    | match goal with
      | |- raises_only _ (if ?b then _ else _) => destruct b
      | |- raises_only _ (match ?x with _ => _ end) => destruct x
      | |- raises_only _ (let '(_, _) := ?x in _) => destruct x
      end ].

Ltac raises_ix := repeat raises_ix_step.

Lemma first_ix s : raises_only index_only (Py.first s).
Proof. unfold Py.first. raises_ix. Qed.

Lemma getitem_ix {A} (l : list A) j : raises_only index_only (Py.getitem l j).
Proof. unfold Py.getitem. raises_ix. Qed.

Lemma setitem_ix {A} (l : list A) j v :
  raises_only index_only (Py.setitem l j v).
Proof. unfold Py.setitem. raises_ix. Qed.

Lemma getlast_ix {A} (l : list A) : raises_only index_only (Py.getlast l).
Proof. unfold Py.getlast. raises_ix. Qed.

#[export] Hint Resolve first_ix getitem_ix setitem_ix getlast_ix : raises_ix.

Lemma _simple_search_ix {U : Py.Unicode} token datadict initial :
  raises_only index_only (_simple_search token datadict initial).
Proof. unfold _simple_search. raises_ix. Qed.

Lemma _greedy_search_ix candidate datadict steps distance :
  raises_only index_only (_greedy_search candidate datadict steps distance).
Proof.
  destruct (_greedy_search_ok candidate datadict steps distance) as [r ->].
  apply ro_ok.
Qed.

#[export] Hint Resolve _simple_search_ix _greedy_search_ix : raises_ix.

Lemma decompose_body_ix {U : Py.Unicode} token datadict affixlen count st :
  raises_only index_only (decompose_body token datadict affixlen count st).
Proof. unfold decompose_body. raises_ix. Qed.

#[export] Hint Resolve decompose_body_ix : raises_ix.

Lemma decompose_loop_ix {U : Py.Unicode} token datadict affixlen counts : ∀ st,
  raises_only index_only (decompose_loop token datadict affixlen counts st).
Proof. induction counts as [|count rest IH]; intros st; simpl; raises_ix. Qed.

Lemma _decompose_ix {U : Py.Unicode} token datadict affixlen :
  raises_only index_only (_decompose token datadict affixlen).
Proof. apply decompose_loop_ix. Qed.

#[export] Hint Resolve _decompose_ix : raises_ix.

Lemma affix_loop_ix {U : Py.Unicode} wordform datadict lengths : ∀ st,
  raises_only index_only (affix_loop wordform datadict lengths st).
Proof. induction lengths as [|len rest IH]; intros st; simpl; raises_ix. Qed.

(** The loop of [_affix_search] leaves its variables unbound only if it
    makes no round. *)
Lemma affix_loop_unbound {U : Py.Unicode} wordform datadict lengths : ∀ st,
  affix_loop wordform datadict lengths st = Ok None → lengths = [] ∧ st = None.
Proof.
  induction lengths as [|len rest IH]; intros st; simpl.
  - by intros [= ->].
  - destruct (_decompose wordform datadict len) as [[[c|] p]|e]; simpl;
      try discriminate.
    intros Hloop. by destruct (IH _ Hloop).
Qed.

Lemma range_down_nonempty maxlen : 1 < maxlen → Py.range_down maxlen 1 ≠ [].
Proof.
  intros Hmax. unfold Py.range_down.
  destruct (Z.to_nat (maxlen - 1)) eqn:Hn; [lia|done].
Qed.

Lemma _affix_search_ix {U : Py.Unicode} wordform datadict maxlen :
  1 < maxlen → raises_only index_only (_affix_search wordform datadict maxlen).
Proof.
  intros Hmax. unfold _affix_search.
  destruct (affix_loop wordform datadict (Py.range_down maxlen 1) None)
    as [st|e] eqn:Hloop; simpl.
  - destruct st as [[[c|] [p|]]|]; try apply ro_ok.
    apply affix_loop_unbound in Hloop as [Hnil _].
    by apply range_down_nonempty in Hmax.
  - intros e' [= <-]. by apply (affix_loop_ix _ _ _ _ _ Hloop).
Qed.

Lemma _affix_search_AFFIXLEN_ix {U : Py.Unicode} wordform datadict :
  raises_only index_only (_affix_search wordform datadict AFFIXLEN).
Proof. by apply _affix_search_ix. Qed.

Lemma _affix_search_LONGAFFIXLEN_ix {U : Py.Unicode} wordform datadict :
  raises_only index_only (_affix_search wordform datadict LONGAFFIXLEN).
Proof. by apply _affix_search_ix. Qed.

#[export] Hint Resolve affix_loop_ix _affix_search_AFFIXLEN_ix
  _affix_search_LONGAFFIXLEN_ix : raises_ix.

Lemma _dehyphen_ix {U : Py.Unicode} token datadict greedy :
  raises_only index_only (_dehyphen token datadict greedy).
Proof. unfold _dehyphen. raises_ix. Qed.

Lemma suffix_loop_ix {U : Py.Unicode} token datadict counts : ∀ st,
  raises_only index_only (suffix_loop token datadict counts st).
Proof. induction counts as [|count rest IH]; intros st; simpl; raises_ix. Qed.

(** [lastpart] is bound as soon as [lastcount] is positive. *)
Lemma suffix_loop_bound {U : Py.Unicode} token datadict counts : ∀ st r,
  suffix_loop token datadict counts st = Ok r →
  (∀ count, count ∈ counts → 0 < count) →
  (snd st > 0 → fst st ≠ None) →
  snd r > 0 → fst r ≠ None.
Proof.
  induction counts as [|count rest IH]; intros st r; simpl.
  - intros [= <-] _ Hst. done.
  - destruct (_simple_search _ datadict false) as [part|e]; simpl; [|done].
    intros Hloop Hcounts Hst. eapply IH; [exact Hloop| |].
    + intros c Hin. apply Hcounts. by right.
    + destruct part as [p|]; [|done]. case_match; [|done].
      simpl. intros _. done.
Qed.

Lemma _suffix_search_ix {U : Py.Unicode} token datadict :
  raises_only index_only (_suffix_search token datadict).
Proof.
  unfold _suffix_search.
  destruct (suffix_loop token datadict _ (None, 0))
    as [[lastpart lastcount]|e] eqn:Hloop; simpl.
  - destruct (Z.gtb_spec lastcount 0) as [Hpos|]; [|apply ro_ok].
    destruct lastpart; [apply ro_ok|]. exfalso.
    apply (suffix_loop_bound _ _ _ _ _ Hloop); simpl; [|lia|lia|done].
    intros count Hin%elem_of_range. unfold MINCOMPLEN in Hin. lia.
  - intros e' [= <-]. by apply (suffix_loop_ix _ _ _ _ _ Hloop).
Qed.

#[export] Hint Resolve _dehyphen_ix _suffix_search_ix : raises_ix.

Lemma _return_lemma_ix {U : Py.Unicode}
    apply_rules token datadict greedy lang initial :
  raises_only index_only
    (_return_lemma apply_rules token datadict greedy lang initial).
Proof.
  unfold _return_lemma.
  destruct (Py.isnumeric token); [apply ro_ok|].
  apply ro_bind; [apply _simple_search_ix|]. intros candidate.
  apply ro_bind; [raises_ix|]. intros candidate'.
  destruct ((Py.len token <=? 8) || negb greedy); [apply ro_ok|].
  destruct candidate'; [raises_ix|].
  apply ro_bind; [|intros; raises_ix].
  case_bool_decide; eauto with raises_ix.
Qed.

#[export] Hint Resolve _return_lemma_ix : raises_ix.

Lemma lemmatize_loop_ix {U : Py.Unicode}
    apply_rules token langdata greedy initial :
  raises_only index_only
    (lemmatize_loop apply_rules token langdata greedy initial).
Proof. induction langdata as [|l rest IH]; simpl; raises_ix. Qed.

(** X2. [_return_lemma] raises nothing but [IndexError], and raises it
    only for the empty token or on a table that holds an empty lemma. *)
Theorem _return_lemma_errors {U : Py.Unicode}
    apply_rules token datadict greedy lang initial e :
  _return_lemma apply_rules token datadict greedy lang initial = Raise e →
  e = IndexError ∧ (token = EmptyString ∨ ¬ nonempty_values datadict).
Proof.
  intros Hraise. split.
  - by apply (_return_lemma_ix _ _ _ _ _ _ _ Hraise).
  - destruct (decide (token = EmptyString)) as [|Htok]; [by left|right].
    intros Hd.
    destruct (_return_lemma_returns apply_rules token datadict greedy lang
                initial Hd Htok) as [o Ho].
    congruence.
Qed.

Lemma _return_lemma_errors_witness :
  _return_lemma no_rules "abcdefghij"
    (list_to_map [("abcdefg", "x"); ("hij", EmptyString)]) true "en" false
  = Raise IndexError ∧
  (IndexError = IndexError ∧
   ("abcdefghij" = EmptyString ∨
    ¬ nonempty_values (list_to_map [("abcdefg", "x"); ("hij", EmptyString)]))).
Proof.
  assert (_return_lemma no_rules "abcdefghij"
            (list_to_map [("abcdefg", "x"); ("hij", EmptyString)]) true "en" false
          = Raise IndexError) as Hraise by (by vm_compute).
  split; [exact Hraise|].
  exact (_return_lemma_errors no_rules "abcdefghij"
           (list_to_map [("abcdefg", "x"); ("hij", EmptyString)]) true "en" false
           IndexError Hraise).
Defined.

(** X3. [_affix_search] reads its result before any assignment when
    [maxlen] is at most 1, and raises [UnboundLocalError]. For a larger
    [maxlen] it raises nothing but [IndexError], and it returns [None]
    for a word of at most [MINCOMPLEN] characters. *)
Theorem _affix_search_edges {U : Py.Unicode} wordform datadict maxlen :
  (maxlen ≤ 1 → _affix_search wordform datadict maxlen = Raise UnboundLocalError) ∧
  (1 < maxlen →
   raises_only index_only (_affix_search wordform datadict maxlen) ∧
   (Py.len wordform ≤ MINCOMPLEN →
    _affix_search wordform datadict maxlen = Ok None)).
Proof.
  split.
  - intros Hmax. unfold _affix_search, Py.range_down.
    by replace (Z.to_nat (maxlen - 1)) with 0%nat by lia.
  - intros Hmax. split; [by apply _affix_search_ix|].
    intros Hlen. unfold _affix_search.
    assert (∀ affixlen, _decompose wordform datadict affixlen = Ok (None, None))
      as Hdec.
    { intros affixlen. unfold _decompose, Py.range.
      by replace (Z.to_nat (Py.len wordform - MINCOMPLEN + 1 - 1)) with 0%nat
        by lia. }
    assert (∀ lengths st, lengths ≠ [] →
              affix_loop wordform datadict lengths st = Ok (Some (None, None)))
      as Hloop.
    { induction lengths as [|len rest IH]; intros st Hne; [done|].
      simpl. rewrite Hdec. simpl. destruct rest as [|len' rest]; [done|].
      by apply IH. }
    rewrite Hloop by (by apply range_down_nonempty). done.
Qed.

Lemma _affix_search_edges_witness :
  _affix_search "unbelievably" (sample_tables "en") 1 = Raise UnboundLocalError ∧
  _affix_search "cats" (sample_tables "en") 2 = Ok None.
Proof.
  split.
  - apply (proj1 (_affix_search_edges "unbelievably" (sample_tables "en") 1)).
    lia.
  - apply (proj2 (_affix_search_edges "cats" (sample_tables "en") 2)); [lia|].
    by vm_compute.
Defined.

(** ** The tables in [LANG_DATA] *)

Section Tables.
Variable _load_pickle : string → gmap string string.

Lemma _load_data_codes langs :
  code <$> _load_data _load_pickle langs = filter (fun c => c ∈ LANGLIST) langs.
Proof.
  unfold _load_data. induction langs as [|c langs IH]; simpl; [done|].
  rewrite fmap_app, IH, filter_cons. case_bool_decide; by case_decide.
Qed.

Lemma _load_data_filter langs :
  _load_data _load_pickle (filter (fun c => c ∈ LANGLIST) langs)
  = _load_data _load_pickle langs.
Proof.
  unfold _load_data. induction langs as [|c langs IH]; simpl; [done|].
  rewrite filter_cons. case_decide as Hc.
  - simpl. by rewrite IH.
  - by rewrite bool_decide_eq_false_2.
Qed.

Lemma _load_data_consistent langs :
  consistent _load_pickle (_load_data _load_pickle langs).
Proof. unfold consistent. by rewrite _load_data_codes, _load_data_filter. Qed.

Lemma _update_lang_data_inv LANG_DATA lang codes LANG_DATA' :
  _update_lang_data _load_pickle LANG_DATA lang = Ok (codes, LANG_DATA') →
  (lang = PStr (default EmptyString (head codes)) ∧ length codes = 1%nat
   ∨ lang = PTuple codes) ∧
  (LANG_DATA' = _load_data _load_pickle codes
   ∨ LANG_DATA' = LANG_DATA ∧ LANG_DATA ≠ [] ∧ code <$> LANG_DATA = codes).
Proof.
  unfold _update_lang_data. destruct lang as [s|l|]; [| |done].
  - destruct LANG_DATA as [|l0 LD]; simpl.
    + intros [= <- <-]. split; [by left|by left].
    + case_bool_decide as Hc; simpl; intros [= <- <-].
      * split; [by left|]. right. done.
      * split; [by left|by left].
  - destruct LANG_DATA as [|l0 LD]; simpl.
    + intros [= <- <-]. split; [by right|by left].
    + case_bool_decide as Hc; simpl; intros [= <- <-].
      * split; [by right|]. right. done.
      * split; [by right|by left].
Qed.

Lemma _update_lang_data_unfold LANG_DATA lang codes LANG_DATA' LD :
  _update_lang_data _load_pickle LANG_DATA lang = Ok (codes, LANG_DATA') →
  _update_lang_data _load_pickle LD lang
  = if match LD with [] => true | _ => false end
       || negb (bool_decide (code <$> LD = codes))
    then Ok (codes, _load_data _load_pickle codes)
    else Ok (codes, LD).
Proof.
  intros Hupd. destruct (_update_lang_data_inv _ _ _ _ Hupd) as [Hlang _].
  unfold _update_lang_data.
  destruct Hlang as [[-> Hlen]| ->]; [|done].
  destruct codes as [|c [|c' codes]]; done.
Qed.

(** X4. Once [_update_lang_data] has run for [lang], running it again
    for the same [lang] leaves [LANG_DATA] as it is. *)
Theorem _update_lang_data_stable LANG_DATA lang codes LANG_DATA' :
  _update_lang_data _load_pickle LANG_DATA lang = Ok (codes, LANG_DATA') →
  _update_lang_data _load_pickle LANG_DATA' lang = Ok (codes, LANG_DATA').
Proof.
  intros Hupd. rewrite (_update_lang_data_unfold _ _ _ _ LANG_DATA' Hupd).
  destruct (_update_lang_data_inv _ _ _ _ Hupd)
    as [_ [->|(-> & Hne & Hcodes)]].
  - destruct (_ || _); done.
  - destruct LANG_DATA; [done|]. simpl. by rewrite bool_decide_eq_true_2.
Qed.

Lemma _update_lang_data_consistent LANG_DATA lang codes LANG_DATA' :
  consistent _load_pickle LANG_DATA →
  _update_lang_data _load_pickle LANG_DATA lang = Ok (codes, LANG_DATA') →
  LANG_DATA' = _load_data _load_pickle codes.
Proof.
  intros Hcons Hupd.
  destruct (_update_lang_data_inv _ _ _ _ Hupd)
    as [_ [->|(-> & _ & Hcodes)]]; [done|].
  by rewrite <-Hcodes.
Qed.

End Tables.

Lemma _update_lang_data_stable_witness :
  _update_lang_data sample_tables [] (PTuple ["xx"; "en"])
  = Ok (["xx"; "en"], [mkLangDict "en" (sample_tables "en")]) ∧
  _update_lang_data sample_tables [mkLangDict "en" (sample_tables "en")]
    (PTuple ["xx"; "en"])
  = Ok (["xx"; "en"], [mkLangDict "en" (sample_tables "en")]).
Proof.
  split; [reflexivity|].
  apply (_update_lang_data_stable sample_tables [] (PTuple ["xx"; "en"]) ["xx"; "en"]
           [mkLangDict "en" (sample_tables "en")]).
  reflexivity.
Defined.


(** ** [lemmatize] and [is_known] *)

Lemma _simple_search_variant {U : Py.Unicode} token d :
  token ≠ EmptyString →
  _simple_search token d false
  = Ok (match d !! token with
        | Some c => Some c
        | None => d !! case_variant token
        end).
Proof.
  intros Htok. unfold _simple_search, case_variant.
  destruct (d !! token); [done|].
  destruct token as [|c0 token]; [done|]. simpl.
  by destruct (Py.isupper_char c0).
Qed.

Lemma _dehyphen_returns_nongreedy {U : Py.Unicode}
    token d : returns (_dehyphen token d false).
Proof.
  unfold _dehyphen.
  destruct (negb (contains "-" token) && negb (contains "_" token)) eqn:Hh;
    [apply returns_ok|].
  assert (token ≠ EmptyString) as Htok by (intros ->; by vm_compute in Hh).
  pose proof (hyphen_split_nonempty token) as Hsplit.
  destruct (getlast_returns (hyphen_split token) Hsplit) as [lastseg Hlast].
  rewrite Hlast. simpl.
  destruct (1 <? Z.of_nat (length (hyphen_split token))); simpl;
    [|apply returns_ok].
  destruct (Z.ltb_spec 0 (Py.len lastseg)) as [Hpos|]; [|apply returns_ok].
  apply returns_bind; [by apply first_returns|]. intros c0 _.
  destruct (d !! _); [apply returns_ok|].
  apply returns_bind; [apply _simple_search_returns; by apply len_pos_nonempty|].
  intros sub _. apply returns_bind.
  - destruct sub; apply returns_ok.
  - intros [sub'|] _; [|apply returns_ok].
    apply returns_bind; [|intros; apply returns_ok].
    unfold Py.setitem. rewrite decide_True; [apply returns_ok|].
    destruct (hyphen_split token); [done|]. simpl. lia.
Qed.

(** Without [greedy], [_return_lemma] returns as soon as its first
    lookup does, and finds a candidate if that lookup does. *)
Lemma _return_lemma_nongreedy {U : Py.Unicode}
    apply_rules token d lang initial o :
  _simple_search token d initial = Ok o →
  ∃ o', _return_lemma apply_rules token d false lang initial = Ok o' ∧
        (is_Some o → is_Some o').
Proof.
  intros Hs. unfold _return_lemma.
  destruct (Py.isnumeric token); [by eauto|].
  rewrite Hs. simpl. rewrite orb_true_r.
  destruct o as [c|]; simpl.
  - destruct (_dehyphen_returns_nongreedy c d) as [[n|] ->]; simpl; eauto.
  - destruct (apply_rules token lang) as [c|].
    + destruct (_dehyphen_returns_nongreedy c d) as [[n|] ->]; simpl;
        eexists; (split; [done|]); by intros [].
    + destruct (_dehyphen_returns_nongreedy token d) as [o' ->]; simpl.
      eexists. split; [done|]. by intros [].
Qed.

(** A hit of the first lookup is never lost. *)
Lemma _return_lemma_hit {U : Py.Unicode}
    apply_rules token d greedy lang initial c :
  _simple_search token d initial = Ok (Some c) →
  _return_lemma apply_rules token d greedy lang initial ≠ Ok None.
Proof.
  intros Hs. unfold _return_lemma.
  destruct (Py.isnumeric token); [done|].
  rewrite Hs. simpl.
  destruct (_dehyphen c d greedy) as [[n|]|e]; simpl; [| |done].
  - destruct (_ || _); [done|].
    by destruct (_greedy_search n d 1 5).
  - destruct (_ || _); [done|].
    by destruct (_greedy_search c d 1 5).
Qed.

Section Public.
Context {U : Py.Unicode}.
Variable apply_rules : string → string → option string.
Variable _load_pickle : string → gmap string string.

(** X5. [lemmatize] and [is_known] raise [TypeError] exactly when the
    token is not a string or [lang] is neither a string nor a tuple. *)
Theorem public_type_errors LANG_DATA token lang greedy silent initial :
  (fst (lemmatize apply_rules _load_pickle LANG_DATA token lang
          greedy silent initial) = Raise TypeError
   ↔ (∀ s, token ≠ PStr s) ∨ lang = PNone) ∧
  (fst (is_known _load_pickle LANG_DATA token lang) = Raise TypeError
   ↔ (∀ s, token ≠ PStr s) ∨ lang = PNone).
Proof.
  assert (∀ e, _update_lang_data _load_pickle LANG_DATA lang = Raise e →
               lang = PNone) as Hraise.
  { intros e. unfold _update_lang_data. destruct lang; [| |done];
      by destruct (_ || _). }
  split.
  - unfold lemmatize. destruct token as [token|l|]; simpl.
    2,3: split; [intros _; left; by intros s|done].
    destruct (_update_lang_data _load_pickle LANG_DATA lang)
      as [[codes LD]|e] eqn:Hupd; simpl.
    + split; [|intros [Hs| ->]; [by destruct (Hs token)|discriminate Hupd]].
      intros Hr. exfalso.
      destruct (lemmatize_loop apply_rules token LD greedy initial)
        as [[c|]|e] eqn:Hloop; simpl in Hr; [done| |].
      * destruct silent; simpl in Hr; [|done].
        unfold Py.getitem in Hr. destruct (codes !! 0%nat); simpl in Hr;
          [by case_bool_decide|done].
      * injection Hr as ->. by apply lemmatize_loop_ix in Hloop.
    + rewrite (_update_lang_data_type _ _ _ _ Hupd).
      split; [intros _; right; by eapply Hraise|done].
  - unfold is_known. destruct token as [token|l|]; simpl.
    2,3: split; [intros _; left; by intros s|done].
    destruct (_update_lang_data _load_pickle LANG_DATA lang)
      as [[codes LD]|e] eqn:Hupd; simpl.
    + split; [|intros [Hs| ->]; [by destruct (Hs token)|discriminate Hupd]].
      intros Hr. exfalso. clear Hupd.
      induction LD as [|l LD IH]; simpl in Hr; [done|].
      destruct (_simple_search token (dict l) false) as [[c|]|e] eqn:Hs;
        simpl in Hr; [done|by apply IH|].
      injection Hr as ->. by apply _simple_search_ix in Hs.
    + rewrite (_update_lang_data_type _ _ _ _ Hupd).
      split; [intros _; right; by eapply Hraise|done].
Qed.

Lemma is_known_loop_spec token langdata :
  token ≠ EmptyString →
  ∃ b, is_known_loop token langdata = Ok b ∧
       (b = true ↔ ∃ l, l ∈ langdata ∧ known_in token (dict l)).
Proof.
  intros Htok. induction langdata as [|l rest (b & IH & Hb)]; simpl.
  - exists false. split; [done|]. split; [done|].
    intros (l & Hin & _). by apply elem_of_nil in Hin.
  - rewrite (_simple_search_variant _ _ Htok).
    assert (known_in token (dict l)
            ↔ is_Some (match dict l !! token with
                       | Some c => Some c
                       | None => dict l !! case_variant token
                       end)) as Hknown.
    { unfold known_in. destruct (dict l !! token) eqn:Hget.
      - split; [eauto|by left].
      - split; [intros [[? [=]]|?]; done|by right]. }
    destruct (match dict l !! token with
              | Some c => Some c
              | None => dict l !! case_variant token
              end) as [c|]; simpl.
    + exists true. split; [done|]. split; [|done]. intros _.
      exists l. split; [by left|]. apply Hknown. eauto.
    + exists b. split; [done|]. rewrite Hb. split.
      * intros (l' & Hin & Hk). exists l'. split; [by right|done].
      * intros (l' & Hin & Hk). apply elem_of_cons in Hin as [->|Hin].
        -- apply Hknown in Hk. by destruct Hk.
        -- eauto.
Qed.

(** X6. For a token that is not empty, [is_known] returns, and returns
    [True] exactly when one of the loaded tables has the token, or its
    case variant, as a key: the lower-case form of a token that begins
    with an upper-case letter, the capitalized form of any other. *)
Theorem is_known_spec LANG_DATA token lang codes LANG_DATA' :
  _update_lang_data _load_pickle LANG_DATA lang = Ok (codes, LANG_DATA') →
  token ≠ EmptyString →
  ∃ b, is_known _load_pickle LANG_DATA (PStr token) lang = (Ok b, LANG_DATA') ∧
       (b = true ↔ ∃ l, l ∈ LANG_DATA' ∧ known_in token (dict l)).
Proof.
  intros Hupd Htok. unfold is_known. rewrite Hupd.
  destruct (is_known_loop_spec token LANG_DATA' Htok) as (b & -> & Hb).
  by exists b.
Qed.

(** X7. When [is_known] returns [True] for a token, [lemmatize] finds a
    candidate for it: called for the same [lang] without the
    sentence-initial flag, it never raises [ValueError], and without
    [greedy] it returns. *)
Theorem is_known_lemmatize LANG_DATA token lang :
  fst (is_known _load_pickle LANG_DATA (PStr token) lang) = Ok true →
  (∀ silent, ∃ lemma,
      fst (lemmatize apply_rules _load_pickle LANG_DATA (PStr token) lang
             false silent false) = Ok lemma) ∧
  (∀ greedy silent,
      fst (lemmatize apply_rules _load_pickle LANG_DATA (PStr token) lang
             greedy silent false) ≠ Raise ValueError).
Proof.
  unfold is_known, lemmatize.
  destruct (_update_lang_data _load_pickle LANG_DATA lang)
    as [[codes LD]|e]; simpl; [|done].
  intros Hknown. split.
  - intros silent.
    assert (∃ c, lemmatize_loop apply_rules token LD false false = Ok (Some c))
      as [c ->]; [|by eauto].
    induction LD as [|l LD IH]; simpl in *; [done|].
    destruct (_simple_search token (dict l) false) as [o|] eqn:Hs; [|done].
    destruct (_return_lemma_nongreedy apply_rules token (dict l) (code l)
                false o Hs) as (o' & -> & Ho').
    simpl in *. destruct o as [c|].
    + destruct Ho' as [c' ->]; eauto.
    + destruct o' as [c'|]; eauto.
  - intros greedy silent.
    assert (lemmatize_loop apply_rules token LD greedy false ≠ Ok None) as Hloop.
    { induction LD as [|l LD IH]; simpl in *; [done|].
      destruct (_simple_search token (dict l) false) as [[c|]|] eqn:Hs;
        simpl in *; [| |done].
      - pose proof (_return_lemma_hit apply_rules token (dict l) greedy
                      (code l) false c Hs).
        by destruct (_return_lemma apply_rules token (dict l) greedy (code l)
                       false) as [[?|]|].
      - destruct (_return_lemma apply_rules token (dict l) greedy (code l)
                    false) as [[?|]|]; simpl; [done| |done].
        by apply IH. }
    destruct (lemmatize_loop apply_rules token LD greedy false)
      as [[c|]|e] eqn:Hl; simpl; [done|done|].
    intros [= ->]. by apply lemmatize_loop_ix in Hl.
Qed.

(** X8. When [LANG_DATA] holds the tables stored for its codes, as it
    does initially and after every call, the result of [lemmatize] is
    the one obtained from the empty [LANG_DATA], and [LANG_DATA] holds
    the stored tables afterwards. *)
Theorem lemmatize_history_free LANG_DATA token lang greedy silent initial :
  consistent _load_pickle LANG_DATA →
  fst (lemmatize apply_rules _load_pickle LANG_DATA token lang
         greedy silent initial)
  = fst (lemmatize apply_rules _load_pickle [] token lang greedy silent initial)
  ∧ consistent _load_pickle
      (snd (lemmatize apply_rules _load_pickle LANG_DATA token lang
              greedy silent initial)).
Proof.
  intros Hcons. unfold lemmatize. destruct token as [token|l|]; [|done..].
  destruct (_update_lang_data _load_pickle LANG_DATA lang)
    as [[codes LD]|e] eqn:Hupd.
  - pose proof (_update_lang_data_consistent _ _ _ _ _ Hcons Hupd) as ->.
    assert (_update_lang_data _load_pickle [] lang
            = Ok (codes, _load_data _load_pickle codes)) as ->.
    { destruct (_update_lang_data_inv _ _ _ _ _ Hupd) as [Hlang _].
      unfold _update_lang_data. destruct Hlang as [[-> Hlen]| ->]; [|done].
      destruct codes as [|c [|c' codes]]; done. }
    split; [done|]. apply _load_data_consistent.
  - pose proof (_update_lang_data_type _ _ _ _ Hupd) as ->.
    assert (lang = PNone) as ->.
    { revert Hupd. unfold _update_lang_data. destruct lang; [| |done];
        by destruct (_ || _). }
    done.
Qed.

Lemma lemmatize_loop_total token langdata greedy initial :
  token ≠ EmptyString →
  greedy = false ∨ Forall (fun l => nonempty_values (dict l)) langdata →
  returns (lemmatize_loop apply_rules token langdata greedy initial).
Proof.
  intros Htok Hsafe.
  induction langdata as [|l LD IH]; simpl; [apply returns_ok|].
  apply returns_bind.
  - destruct Hsafe as [->|Hall].
    + destruct (_simple_search_returns token (dict l) initial Htok) as [o Hs].
      destruct (_return_lemma_nongreedy apply_rules token (dict l) (code l)
                  initial o Hs) as (o' & -> & _).
      apply returns_ok.
    + apply _return_lemma_returns; [|done]. by inversion Hall.
  - intros [c|] _; [apply returns_ok|]. apply IH.
    destruct Hsafe as [->|Hall]; [by left|right]. by inversion Hall.
Qed.

(** X9. In silent mode [lemmatize] returns for every token that is not
    empty, once [lang] names a language, if [greedy] is off or no
    loaded table holds an empty lemma. *)
Theorem lemmatize_silent_total
    LANG_DATA token lang greedy initial codes LANG_DATA' :
  _update_lang_data _load_pickle LANG_DATA lang = Ok (codes, LANG_DATA') →
  codes ≠ [] →
  token ≠ EmptyString →
  greedy = false ∨ Forall (fun l => nonempty_values (dict l)) LANG_DATA' →
  ∃ lemma,
    fst (lemmatize apply_rules _load_pickle LANG_DATA (PStr token) lang
           greedy true initial)
    = Ok lemma.
Proof.
  intros Hupd Hcodes Htok Hsafe. unfold lemmatize. rewrite Hupd.
  destruct (lemmatize_loop_total token LANG_DATA' greedy initial Htok Hsafe)
    as [o ->].
  simpl. destruct o as [c|]; [by eauto|]. simpl.
  destruct codes as [|lang0 codes]; [done|]. simpl.
  case_bool_decide; eauto.
Qed.

End Public.

Lemma is_known_spec_witness :
  _update_lang_data sample_tables [] (PStr "en")
  = Ok (["en"], [mkLangDict "en" (sample_tables "en")]) ∧
  "Cats" ≠ EmptyString ∧
  ∃ b, is_known sample_tables [] (PStr "Cats") (PStr "en")
       = (Ok b, [mkLangDict "en" (sample_tables "en")]) ∧
       (b = true ↔ ∃ l, l ∈ [mkLangDict "en" (sample_tables "en")]
                        ∧ known_in "Cats" (dict l)).
Proof.
  split; [reflexivity|]. split; [discriminate|].
  apply (is_known_spec sample_tables [] "Cats" (PStr "en") ["en"]
           [mkLangDict "en" (sample_tables "en")]); [reflexivity|discriminate].
Defined.

Lemma is_known_lemmatize_witness :
  fst (is_known sample_tables [] (PStr "Cats") (PStr "en")) = Ok true ∧
  (∃ lemma, fst (lemmatize no_rules sample_tables [] (PStr "Cats") (PStr "en")
                   false false false) = Ok lemma) ∧
  fst (lemmatize no_rules sample_tables [] (PStr "Cats") (PStr "en")
         true false false) ≠ Raise ValueError.
Proof.
  assert (fst (is_known sample_tables [] (PStr "Cats") (PStr "en")) = Ok true)
    as Hknown by reflexivity.
  split; [exact Hknown|].
  destruct (is_known_lemmatize no_rules sample_tables [] "Cats" (PStr "en")
              Hknown) as [Hfound Hnever].
  split; [apply Hfound|apply Hnever].
Defined.

Lemma lemmatize_history_free_witness :
  consistent sample_tables [mkLangDict "de" (sample_tables "de")] ∧
  fst (lemmatize no_rules sample_tables [mkLangDict "de" (sample_tables "de")]
         (PStr "cats") (PStr "en") false true false)
  = fst (lemmatize no_rules sample_tables [] (PStr "cats") (PStr "en")
           false true false).
Proof.
  assert (consistent sample_tables [mkLangDict "de" (sample_tables "de")])
    as Hcons by reflexivity.
  split; [exact Hcons|].
  apply (lemmatize_history_free no_rules sample_tables
           [mkLangDict "de" (sample_tables "de")] (PStr "cats") (PStr "en")
           false true false Hcons).
Defined.

Lemma lemmatize_silent_total_witness :
  _update_lang_data sample_tables [] (PStr "es")
  = Ok (["es"], [mkLangDict "es" (sample_tables "es")]) ∧
  ∃ lemma,
    fst (lemmatize no_rules sample_tables [] (PStr "Perros-y-gatos") (PStr "es")
           false true true)
    = Ok lemma.
Proof.
  split; [reflexivity|].
  apply (lemmatize_silent_total no_rules sample_tables [] "Perros-y-gatos"
           (PStr "es") false true ["es"] [mkLangDict "es" (sample_tables "es")]);
    [reflexivity|discriminate|discriminate|by left].
Defined.


(** ** [text_lemmatizer] and [lemma_iterator] *)

Section Texts.
Context {U : Py.Unicode}.
Variable apply_rules : string → string → option string.
Variable _load_pickle : string → gmap string string.
Variable simple_tokenizer : string → list string.

(** The result of [lemmatize] is the same after an earlier call for the
    same [lang]. *)
Lemma lemmatize_rerun LANG_DATA token lang greedy silent initial
    token' greedy' silent' initial' :
  fst (lemmatize apply_rules _load_pickle
         (snd (lemmatize apply_rules _load_pickle LANG_DATA (PStr token) lang
                 greedy silent initial))
         (PStr token') lang greedy' silent' initial')
  = fst (lemmatize apply_rules _load_pickle LANG_DATA (PStr token') lang
           greedy' silent' initial').
Proof.
  unfold lemmatize.
  destruct (_update_lang_data _load_pickle LANG_DATA lang)
    as [[codes LD]|e] eqn:Hupd; simpl; [|by rewrite Hupd].
  rewrite (_update_lang_data_unfold _ _ _ _ _ LD Hupd).
  destruct (_update_lang_data_inv _ _ _ _ _ Hupd)
    as [_ [->|(-> & Hne & Hcodes)]].
  - destruct (_ || _); done.
  - destruct LANG_DATA; [done|]. simpl. by rewrite bool_decide_eq_true_2.
Qed.

Lemma text_lemmatizer_loop_pointwise
    LANG_DATA0 LANG_DATA matches lang greedy silent last acc lemmata :
  (∀ token initial,
      fst (lemmatize apply_rules _load_pickle LANG_DATA (PStr token) lang
             greedy silent initial)
      = fst (lemmatize apply_rules _load_pickle LANG_DATA0 (PStr token) lang
               greedy silent initial)) →
  fst (text_lemmatizer_loop apply_rules _load_pickle LANG_DATA matches lang
         greedy silent last acc) = Ok lemmata
  ↔ ∃ ys, lemmata = acc ++ ys ∧
          Forall2 (fun ti lemma =>
                     fst (lemmatize apply_rules _load_pickle LANG_DATA0
                            (PStr ti.1) lang greedy silent ti.2) = Ok lemma)
            (with_initial last matches) ys.
Proof.
  revert LANG_DATA last acc.
  induction matches as [|token rest IH]; intros LD last acc Heq;
    cbn [text_lemmatizer_loop with_initial fst snd].
  - split.
    + intros [= <-]. exists []. by rewrite app_nil_r.
    + intros (ys & -> & Hys). inversion Hys. by rewrite app_nil_r.
  - pose proof (Heq token (bool_decide (last ∈ PUNCTUATION))) as Hfst.
    assert (∀ token' initial,
               fst (lemmatize apply_rules _load_pickle
                      (snd (lemmatize apply_rules _load_pickle LD (PStr token)
                              lang greedy silent
                              (bool_decide (last ∈ PUNCTUATION))))
                      (PStr token') lang greedy silent initial)
               = fst (lemmatize apply_rules _load_pickle LANG_DATA0
                        (PStr token') lang greedy silent initial)) as Hnext.
    { intros token' initial. by rewrite lemmatize_rerun. }
    destruct (lemmatize apply_rules _load_pickle LD (PStr token) lang greedy
                silent (bool_decide (last ∈ PUNCTUATION)))
      as [[lemma|e] LD1]; cbn [fst snd] in *.
    + rewrite (IH LD1 token (acc ++ [lemma]) Hnext). split.
      * intros (ys & -> & Hys). exists (lemma :: ys).
        split; [by rewrite <-app_assoc|]. by constructor.
      * intros (ys & -> & Hys).
        inversion Hys as [|? y ? ys' Hy Hys']; subst. cbn [fst snd] in Hy.
        assert (y = lemma) as -> by congruence.
        exists ys'. split; [by rewrite <-app_assoc|done].
    + split; [done|]. intros (ys & -> & Hys).
      inversion Hys as [|? y ? ys' Hy Hys']; subst. cbn [fst snd] in Hy.
      congruence.
Qed.

(** X10. [text_lemmatizer] returns the list of the values that
    [lemma_iterator] yields, raises what ends the iterator if an
    exception does, and leaves [LANG_DATA] in the same state. *)
Theorem text_lemmatizer_iterator LANG_DATA text lang greedy silent :
  text_lemmatizer apply_rules _load_pickle simple_tokenizer LANG_DATA text
    lang greedy silent
  = let it := lemma_iterator apply_rules _load_pickle simple_tokenizer
                LANG_DATA text lang greedy silent in
    (match snd (fst it) with
     | None => Ok (fst (fst it))
     | Some e => Raise e
     end, snd it).
Proof.
  unfold text_lemmatizer, lemma_iterator.
  change (Ok (lemma_iterator_loop apply_rules _load_pickle LANG_DATA
                (simple_tokenizer text) lang greedy silent ".").1.1)
    with (Ok ([] ++ (lemma_iterator_loop apply_rules _load_pickle LANG_DATA
                       (simple_tokenizer text) lang greedy silent ".").1.1)
          : res (list string)).
  generalize (@nil string) as acc. generalize "."%string as last.
  revert LANG_DATA.
  induction (simple_tokenizer text) as [|token rest IH];
    intros LD last acc; cbn [text_lemmatizer_loop lemma_iterator_loop fst snd].
  - by rewrite app_nil_r.
  - destruct (lemmatize apply_rules _load_pickle LD (PStr token) lang greedy
                silent (bool_decide (last ∈ PUNCTUATION)))
      as [[lemma|e] LD1]; [|done].
    rewrite IH.
    destruct (lemma_iterator_loop apply_rules _load_pickle LD1 rest lang
                greedy silent token) as [[ys [e|]] LD2]; simpl; [done|].
    by rewrite <-app_assoc.
Qed.


Lemma with_initial_fst last tokens :
  (with_initial last tokens).*1 = tokens.
Proof.
  revert last. induction tokens as [|t tokens IH]; intros last; simpl; [done|].
  by rewrite IH.
Qed.

Lemma Forall2_total {A B} (R : A → B → Prop) (l : list A) :
  Forall (fun x => ∃ y, R x y) l → ∃ k, Forall2 R l k.
Proof.
  induction 1 as [|x l [y Hy] _ [k Hk]]; [by exists []|].
  exists (y :: k). by constructor.
Qed.

(** X12. With its default flags ([greedy] off, [silent] on)
    [text_lemmatizer] returns one lemma for each token, once [lang]
    names a language and no token is empty. *)
Theorem text_lemmatizer_total LANG_DATA text lang codes LANG_DATA' :
  _update_lang_data _load_pickle LANG_DATA lang = Ok (codes, LANG_DATA') →
  codes ≠ [] →
  Forall (fun token => token ≠ EmptyString) (simple_tokenizer text) →
  ∃ lemmata,
    fst (text_lemmatizer apply_rules _load_pickle simple_tokenizer LANG_DATA
           text lang false true) = Ok lemmata ∧
    length lemmata = length (simple_tokenizer text).
Proof.
  intros Hupd Hcodes Htokens.
  destruct (Forall2_total
              (fun ti lemma =>
                 fst (lemmatize apply_rules _load_pickle LANG_DATA
                        (PStr ti.1) lang false true ti.2) = Ok lemma)
              (with_initial "." (simple_tokenizer text))) as [lemmata Hall].
  { apply Forall_forall. intros [token initial] Hin. simpl.
    assert (token ≠ EmptyString) as Htok.
    { apply (proj1 (Forall_forall _ _) Htokens).
      rewrite <-(with_initial_fst "." (simple_tokenizer text)).
      apply list_elem_of_fmap. by exists (token, initial). }
    unfold lemmatize. rewrite Hupd.
    destruct (lemmatize_loop_total apply_rules token LANG_DATA' false initial
                Htok) as [o ->]; [by left|].
    simpl. destruct o as [c|]; [by eauto|]. simpl.
    destruct codes as [|lang0 codes]; [done|]. simpl.
    case_bool_decide; eauto. }
  exists lemmata. split.
  - unfold text_lemmatizer.
    rewrite (text_lemmatizer_loop_pointwise LANG_DATA); [|done].
    by exists lemmata.
  - apply Forall2_length in Hall.
    by rewrite <-Hall,
      <-(length_fmap fst (with_initial "." (simple_tokenizer text))),
      with_initial_fst.
Qed.

End Texts.

Lemma text_lemmatizer_total_witness :
  ∃ lemmata,
    fst (text_lemmatizer no_rules sample_tables sample_tokenizer []
           "The cats are  running . Cats run" (PStr "en") false true)
    = Ok lemmata ∧
    length lemmata
    = length (sample_tokenizer "The cats are  running . Cats run").
Proof.
  apply (text_lemmatizer_total no_rules sample_tables sample_tokenizer []
           "The cats are  running . Cats run" (PStr "en") ["en"]
           [mkLangDict "en" (sample_tables "en")]);
    [reflexivity|discriminate|].
  apply (bool_decide_unpack _). by vm_compute.
Defined.

(** ** The suffix scan and the decomposition *)


Lemma len_append s t : Py.len (s +:+ t) = Py.len s + Py.len t.
Proof.
  unfold Py.len. induction s as [|c s IH]; [done|].
  change (String c s +:+ t) with (String c (s +:+ t)).
  cbn [String.length]. lia.
Qed.



Lemma _greedy_search_one c d r :
  _greedy_search c d 1 5 = Ok r → r = c ∨ d !! c = Some r.
Proof.
  unfold _greedy_search.
  destruct (greedy_loop_spec d 1 5 (S (String.length c)) c 0 ltac:(lia))
    as (r' & n & -> & Hchain & Hn & _).
  simpl. intros [= <-].
  destruct n as [|[|n]]; [| |lia].
  - inversion Hchain. by left.
  - inversion Hchain as [|? ? next ? Hhop Hrest]; subst.
    inversion Hrest; subst. right. by destruct Hhop as (? & _).
Qed.

Lemma decompose_body_shape {U : Py.Unicode} token d affixlen count c p stop :
  1 ≤ count ≤ Py.len token - MINCOMPLEN →
  decompose_body token d affixlen count (None, None) = Ok ((c, p), stop) →
  (stop = false ∧ c = None ∧ p = None)
  ∨ (stop = true ∧ decomposed token d affixlen count c p).
Proof.
  unfold MINCOMPLEN. intros Hc. unfold decompose_body, decomposed.
  destruct (_simple_search (Py.slice_to token (- count)) d false)
    as [[head|]|e] eqn:Hs1; simpl; [|by intros [= <- <- <-]; left|done].
  destruct (Z.leb_spec count affixlen).
  { intros [= <- <- <-]. right. split; [done|]. exists head. split; [done|]. by left. }
  destruct token as [|c0 token']; [unfold Py.len in Hc; simpl in Hc; lia|].
  cbn [Py.first mbind res_bind right_part].
  set (token := String c0 token') in *.
  set (part2 := if Py.isupper_char c0
                then Py.capitalize (Py.slice_from token (- count))
                else Py.slice_from token (- count)).
  destruct (_simple_search part2 d false) as [[lempart2|]|] eqn:Hs2;
    cbn [mbind res_bind]; [|by intros [= <- <- <-]; left|done].
  destruct (_simple_search_value _ _ _ _ Hs2) as [k2 Hk2].
  destruct (Py.first lempart2) as [l0|] eqn:Hl0; cbn [mbind res_bind]; [|done].
  set (substitute := if Py.isupper_char l0 then Py.lower part2
                     else Py.capitalize part2).
  destruct (_greedy_search substitute d 1 5) as [nc|] eqn:Hg;
    cbn [mbind res_bind]; [|done].
  destruct (Py.truthy nc && (Py.len nc <? Py.len part2)) eqn:Hacc.
  - intros [= <- <- <-]. right. split; [done|]. exists head. split; [done|].
    right; left. split; [lia|]. split; [done|]. eexists. split; [done|].
    apply andb_true_iff in Hacc as [_ Hlt%Z.ltb_lt].
    exists nc. split; [|split; [lia|done]].
    destruct (_greedy_search_one _ _ _ Hg) as [->|Hget]; [right|by left; eauto].
    subst substitute. destruct (Py.isupper_char l0); [by left|by right].
  - assert (Py.truthy lempart2 = true) as -> by (by destruct lempart2).
    cbn [andb]. destruct (Z.leb_spec (Py.len lempart2) (Py.len part2)).
    + intros [= <- <- <-]. right. split; [done|]. exists head. split; [done|].
      right; left. split; [lia|]. split; [done|]. eexists. split; [done|].
      exists lempart2. split; [by left; eauto|]. split; [lia|done].
    + destruct (Z.ltb_spec (Py.len lempart2) (Py.len part2 + affixlen)).
      * intros [= <- <- <-]. right. split; [done|]. exists head. split; [done|].
        right; right; left. split; [lia|]. split; [done|].
        eexists. split; [done|].
        exists lempart2. split; [by left; eauto|]. split; [lia|done].
      * intros [= <- <- <-]. right. split; [done|]. exists head. split; [done|].
        right; right; right. done.
Qed.

(** X14. What [_decompose] returns is [(None, None)], or stems from one
    split of the token that leaves a head of 4 characters or more which
    is found in the table. If the split takes off no more than
    [affixlen] characters, the candidate is the lemma of the head. If
    it takes off more, the candidate is the head followed by the
    lower-case form of a string that is no longer than the right part
    that was looked up, and [plan_b] is the head followed by one that
    is less than [affixlen] longer; the string is a lemma of the table
    or a case form of the right part. The two are never both set. *)
Theorem _decompose_shape {U : Py.Unicode} token d affixlen c p :
  _decompose token d affixlen = Ok (c, p) →
  (c = None ∧ p = None)
  ∨ ∃ count, 1 ≤ count ≤ Py.len token - MINCOMPLEN ∧
             decomposed token d affixlen count c p.
Proof.
  unfold _decompose.
  assert (∀ counts,
             (∀ count, count ∈ counts →
                       1 ≤ count ≤ Py.len token - MINCOMPLEN) →
             decompose_loop token d affixlen counts (None, None) = Ok (c, p) →
             (c = None ∧ p = None)
             ∨ ∃ count, 1 ≤ count ≤ Py.len token - MINCOMPLEN ∧
                        decomposed token d affixlen count c p) as Hloop.
  { induction counts as [|count rest IH]; intros Hcounts;
      cbn [decompose_loop].
    - intros [= <- <-]. by left.
    - pose proof (Hcounts count ltac:(by left)) as Hc.
      destruct (decompose_body token d affixlen count (None, None))
        as [[[c' p'] stop]|] eqn:Hbody; simpl; [|done].
      destruct (decompose_body_shape _ _ _ _ _ _ _ Hc Hbody)
        as [(-> & -> & ->)|[-> Hshape]].
      + apply IH. intros count' Hin. apply Hcounts. by right.
      + intros [= <- <-]. right. by exists count. }
  apply Hloop. intros count Hin%elem_of_range. lia.
Qed.

Lemma _decompose_shape_witness :
  _decompose "emailcats" (sample_tables "en") 0 = Ok (Some "emailcat", None) ∧
  ((Some "emailcat" = None ∧ @None string = None)
   ∨ ∃ count, 1 ≤ count ≤ Py.len "emailcats" - MINCOMPLEN ∧
              decomposed "emailcats" (sample_tables "en") 0 count
                (Some "emailcat") None).
Proof.
  assert (_decompose "emailcats" (sample_tables "en") 0
          = Ok (Some "emailcat", None)) as Hrun by (by vm_compute).
  split; [exact Hrun|].
  apply (_decompose_shape "emailcats" (sample_tables "en") 0
           (Some "emailcat") None Hrun).
Defined.

(** ** Hyphenated tokens *)














(** ** The sample of [prepare_text] *)

Lemma freq_cons w x words :
  freq w (x :: words) = ((if decide (x = w) then 1 else 0) + freq w words)%nat.
Proof. unfold freq. rewrite filter_cons. by case_decide. Qed.

Lemma counter_getitem_add k w counter :
  counter_getitem k (counter_add w counter)
  = counter_getitem k counter + (if decide (w = k) then 1 else 0).
Proof.
  induction counter as [|[k0 n0] counter IH]; simpl.
  - repeat case_decide; lia.
  - repeat (case_decide; simpl); subst; try done; try lia.
Qed.

Lemma counter_getitem_Counter k words :
  counter_getitem k (Counter words) = Z.of_nat (freq k words).
Proof.
  unfold Counter.
  assert (∀ acc,
             counter_getitem k
               (foldl (fun counter w => counter_add w counter) acc words)
             = counter_getitem k acc + Z.of_nat (freq k words)) as Hgen.
  { induction words as [|w words IH]; intros acc; simpl.
    - unfold freq. simpl. lia.
    - rewrite IH, counter_getitem_add, freq_cons. case_decide; lia. }
  by rewrite Hgen.
Qed.

Lemma counter_getitem_elem k n counter :
  NoDup counter.*1 → (k, n) ∈ counter → counter_getitem k counter = n.
Proof.
  induction counter as [|[k0 n0] counter IH]; simpl; intros Hnd Hin.
  - by apply elem_of_nil in Hin.
  - apply NoDup_cons in Hnd as [Hk0 Hnd].
    apply elem_of_cons in Hin as [[= <- <-]|Hin].
    + by rewrite decide_True.
    + rewrite decide_False; [by apply IH|]. intros ->. apply Hk0.
      apply list_elem_of_fmap. by exists (k, n).
Qed.

Lemma Counter_count k n words :
  (k, n) ∈ Counter words → n = Z.of_nat (freq k words).
Proof.
  intros Hin. rewrite <-counter_getitem_Counter.
  symmetry. apply counter_getitem_elem; [apply Counter_spec|done].
Qed.

Lemma insert_desc_count_sorted (x : string * Z) l :
  StronglySorted (fun x y : string * Z => snd y ≤ snd x) l →
  StronglySorted (fun x y : string * Z => snd y ≤ snd x)
    (insert_desc (fun x y : string * Z => snd x >? snd y) x l).
Proof.
  induction 1 as [|y l Hl IH Hy]; simpl.
  - repeat constructor.
  - destruct (Z.gtb_spec (snd y) (snd x)).
    + constructor; [done|]. rewrite insert_desc_perm.
      constructor; [lia|done].
    + constructor; [by constructor|]. constructor; [done|].
      eapply Forall_impl; [exact Hy|]. intros z Hz. simpl in *. lia.
Qed.

Lemma most_common_sorted counter :
  StronglySorted (fun x y : string * Z => snd y ≤ snd x)
    (sorted_reverse (fun x y : string * Z => snd x >? snd y) counter).
Proof.
  unfold sorted_reverse. induction counter as [|x l IH]; simpl; [constructor|].
  by apply insert_desc_count_sorted.
Qed.

(** X16. [prepare_text] returns at most 1000 words of the text, each
    once, and all of them if they are fewer. They are in the order of
    decreasing frequency, and a word left out is no more frequent than
    any word returned. *)
Theorem prepare_text_most_frequent {U : Py.Unicode} text :
  let words := SPLIT_INPUT_finditer text in
  let tokens := prepare_text text in
  NoDup tokens ∧ (length tokens ≤ 1000)%nat ∧
  (∀ t, t ∈ tokens → t ∈ words) ∧
  (∀ w, w ∈ words → w ∈ tokens ∨ length tokens = 1000%nat) ∧
  (∀ i j t u, tokens !! i = Some t → tokens !! j = Some u → (i < j)%nat →
              (freq u words ≤ freq t words)%nat) ∧
  (∀ w t, w ∈ words → w ∉ tokens → t ∈ tokens →
          (freq w words ≤ freq t words)%nat).
Proof.
  intros words tokens.
  set (sorted := sorted_reverse (fun x y : string * Z => snd x >? snd y)
                   (Counter words)).
  assert (tokens = (take 1000 sorted).*1) as Htokens by done.
  assert (sorted ≡ₚ Counter words) as Hperm by apply sorted_reverse_perm.
  assert (StronglySorted (fun x y : string * Z => snd y ≤ snd x) sorted)
    as Hsorted by apply most_common_sorted.
  assert (∀ k n, (k, n) ∈ sorted → n = Z.of_nat (freq k words)) as Hcount.
  { intros k n Hin. apply Counter_count. by rewrite <-Hperm. }
  assert (∀ k, k ∈ sorted.*1 ↔ k ∈ words) as Hkeys.
  { intros k. rewrite Hperm. apply Counter_spec. }
  assert (∀ x y, x ∈ take 1000 sorted → y ∈ drop 1000 sorted →
                 snd y ≤ snd x) as Hcut.
  { intros x y Hx Hy.
    apply (StronglySorted_app_1_elem_of (fun x y : string * Z => snd y ≤ snd x)
             (take 1000 sorted) (drop 1000 sorted));
      [by rewrite take_drop|done..]. }
  split_and!.
  - apply prepare_text_NoDup.
  - rewrite Htokens, length_fmap, length_take. lia.
  - intros t Hin. apply Hkeys. rewrite Htokens in Hin.
    apply list_elem_of_fmap in Hin as (x & -> & Hx).
    apply list_elem_of_fmap. exists x. split; [done|].
    apply elem_of_take in Hx as (i & Hx & _).
    by eapply list_elem_of_lookup_2.
  - intros w Hw. rewrite Htokens, length_fmap, length_take.
    destruct (decide (length sorted ≤ 1000)%nat) as [Hle|Hgt]; [left|right; lia].
    rewrite take_ge by done. by apply Hkeys.
  - intros i j t u Hi Hj Hij. rewrite Htokens in Hi, Hj.
    rewrite list_lookup_fmap in Hi, Hj.
    destruct (take 1000 sorted !! i) as [[t' n]|] eqn:Hti; [|done].
    destruct (take 1000 sorted !! j) as [[u' m]|] eqn:Htj; [|done].
    simpl in Hi, Hj. injection Hi as ->. injection Hj as ->.
    assert (StronglySorted (fun x y : string * Z => snd y ≤ snd x)
              (take 1000 sorted)) as Hs.
    { rewrite <-(take_drop 1000 sorted) in Hsorted.
      by apply StronglySorted_app_1_l in Hsorted. }
    assert (m ≤ n) as Hmn.
    { rewrite <-(take_drop (S i) (take 1000 sorted)) in Hs.
      apply (StronglySorted_app_1_elem_of (fun x y : string * Z => snd y ≤ snd x)
               _ _ (t, n) (u, m) Hs).
      - apply list_elem_of_lookup. exists i. rewrite lookup_take_lt by lia. done.
      - apply list_elem_of_lookup. exists (j - S i)%nat.
        rewrite lookup_drop. by replace (S i + (j - S i))%nat with j by lia. }
    assert ((t, n) ∈ sorted ∧ (u, m) ∈ sorted) as [Ht Hu].
    { split; (rewrite <-(take_drop 1000 sorted); apply elem_of_app; left;
        by eapply list_elem_of_lookup_2). }
    apply Hcount in Ht, Hu. lia.
  - intros w t Hw Hnot Ht.
    apply Hkeys in Hw. apply list_elem_of_fmap in Hw as ([w' m] & -> & Hw).
    rewrite Htokens in Ht, Hnot.
    apply list_elem_of_fmap in Ht as ([t' n] & -> & Ht). simpl in *.
    rewrite <-(take_drop 1000 sorted) in Hw.
    apply elem_of_app in Hw as [Hw|Hw].
    { exfalso. apply Hnot. apply list_elem_of_fmap. by exists (w', m). }
    pose proof (Hcut _ _ Ht Hw) as Hle. simpl in Hle.
    assert ((t', n) ∈ sorted) as Ht'.
    { rewrite <-(take_drop 1000 sorted). apply elem_of_app. by left. }
    assert ((w', m) ∈ sorted) as Hw'.
    { rewrite <-(take_drop 1000 sorted). apply elem_of_app. by right. }
    apply Hcount in Ht', Hw'. lia.
Qed.

Lemma runs_elem (p : ascii → bool) : ∀ text cur w,
  Forall (fun c => p c) cur →
  w ∈ runs p text cur →
  Forall (fun c => p c) (Py.chars w) ∧
  ∃ pre post, reverse cur ++ text = pre ++ Py.chars w ++ post.
Proof.
  induction text as [|c rest IH]; intros cur w Hcur; simpl.
  - intros ->%list_elem_of_singleton. rewrite chars_str.
    split; [by apply Forall_reverse|]. exists [], []. by rewrite !app_nil_r.
  - destruct (p c) eqn:Hc.
    + intros Hin. destruct (IH (c :: cur) w) as [Hall (pre & post & Heq)];
        [constructor; [by rewrite Hc|done]|done|].
      split; [done|]. exists pre, post.
      by rewrite <-Heq, reverse_cons, <-(assoc_L (++)).
    + intros [->|Hin]%elem_of_cons.
      * rewrite chars_str. split; [by apply Forall_reverse|].
        by exists [], (c :: rest).
      * destruct (IH [] w) as [Hall (pre & post & Heq)]; [constructor|done|].
        split; [done|]. exists (reverse cur ++ c :: pre), post.
        simpl in Heq. rewrite Heq. by rewrite <-!(assoc_L (++)).
Qed.

Lemma has_run3_split (p : ascii → bool) c l1 l2 :
  p c = false → has_run3 p (l1 ++ c :: l2) → has_run3 p l1 ∨ has_run3 p l2.
Proof.
  intros Hc (pre & x & y & z & post & Heq & Hx & Hy & Hz).
  revert pre Heq. induction l1 as [|a l1 IH]; intros pre Heq.
  - destruct pre as [|a pre]; simpl in Heq.
    + injection Heq as -> _. by rewrite Hc in Hx.
    + injection Heq as _ ->. right. by exists pre, x, y, z, post.
  - destruct pre as [|a' pre]; simpl in Heq.
    + injection Heq as -> Heq. destruct l1 as [|b [|c' l1]]; simpl in Heq.
      * injection Heq as -> _. by rewrite Hc in Hy.
      * injection Heq as _ -> _. by rewrite Hc in Hz.
      * injection Heq as -> -> _. left. by exists [], x, y, z, l1.
    + injection Heq as -> Heq. destruct (IH pre Heq) as [Hl|Hr]; [left|by right].
      destruct Hl as (pre' & x' & y' & z' & post' & -> & H').
      by exists (a' :: pre'), x', y', z', post'.
Qed.

Lemma runs_long (p : ascii → bool) : ∀ text cur,
  has_run3 p (reverse cur ++ text) →
  ∃ w, w ∈ runs p text cur ∧ (3 ≤ String.length w)%nat.
Proof.
  assert (∀ l, has_run3 p l → (3 ≤ length l)%nat) as Hlen.
  { intros l (pre & a & b & c & post & -> & _).
    rewrite length_app. simpl. lia. }
  induction text as [|c rest IH]; intros cur Hrun; simpl.
  - exists (Py.str (reverse cur)). split; [by left|].
    rewrite str_length. apply Hlen. by rewrite app_nil_r in Hrun.
  - destruct (p c) eqn:Hc.
    + apply IH. by rewrite reverse_cons, <-(assoc_L (++)).
    + destruct (has_run3_split p c _ _ Hc Hrun) as [Hl|Hr].
      * exists (Py.str (reverse cur)). split; [by left|].
        rewrite str_length. by apply Hlen.
      * destruct (IH [] Hr) as (w & Hin & Hw). exists w. split; [by right|done].
Qed.

(** X17. Every token that [prepare_text] returns consists of three
    characters or more of the class of [SPLIT_INPUT] and occurs in the
    text, and [prepare_text] returns a token at least exactly when the
    text holds three characters of that class in a row. *)
Theorem prepare_text_words {U : Py.Unicode} text :
  (∀ t, t ∈ prepare_text text →
        (3 ≤ String.length t)%nat ∧
        Forall (fun c => Py.re_letter c) (Py.chars t) ∧
        occurs_in t text) ∧
  (prepare_text text ≠ [] ↔ has_alpha_run3 text).
Proof.
  assert (∀ t, t ∈ prepare_text text →
               (3 ≤ String.length t)%nat ∧
               Forall (fun c => Py.re_letter c) (Py.chars t) ∧
               occurs_in t text) as Hwords.
  { intros t Hin. split; [by eapply prepare_text_elem|].
    revert Hin. unfold prepare_text, most_common. rewrite fmap_take.
    intros Hin. apply elem_of_take in Hin as (i & Hin & _).
    apply list_elem_of_lookup_2 in Hin.
    rewrite sorted_reverse_perm in Hin.
    apply (proj1 (proj2 (Counter_spec _) t)) in Hin.
    unfold SPLIT_INPUT_finditer in Hin.
    apply list_elem_of_filter in Hin as [_ Hin].
    by apply (runs_elem Py.re_letter (Py.chars text) [] t) in Hin. }
  split; [done|]. split.
  - intros Hne. destruct (prepare_text text) as [|t ts]; [done|].
    destruct (Hwords t ltac:(by left)) as (Hlen & Halpha & pre & post & Heq).
    pose proof (len_chars t) as Hchars. unfold Py.len in Hchars.
    unfold has_alpha_run3. rewrite Heq.
    destruct (Py.chars t) as [|a [|b [|c rest]]];
      [simpl in Hchars; lia..|].
    exists pre, a, b, c, (rest ++ post).
    inversion Halpha as [|? ? Ha Halpha1]; subst.
    inversion Halpha1 as [|? ? Hb Halpha2]; subst.
    inversion Halpha2 as [|? ? Hc' _]; subst. done.
  - intros Hrun Hempty.
    destruct (runs_long Py.re_letter (Py.chars text) [] Hrun)
      as (w & Hin & Hw).
    assert (w ∈ (Counter (SPLIT_INPUT_finditer text)).*1) as Hk.
    { apply Counter_spec. unfold SPLIT_INPUT_finditer.
      by apply list_elem_of_filter. }
    revert Hempty. unfold prepare_text, most_common.
    rewrite fmap_take.
    pose proof (sorted_reverse_perm
                  (fun x y : string * Z => snd x >? snd y)
                  (Counter (SPLIT_INPUT_finditer text))) as Hperm.
    rewrite <-Hperm in Hk.
    destruct (sorted_reverse _ _); [by apply elem_of_nil in Hk|done].
Qed.

(** ** [in_target_language] *)

Section Target.
Context {U : Py.Unicode}.
Variable apply_rules : string → string → option string.

Lemma in_target_langs_spec token langdata :
  well_formed langdata → token ≠ EmptyString → ∀ in_target,
  in_target_langs apply_rules token langdata in_target
  = Ok (in_target
        + Z.of_nat (length (filter (fun l => hit apply_rules true (fst l) (snd l)
                                               token) langdata))).
Proof.
  intros Hwf Htok.
  induction langdata as [|[c d] rest IH]; intros in_target;
    cbn [in_target_langs].
  - simpl. f_equal. lia.
  - destruct (_return_lemma_returns apply_rules token d true c false)
      as [o Ho]; [apply (Hwf c d); by left|done|].
    cbn [fst snd]. rewrite Ho. cbn [mbind res_bind].
    rewrite IH by (intros c' d' Hin; apply (Hwf c' d'); by right).
    assert (hit apply_rules true c d token
            = match o with Some _ => true | None => false end) as Hhit.
    { unfold hit, detect_one. simpl. by rewrite Ho. }
    f_equal. rewrite filter_cons. cbn [fst snd]. rewrite Hhit.
    destruct o; simpl; lia.
Qed.

Lemma in_target_tokens_spec tokens langdata :
  well_formed langdata → (∀ t, t ∈ tokens → t ≠ EmptyString) →
  ∀ total in_target,
  in_target_tokens apply_rules tokens langdata total in_target
  = Ok (total + Z.of_nat (length tokens),
        in_target + Z.of_nat (hit_count apply_rules langdata tokens)).
Proof.
  intros Hwf. unfold hit_count.
  induction tokens as [|t tokens IH]; intros Htok total in_target;
    cbn [in_target_tokens].
  - simpl. f_equal. apply pair_equal_spec. split; lia.
  - rewrite in_target_langs_spec; [|done|apply Htok; by left].
    cbn [mbind res_bind].
    rewrite IH by (intros t' Hin; apply Htok; by right).
    cbn [fmap list_fmap sum_list length]. f_equal.
    apply pair_equal_spec. unfold id. split; lia.
Qed.

Lemma hit_count_bound langdata tokens :
  (hit_count apply_rules langdata tokens ≤ length langdata * length tokens)%nat.
Proof.
  unfold hit_count. induction tokens as [|t tokens IH]; [simpl; lia|].
  rewrite fmap_cons.
  change (sum_list (?x :: ?l)) with (x + sum_list l)%nat.
  pose proof (length_filter
                (fun l => hit apply_rules true (fst l) (snd l) t) langdata).
  cbn [length]. nia.
Qed.

(** X18. On a text with a sampled token at least and tables without
    empty lemma, [in_target_language] returns the number of pairs of a
    sampled token and a configured language that match, divided by the
    number of sampled tokens. This lies between 0 and the number of
    configured languages. *)
Theorem in_target_language_spec text langdata :
  prepare_text text ≠ [] →
  well_formed langdata →
  ∃ q, in_target_language apply_rules text langdata = Ok q ∧
       q = (inject_Z (Z.of_nat (hit_count apply_rules langdata
                                   (prepare_text text)))
            / inject_Z (Z.of_nat (length (prepare_text text))))%Q ∧
       (0 <= q <= inject_Z (Z.of_nat (length langdata)))%Q.
Proof.
  intros Hne Hwf. unfold in_target_language.
  rewrite in_target_tokens_spec; [|done|].
  2: { intros t Hin%prepare_text_elem ->. simpl in Hin. lia. }
  cbn [mbind res_bind]. rewrite !Z.add_0_l.
  assert (0 < Z.of_nat (length (prepare_text text))) as HN.
  { destruct (prepare_text text); [done|simpl; lia]. }
  rewrite truediv_ok by lia.
  eexists. split; [done|]. split; [done|].
  pose proof (hit_count_bound langdata (prepare_text text)) as Hb.
  rewrite (inject_Z_div _ _ HN). unfold Qle, inject_Z. simpl.
  rewrite Z2Pos.id by done. split; [lia|]. nia.
Qed.

Lemma hit_count_single c d tokens :
  hit_count apply_rules [(c, d)] tokens
  = length (filter (fun t => hit apply_rules true c d t) tokens).
Proof.
  unfold hit_count. induction tokens as [|t tokens IH]; [done|].
  rewrite fmap_cons.
  change (sum_list (?x :: ?l)) with (x + sum_list l)%nat.
  rewrite IH, !filter_cons, filter_nil. cbn [fst snd].
  by destruct (hit apply_rules true c d t).
Qed.

(** X19. For one language, whose code is not ["unk"],
    [in_target_language] returns the score that the extensive
    [lang_detector] gives to that language. *)
Theorem in_target_language_single text c d :
  prepare_text text ≠ [] →
  nonempty_values d →
  c ≠ "unk" →
  ∃ q results,
    in_target_language apply_rules text [(c, d)] = Ok q ∧
    lang_detector apply_rules text [(c, d)] true = Ok results ∧
    (c, q) ∈ results.
Proof.
  intros Hne Hd Hc.
  assert (∀ t, t ∈ prepare_text text → t ≠ EmptyString) as Htok.
  { intros t Hin%prepare_text_elem ->. simpl in Hin. lia. }
  assert (well_formed [(c, d)]) as Hwf.
  { intros c' d' Hin. by apply list_elem_of_singleton in Hin as [= -> ->]. }
  assert (0 < Z.of_nat (length (prepare_text text))) as HN.
  { destruct (prepare_text text); [done|simpl; lia]. }
  unfold in_target_language.
  rewrite in_target_tokens_spec by done.
  cbn [mbind res_bind]. rewrite !Z.add_0_l, truediv_ok by lia.
  rewrite lang_detector_eq. unfold detect_pass. cbn [detect_langs].
  rewrite detect_tokens_spec by done.
  cbn [mbind res_bind app]. rewrite truediv_ok by lia.
  cbn [mbind res_bind]. rewrite truediv_ok by lia.
  cbn [mbind res_bind negb]. eexists _, _. split; [done|]. split; [done|].
  rewrite sorted_reverse_perm, hit_count_single. cbn [dict_set].
  rewrite decide_False by done. by left.
Qed.

End Target.

Lemma in_target_language_spec_witness :
  ∃ q, in_target_language no_rules "cats are running"
         [("en", sample_tables "en"); ("de", sample_tables "de")] = Ok q ∧
       q = (inject_Z (Z.of_nat (hit_count no_rules
                                   [("en", sample_tables "en");
                                    ("de", sample_tables "de")]
                                   (prepare_text "cats are running")))
            / inject_Z (Z.of_nat (length (prepare_text "cats are running"))))%Q ∧
       (0 <= q <= inject_Z (Z.of_nat (length
                                        [("en", sample_tables "en");
                                         ("de", sample_tables "de")])))%Q.
Proof.
  apply (in_target_language_spec no_rules "cats are running"
           [("en", sample_tables "en"); ("de", sample_tables "de")]).
  - by vm_compute.
  - apply sample_well_formed.
Defined.

Lemma in_target_language_single_witness :
  ∃ q results,
    in_target_language no_rules "cats are running" [("en", sample_tables "en")]
    = Ok q ∧
    lang_detector no_rules "cats are running" [("en", sample_tables "en")] true
    = Ok results ∧
    ("en", q) ∈ results.
Proof.
  apply (in_target_language_single no_rules "cats are running" "en"
           (sample_tables "en")).
  - by vm_compute.
  - change (map_Forall (fun _ v => v ≠ EmptyString) (sample_tables "en")).
    apply (bool_decide_unpack _). by vm_compute.
  - discriminate.
Defined.

(** ** Reading a word list *)

Lemma lstrip_head {U : Py.Unicode} l c rest :
  PyStr.lstrip l = c :: rest → Py.isspace_char c = false.
Proof.
  induction l as [|a l IH]; simpl; [done|].
  destruct (Py.isspace_char a) eqn:Ha; [done|]. by intros [= <- _].
Qed.

Lemma strip_last {U : Py.Unicode} s l c :
  Py.chars (PyStr.strip s) = l ++ [c] → Py.isspace_char c = false.
Proof.
  unfold PyStr.strip. rewrite chars_str. intros Heq.
  apply (f_equal reverse) in Heq.
  rewrite reverse_involutive, reverse_snoc in Heq.
  by eapply lstrip_head.
Qed.

Lemma runs_nonempty (p : ascii → bool) l cur : runs p l cur ≠ [].
Proof.
  revert cur. induction l as [|c l IH]; intros cur; simpl; [done|].
  destruct (p c); [apply IH|done].
Qed.

Lemma runs_last_empty (p : ascii → bool) : ∀ l cur,
  last (runs p l cur) = Some EmptyString →
  (l = [] ∧ cur = []) ∨ ∃ l' c, l = l' ++ [c] ∧ p c = false.
Proof.
  induction l as [|c rest IH]; intros cur; simpl.
  - intros [= Hcur]. left. split; [done|].
    apply (f_equal Py.chars) in Hcur. rewrite chars_str in Hcur.
    apply (f_equal reverse) in Hcur. by rewrite reverse_involutive in Hcur.
  - destruct (p c) eqn:Hc.
    + intros [[_ [=]]|(l' & c' & -> & Hc')]%IH. right. by exists (c :: l'), c'.
    + rewrite last_cons.
      destruct (last (runs p rest [])) as [y|] eqn:Hlast.
      * intros [= ->]. right.
        apply IH in Hlast as [[-> _]|(l' & c' & -> & Hc')].
        -- by exists [], c.
        -- by exists (c :: l'), c'.
      * apply last_None in Hlast. by apply runs_nonempty in Hlast.
Qed.

(** The second of two columns is not empty: the stripped line does not
    end with a tab. *)
Lemma split_strip_second {U : Py.Unicode} line c0 c1 :
  PyStr.split "009" (PyStr.strip line) = [c0; c1] → c1 ≠ EmptyString.
Proof.
  unfold PyStr.split. intros Hsplit ->.
  destruct (runs_last_empty
              (fun c => negb (bool_decide (c = "009"%char)))
              (Py.chars (PyStr.strip line)) [])
    as [[Hnil _]|(l' & c & Heq & Hc)].
  - by rewrite Hsplit.
  - by rewrite Hnil in Hsplit.
  - apply strip_last in Heq. apply negb_false_iff, bool_decide_eq_true in Hc.
    subst c. by rewrite Py.isspace_tab in Heq.
Qed.

Lemma read_dict_line_spec {U : Py.Unicode}
    langcode leftlimit line mydict myadditions i :
  1 ≤ leftlimit →
  map_Forall (fun k v => k ≠ EmptyString ∧ v ≠ EmptyString) mydict →
  Forall (fun w => w ≠ EmptyString) myadditions →
  ∃ mydict' myadditions' i',
    read_dict_line langcode leftlimit line (mydict, myadditions, i)
    = Ok (mydict', myadditions', i') ∧
    map_Forall (fun k v => k ≠ EmptyString ∧ v ≠ EmptyString) mydict' ∧
    Forall (fun w => w ≠ EmptyString) myadditions'.
Proof.
  intros Hlimit Hdict Hadd. unfold read_dict_line.
  destruct (PyStr.split "009" (PyStr.strip line))
    as [|c0 [|c1 [|c2 columns]]] eqn:Hsplit; [by eauto 6..| |by eauto 6].
  destruct (Z.ltb_spec (Py.len c0) leftlimit) as [|Hlen]; [by eauto 6|].
  cbn [orb]. destruct (_ || _); [by eauto 6|].
  assert (c0 ≠ EmptyString) as Hc0 by (apply len_pos_nonempty; lia).
  assert (c1 ≠ EmptyString) as Hc1 by (by eapply split_strip_second).
  assert (∃ mydict' myadditions' i',
             read_dict_insert langcode c0 c1 (mydict, myadditions, i)
             = (mydict', myadditions', i') ∧
             map_Forall (fun k v => k ≠ EmptyString ∧ v ≠ EmptyString) mydict' ∧
             Forall (fun w => w ≠ EmptyString) myadditions') as Hinsert.
  { unfold read_dict_insert. case_bool_decide.
    - eexists _, _, _. split; [done|]. split.
      + by apply map_Forall_insert_2.
      + apply Forall_app. split; [done|]. by constructor.
    - destruct (<[c1:=c0]> mydict !! c0); eexists _, _, _;
        (split; [done|]); (split; [|done]);
        repeat apply map_Forall_insert_2; done. }
  destruct Hinsert as (m' & a' & i' & Hins & Hm' & Ha').
  destruct (mydict !! c1) as [old|] eqn:Hold.
  - case_bool_decide; cbn [negb].
    + rewrite Hins. by eauto 6.
    + rewrite !_levenshtein_dist_lev. cbn [mbind res_bind].
      destruct (_ || _); [|by eauto 6].
      eexists _, _, _. split; [done|]. split; [|done].
      by apply map_Forall_insert_2.
  - rewrite Hins. by eauto 6.
Qed.

(** X20. [_read_dict] returns for every file. In the dictionary it
    returns no key and no value is empty, so that the tables built with
    it hold no empty lemma. *)
Theorem _read_dict_nonempty {U : Py.Unicode} lines langcode :
  ∃ items, _read_dict lines langcode = Ok items ∧
    NoDup items.*1 ∧
    ∀ k v, (k, v) ∈ items → k ≠ EmptyString ∧ v ≠ EmptyString.
Proof.
  unfold _read_dict.
  set (leftlimit := if bool_decide (langcode ∈ SAFE_LIMIT) then 1 else 2).
  assert (1 ≤ leftlimit) as Hlimit by (subst leftlimit; case_bool_decide; lia).
  assert (∀ mydict myadditions i,
             map_Forall (fun k v => k ≠ EmptyString ∧ v ≠ EmptyString) mydict →
             Forall (fun w => w ≠ EmptyString) myadditions →
             ∃ mydict' myadditions' i',
               read_dict_lines langcode leftlimit lines (mydict, myadditions, i)
               = Ok (mydict', myadditions', i') ∧
               map_Forall (fun k v => k ≠ EmptyString ∧ v ≠ EmptyString)
                 mydict' ∧
               Forall (fun w => w ≠ EmptyString) myadditions') as Hlines.
  { clearbody leftlimit.
    induction lines as [|line rest IH]; intros mydict myadditions i Hd Ha;
      cbn [read_dict_lines]; [by eauto 6|].
    destruct (read_dict_line_spec langcode leftlimit line mydict myadditions i
                Hlimit Hd Ha) as (m' & a' & i' & -> & Hm' & Ha').
    cbn [mbind res_bind]. by apply IH. }
  destruct (Hlines ∅ [] 0) as (mydict & myadditions & i & -> & Hd & Ha).
  { apply map_Forall_empty. }
  { constructor. }
  cbn [mbind res_bind]. eexists. split; [done|].
  assert (map_Forall (fun k v => k ≠ EmptyString ∧ v ≠ EmptyString)
            (foldl (fun m word => <[word:=word]> m) mydict myadditions))
    as Hfinal.
  { clear Hlines. revert mydict Hd.
    induction Ha as [|w ws Hw _ IH]; intros mydict Hd; simpl; [done|].
    apply IH. by apply map_Forall_insert_2. }
  split.
  - rewrite merge_sort_Permutation. apply NoDup_fst_map_to_list.
  - intros k v Hin. rewrite merge_sort_Permutation in Hin.
    apply elem_of_map_to_list in Hin. by apply (Hfinal k v).
Qed.

(** X21. A line that begins with [-], or that holds [+] or [_], is
    left out: the dictionary is the one read without the line. *)
Theorem _read_dict_noise {U : Py.Unicode} pre line post langcode :
  PyStr.startswith "-" line = true ∨ contains "+" line = true
  ∨ contains "_" line = true →
  _read_dict (pre ++ line :: post) langcode = _read_dict (pre ++ post) langcode.
Proof.
  intros Hnoise. unfold _read_dict.
  generalize (if bool_decide (langcode ∈ SAFE_LIMIT) then 1 else 2).
  intros leftlimit.
  assert (∀ st, read_dict_line langcode leftlimit line st = Ok st) as Hline.
  { intros [[mydict myadditions] i]. unfold read_dict_line.
    destruct (PyStr.split "009" (PyStr.strip line))
      as [|c0 [|c1 [|c2 columns]]]; [done..| |done].
    assert (PyStr.startswith "-" line || noise_search line = true) as Hn.
    { unfold noise_search.
      destruct Hnoise as [->|[->| ->]]; by rewrite ?orb_true_r. }
    destruct (Py.len c0 <? leftlimit); [done|].
    cbn [orb]. by rewrite Hn. }
  assert (∀ st, read_dict_lines langcode leftlimit (pre ++ line :: post) st
                = read_dict_lines langcode leftlimit (pre ++ post) st)
    as ->; [|done].
  induction pre as [|l pre IH]; intros st; cbn [read_dict_lines app].
  - by rewrite Hline.
  - destruct (read_dict_line langcode leftlimit l st); [|done].
    cbn [mbind res_bind]. apply IH.
Qed.

Lemma _read_dict_noise_witness :
  PyStr.split "009" (PyStr.strip ("-ing" +:+ String "009" "running"))
  = ["-ing"; "running"] ∧
  _read_dict ["cat" +:+ String "009" "cats"] "en"
  = Ok [("cat", "cat"); ("cats", "cat")] ∧
  _read_dict (["cat" +:+ String "009" "cats"]
              ++ ("-ing" +:+ String "009" "running") :: []) "en"
  = _read_dict (["cat" +:+ String "009" "cats"] ++ []) "en".
Proof.
  split; [by vm_compute|]. split; [by vm_compute|].
  apply (_read_dict_noise ["cat" +:+ String "009" "cats"]
           ("-ing" +:+ String "009" "running") [] "en").
  left. reflexivity.
Defined.

(** ** The scores of [lang_detector] *)

Section Scores.
Context {U : Py.Unicode}.
Variable apply_rules : string → string → option string.

Lemma dict_set_other k v d k' v' :
  (k', v') ∈ d → k' ≠ k → (k', v') ∈ dict_set k v d.
Proof.
  induction d as [|[k0 v0] d IH]; simpl; intros Hin Hne.
  - by apply elem_of_nil in Hin.
  - apply elem_of_cons in Hin as [[= <- <-]|Hin].
    + rewrite decide_False by done. by left.
    + case_decide; right; [done|by apply IH].
Qed.

Lemma detect_langs_keeps tokens extensive langdata : ∀ myresults found r f k v,
  detect_langs apply_rules tokens langdata extensive myresults found
  = Ok (r, f) →
  (k, v) ∈ myresults → k ∉ langdata.*1 → (k, v) ∈ r.
Proof.
  induction langdata as [|[c d] rest IH]; intros myresults found r f k v;
    cbn [detect_langs].
  - by intros [= <- <-].
  - destruct (detect_tokens apply_rules tokens c d extensive []) as [it|];
      cbn [mbind res_bind]; [|done].
    destruct (Py.truediv _ _) as [score|]; cbn [mbind res_bind]; [|done].
    intros Hrun Hin Hk. rewrite fmap_cons, not_elem_of_cons in Hk.
    destruct Hk as [Hkc Hk].
    eapply IH; [exact Hrun| |done]. by apply dict_set_other.
Qed.

Lemma detect_langs_scores tokens extensive :
  tokens ≠ [] → (∀ t, t ∈ tokens → t ≠ EmptyString) →
  ∀ langdata myresults found r f c d,
    well_formed langdata → NoDup langdata.*1 →
    detect_langs apply_rules tokens langdata extensive myresults found
    = Ok (r, f) →
    (c, d) ∈ langdata →
    (c, lang_score apply_rules extensive tokens c d) ∈ r.
Proof.
  intros Hne Htok.
  induction langdata as [|[c0 d0] rest IH];
    intros myresults found r f c d Hwf Hnd; cbn [detect_langs].
  - intros _ Hin. by apply elem_of_nil in Hin.
  - rewrite detect_tokens_spec; [|by apply (Hwf c0 d0); left|done].
    cbn [mbind res_bind app].
    rewrite truediv_ok by (destruct tokens; [done|simpl; lia]).
    cbn [mbind res_bind]. rewrite fmap_cons in Hnd.
    apply NoDup_cons in Hnd as [Hc0 Hnd].
    intros Hrun [[= -> ->]|Hin]%elem_of_cons.
    + eapply detect_langs_keeps; [exact Hrun|apply dict_set_new|done].
    + eapply IH; [|done|exact Hrun|done].
      intros c' d' Hin'. apply (Hwf c' d'). by right.
Qed.

Lemma detect_pass_inv text langdata extensive results :
  detect_pass apply_rules text langdata extensive = Ok results →
  ∃ myresults found unk,
    detect_langs apply_rules (prepare_text text) langdata extensive [] ∅
    = Ok (myresults, found) ∧
    results ≡ₚ dict_set "unk" unk myresults.
Proof.
  unfold detect_pass.
  destruct (detect_langs apply_rules (prepare_text text) langdata extensive
              [] ∅) as [[myresults found]|]; cbn [mbind res_bind]; [|done].
  destruct (Py.truediv _ _) as [unk|]; cbn [mbind res_bind]; [|done].
  intros [= <-]. exists myresults, found, unk. split; [done|].
  apply sorted_reverse_perm.
Qed.

Lemma prepare_text_tokens text t : t ∈ prepare_text text → t ≠ EmptyString.
Proof. intros Hin%prepare_text_elem ->. simpl in Hin. lia. Qed.

(** X22. In the ranking of a pass, the score of a configured language
    is the share of the sampled tokens that its table matches. *)
Theorem detect_pass_scores text langdata extensive results c d :
  prepare_text text ≠ [] →
  well_formed langdata →
  NoDup langdata.*1 →
  c ≠ "unk" →
  detect_pass apply_rules text langdata extensive = Ok results →
  (c, d) ∈ langdata →
  (c, lang_score apply_rules extensive (prepare_text text) c d) ∈ results.
Proof.
  intros Hne Hwf Hnd Hc Hpass Hin.
  destruct (detect_pass_inv _ _ _ _ Hpass)
    as (myresults & found & unk & Hrun & ->).
  apply dict_set_other; [|done].
  by eapply (detect_langs_scores (prepare_text text) extensive Hne
               (prepare_text_tokens text) langdata [] ∅ myresults found c d).
Qed.

Lemma hit_extensive c d t :
  nonempty_values d → t ≠ EmptyString →
  hit apply_rules false c d t = true → hit apply_rules true c d t = true.
Proof.
  intros Hd Ht. unfold hit, detect_one. simpl.
  destruct (_simple_search t d false) as [[v|]|] eqn:Hs; [|done..].
  intros _.
  pose proof (_return_lemma_hit apply_rules t d true c false v Hs) as Hhit.
  destruct (_return_lemma_returns apply_rules t d true c false Hd Ht)
    as [[o|] Ho]; rewrite Ho in *; done.
Qed.

Lemma length_filter_mono {A} (P Q : A → bool) (l : list A) :
  (∀ x, x ∈ l → P x = true → Q x = true) →
  (length (filter (fun x => P x) l) ≤ length (filter (fun x => Q x) l))%nat.
Proof.
  induction l as [|x l IH]; intros Himp; [done|].
  rewrite !filter_cons.
  assert (length (filter (fun x => P x) l)
          ≤ length (filter (fun x => Q x) l))%nat as Hle.
  { apply IH. intros y Hy. apply Himp. by right. }
  pose proof (Himp x ltac:(by left)) as Hx.
  destruct (P x), (Q x); simpl; lia || by specialize (Hx eq_refl).
Qed.

Lemma quotient_mono a b N :
  a ≤ b → 0 < N → (inject_Z a / inject_Z N <= inject_Z b / inject_Z N)%Q.
Proof.
  intros Hab HN. rewrite !inject_Z_div by done.
  unfold Qle. simpl. nia.
Qed.

Lemma hit_any_extensive langdata t :
  well_formed langdata → t ≠ EmptyString →
  hit_any apply_rules false langdata t = true →
  hit_any apply_rules true langdata t = true.
Proof.
  intros Hwf Ht. unfold hit_any. rewrite !existsb_exists.
  intros ([c d] & Hin & Hhit). exists (c, d). split; [done|].
  apply hit_extensive; [|done..]. apply (Hwf c d). by apply list_elem_of_In.
Qed.

(** X23. The extensive pass is at least as generous as the fast one:
    no configured language gets a lower score, and the unknown share is
    not higher. *)
Theorem detect_pass_extensive_ge text langdata fast ext :
  prepare_text text ≠ [] →
  well_formed langdata →
  NoDup langdata.*1 →
  detect_pass apply_rules text langdata false = Ok fast →
  detect_pass apply_rules text langdata true = Ok ext →
  (∀ c d s s', (c, d) ∈ langdata → c ≠ "unk" →
               (c, s) ∈ fast → (c, s') ∈ ext → (s <= s')%Q) ∧
  (∀ u u', ("unk", u) ∈ fast → ("unk", u') ∈ ext → (u' <= u)%Q).
Proof.
  intros Hne Hwf Hnd Hfast Hext.
  pose proof (prepare_text_tokens text) as Htok.
  assert (0 < Z.of_nat (length (prepare_text text))) as HN.
  { destruct (prepare_text text); [done|simpl; lia]. }
  split.
  - intros c d s s' Hin Hc Hs Hs'.
    assert (∀ extensive results v,
               detect_pass apply_rules text langdata extensive = Ok results →
               (c, v) ∈ results →
               v = lang_score apply_rules extensive (prepare_text text) c d)
      as Hscore.
    { intros extensive results v Hpass Hv.
      destruct (detect_pass_inv _ _ _ _ Hpass)
        as (myresults & found & unk & Hrun & Hperm).
      destruct (detect_langs_spec apply_rules (prepare_text text) extensive
                  Hne Htok langdata [] ∅ Hwf (NoDup_nil_2))
        as (myresults' & found' & Hrun' & _ & Hnd' & _).
      assert (myresults' = myresults) as -> by congruence.
      eapply (NoDup_fst_unique results c); [|done|].
      - rewrite Hperm. by apply dict_set_NoDup.
      - rewrite Hperm. apply dict_set_other; [|done].
        by eapply (detect_langs_scores (prepare_text text) extensive Hne Htok
                     langdata [] ∅ myresults found c d). }
    rewrite (Hscore false fast s Hfast Hs), (Hscore true ext s' Hext Hs').
    unfold lang_score. apply quotient_mono; [|done].
    apply inj_le, length_filter_mono. intros t Ht.
    apply hit_extensive; [by apply (Hwf c d)|by apply Htok].
  - intros u u' Hu Hu'.
    destruct (detect_pass_spec apply_rules text langdata false Hne Hwf)
      as (fast' & Hfast' & _ & _ & (uf & _ & Huf1 & Huf2) & _).
    destruct (detect_pass_spec apply_rules text langdata true Hne Hwf)
      as (ext' & Hext' & _ & _ & (ue & _ & Hue1 & Hue2) & _).
    assert (fast' = fast) as -> by congruence.
    assert (ext' = ext) as -> by congruence.
    rewrite (Huf1 u Hu), (Hue1 u' Hu'), Huf2, Hue2.
    unfold Qminus. apply Qplus_le_r, Qopp_le_compat, quotient_mono; [|done].
    apply inj_le. unfold matched. apply length_filter_mono. intros t Ht.
    apply hit_any_extensive; [done|by apply Htok].
Qed.

End Scores.

Lemma detect_pass_scores_witness :
  ("en", lang_score no_rules false (prepare_text "cats are running") "en"
           (sample_tables "en"))
  ∈ sorted_reverse score_gt
      [("en", (2 # 3)%Q); ("de", (0 # 3)%Q); ("unk", (1 # 3)%Q)].
Proof.
  apply (detect_pass_scores no_rules "cats are running"
           [("en", sample_tables "en"); ("de", sample_tables "de")] false
           _ "en" (sample_tables "en")).
  - by vm_compute.
  - apply sample_well_formed.
  - apply (bool_decide_unpack _). by vm_compute.
  - discriminate.
  - by vm_compute.
  - by left.
Defined.

Lemma detect_pass_extensive_ge_witness :
  (∀ c d s s',
      (c, d) ∈ [("en", sample_tables "en"); ("de", sample_tables "de")] →
      c ≠ "unk" →
      (c, s) ∈ [("en", (2 # 4)%Q); ("unk", (2 # 4)%Q); ("de", (0 # 4)%Q)] →
      (c, s') ∈ [("en", (3 # 4)%Q); ("unk", (1 # 4)%Q); ("de", (0 # 4)%Q)] →
      (s <= s')%Q) ∧
  (∀ u u',
      ("unk", u) ∈ [("en", (2 # 4)%Q); ("unk", (2 # 4)%Q); ("de", (0 # 4)%Q)] →
      ("unk", u') ∈ [("en", (3 # 4)%Q); ("unk", (1 # 4)%Q); ("de", (0 # 4)%Q)] →
      (u' <= u)%Q).
Proof.
  apply (detect_pass_extensive_ge no_rules "cats are running emailcats"
           [("en", sample_tables "en"); ("de", sample_tables "de")]).
  - by vm_compute.
  - apply sample_well_formed.
  - apply (bool_decide_unpack _). by vm_compute.
  - by vm_compute.
  - by vm_compute.
Defined.
